(** * LLM council: aggregation and resilience layer

    A shallow embedding of the statistical aggregation
    ([backend/evaluation.py], [backend/claims.py], [backend/schemas.py]),
    the calibration store ([backend/calibration.py]), the fault-tolerance
    helpers ([backend/resilience.py]) and the agreement and tracking steps
    of a council run ([backend/council_enhanced.py]), with the properties
    the specification states about them and further properties read off
    the code.

    Conventions of the embedding.
    - Python [int] is [Z]; list lengths are [nat], injected where they meet
      integers.
    - Python [float] is embedded as an exact rational ([Q]): rounding is not
      modelled.  A division whose divisor is zero raises
      [ZeroDivisionError], as in Python.  What is stated of a float
      computation is what rounding leaves alone: ranges and signs, exact
      zeros, which error is raised, and equalities between runs whose
      intermediate values are all representable.  A lemma that holds in
      exact arithmetic only says so.
    - A Python [dict] whose iteration order is observable is an association
      list in insertion order ([PyDict]); dictionaries only ever looked up
      by key are [gmap]s.
    - Wall-clock time ([time.time()]) is an explicit argument of every
      operation that reads it, one reading per call that reads the clock. *)

From Stdlib Require Import ZArith QArith Qminmax Qabs List Permutation Lia Lqa Bool.
From Stdlib Require Import String Ascii OrderedTypeEx Sorted.
From stdpp Require Import base option gmap strings list fin_maps.

Import ListNotations.
Local Open Scope string_scope.
Local Open Scope Z_scope.
Local Open Scope list_scope.

(** ** Python dictionaries as insertion-ordered association lists *)

Module PyDict.
Section Dict.
Context {V : Type}.

Definition dict := list (string * V).

Definition empty : dict := [].

(** [d.get(k)] *)
Fixpoint get (d : dict) (k : string) : option V :=
  match d with
  | [] => None
  | (k', v) :: d' => if String.eqb k' k then Some v else get d' k
  end.

(** [d.get(k, dflt)] *)
Definition get_default (d : dict) (k : string) (dflt : V) : V :=
  match get d k with Some v => v | None => dflt end.

(** [d[k] = v]: an existing key keeps its position, a new key goes last. *)
Fixpoint set (d : dict) (k : string) (v : V) : dict :=
  match d with
  | [] => [(k, v)]
  | (k', v') :: d' =>
      if String.eqb k' k then (k', v) :: d' else (k', v') :: set d' k v
  end.

Definition keys (d : dict) : list string := map fst d.
Definition values (d : dict) : list V := map snd d.
Definition mem (d : dict) (k : string) : bool :=
  match get d k with Some _ => true | None => false end.
End Dict.
Arguments dict V : clear implicits.
End PyDict.

(** ** Numeric helpers *)

(** [sum(xs)] over integers and over floats: left to right from [0]. *)
Definition Zsum (xs : list Z) : Z := fold_left Z.add xs 0%Z.
Definition Qsum (xs : list Q) : Q := fold_left Qplus xs 0%Q.

(** [max(a, b)] and [min(a, b)] of Python: the first argument wins ties. *)
Definition py_max (a b : Q) : Q := if Qlt_le_dec a b then b else a.
Definition py_min (a b : Q) : Q := if Qlt_le_dec b a then b else a.

(** [enumerate(xs)] *)
Definition enumerate {A} (xs : list A) : list (nat * A) :=
  combine (seq 0 (length xs)) xs.

(** ** Kendall's W ([backend/evaluation.py]) *)

Module Evaluation.
Import PyDict.

(** [{item: i + 1 for i, item in enumerate(ranking)}] *)
Definition rank_dict (ranking : list string) : dict Z :=
  fold_left (fun d '(i, item) => set d item (Z.of_nat i + 1)%Z)
            (enumerate ranking) empty.

(** [rankings[judge]]; every key looked up below comes from
    [rankings.keys()], so the default is never reached on a dictionary. *)
Definition ranking_of (rankings : dict (list string)) (judge : string)
  : list string :=
  get_default rankings judge [].

(** One row of the rank matrix:
    [[ranks.get(item, n_items) for item in items]]. *)
Definition rank_row (rankings : dict (list string)) (items : list string)
    (judge : string) : list Z :=
  let ranking := ranking_of rankings judge in
  let ranks := rank_dict ranking in
  map (fun item => get_default ranks item (Z.of_nat (length items))) items.

Definition compute_kendalls_w (rankings : dict (list string)) : Q :=
  if (length rankings <? 2)%nat then 1%Q
  else
    let judges := keys rankings in
    let items := ranking_of rankings (hd "" judges) in
    let n_items := length items in
    let n_judges := length judges in
    if (n_items <? 2)%nat then 1%Q
    else
      let rank_matrix := map (rank_row rankings items) judges in
      let rank_sums :=
        map (fun i => Zsum (map (fun row => nth i row 0%Z) rank_matrix))
            (seq 0 n_items) in
      let mean_rank_sum :=
        (inject_Z (Zsum rank_sums) / inject_Z (Z.of_nat n_items))%Q in
      let S :=
        Qsum (map (fun rs => ((inject_Z rs - mean_rank_sum) ^ 2)%Q)
                  rank_sums) in
      let S_max :=
        (inject_Z (Z.of_nat n_judges ^ 2
                   * (Z.of_nat n_items ^ 3 - Z.of_nat n_items))
         / 12)%Q in
      let W := if Qlt_le_dec 0 S_max then (S / S_max)%Q else 0%Q in
      py_min (py_max W 0) 1.

(** The rank a judge gives an item: its 1-based position in the judge's
    list, or [n] when the judge omits it. *)
Definition cell (rankings : dict (list string)) (n : nat)
    (judge item : string) : Z :=
  get_default (rank_dict (ranking_of rankings judge)) item (Z.of_nat n).

(** W as a function of the rank sums and the two sizes. *)
Definition w_of_rank_sums (n_judges n_items : nat) (rank_sums : list Z) : Q :=
  let mean_rank_sum :=
    (inject_Z (Zsum rank_sums) / inject_Z (Z.of_nat n_items))%Q in
  let S :=
    Qsum (map (fun rs => ((inject_Z rs - mean_rank_sum) ^ 2)%Q) rank_sums) in
  let S_max :=
    (inject_Z (Z.of_nat n_judges ^ 2
               * (Z.of_nat n_items ^ 3 - Z.of_nat n_items)) / 12)%Q in
  let W := if Qlt_le_dec 0 S_max then (S / S_max)%Q else 0%Q in
  py_min (py_max W 0) 1.

(** Two judges who disagree on the item set, in both insertion orders. *)
Definition uneven_rankings : dict (list string) :=
  [("judge1", ["A"; "B"; "C"]); ("judge2", ["B"; "A"])].
Definition uneven_rankings_swapped : dict (list string) :=
  [("judge2", ["B"; "A"]); ("judge1", ["A"; "B"; "C"])].

(** Two judges over the same three items, in both insertion orders. *)
Definition even_rankings : dict (list string) :=
  [("judge1", ["A"; "B"; "C"]); ("judge2", ["B"; "A"; "C"])].
Definition even_rankings_swapped : dict (list string) :=
  [("judge2", ["B"; "A"; "C"]); ("judge1", ["A"; "B"; "C"])].

(** *** Bradley-Terry scores *)

Inductive winner_t := WinA | WinB | WinTie.

Record PairwiseComparison := {
  response_a : string;
  response_b : string;
  winner : winner_t;
  confidence : Q;
  reasoning : string
}.

(** The comparison list comes from [asyncio.gather(..., return_exceptions=True)]:
    an entry is a comparison or an exception object, which
    [isinstance(c, PairwiseComparison)] skips. *)
Inductive gathered :=
| Comparison (c : PairwiseComparison)
| NotComparison (what : string).

Inductive result (A : Type) :=
| Ok (a : A)
| ZeroDivisionError.
Arguments Ok {A} a.
Arguments ZeroDivisionError {A}.

Definition bind {A B} (m : result A) (k : A -> result B) : result B :=
  match m with
  | Ok a => k a
  | ZeroDivisionError => ZeroDivisionError
  end.

Notation "'try!' x := m 'in' k" := (bind m (fun x => k))
  (at level 10, x name, m at level 100, k at level 200).

(** [a / b] on floats. *)
Definition div (a b : Q) : result Q :=
  if Qeq_bool b 0 then ZeroDivisionError else Ok (a / b)%Q.

(** [responses.add(x)] on a set, kept as a duplicate-free list. *)
Definition set_add (s : list string) (x : string) : list string :=
  if existsb (String.eqb x) s then s else s ++ [x].

(** [sorted(responses)]: insertion sort in code-point order. *)
Fixpoint insert_sorted (x : string) (l : list string) : list string :=
  match l with
  | [] => [x]
  | y :: l' =>
      match String.compare x y with
      | Gt => y :: insert_sorted x l'
      | _ => x :: l
      end
  end.

Definition sorted (l : list string) : list string :=
  fold_right insert_sorted [] l.

Definition collect_responses (comparisons : list gathered) : list string :=
  fold_left
    (fun responses c =>
       match c with
       | Comparison c => set_add (set_add responses (response_a c)) (response_b c)
       | NotComparison _ => responses
       end)
    comparisons [].

(** [wins[a][b]]; both keys are members of [responses]. *)
Definition wins_get (wins : dict (dict Q)) (a b : string) : Q :=
  get_default (get_default wins a empty) b 0%Q.

(** [wins[a][b] += x] *)
Definition wins_add (wins : dict (dict Q)) (a b : string) (x : Q)
  : dict (dict Q) :=
  let row := get_default wins a empty in
  set wins a (set row b (get_default row b 0 + x)%Q).

(** [{r: {s: 0 for s in responses} for r in responses}] *)
Definition wins_init (responses : list string) : dict (dict Q) :=
  map (fun r => (r, map (fun s => (s, 0%Q)) responses)) responses.

Definition count_wins (responses : list string) (comparisons : list gathered)
  : dict (dict Q) :=
  fold_left
    (fun wins c =>
       match c with
       | NotComparison _ => wins
       | Comparison c =>
           match winner c with
           | WinA => wins_add wins (response_a c) (response_b c) (confidence c)
           | WinB => wins_add wins (response_b c) (response_a c) (confidence c)
           | WinTie =>
               let wins :=
                 wins_add wins (response_a c) (response_b c)
                          (0.5 * confidence c)%Q in
               wins_add wins (response_b c) (response_a c)
                        (0.5 * confidence c)%Q
           end
       end)
    comparisons (wins_init responses).

(** [sum((wins[r][s] + wins[s][r]) / (scores[r] + scores[s])
         for s in responses if s != r)] *)
Definition bt_denominator (wins : dict (dict Q)) (scores : dict Q)
    (responses : list string) (r : string) : result Q :=
  fold_left
    (fun acc s =>
       if String.eqb s r then acc
       else
         try! a := acc in
         try! t := div (wins_get wins r s + wins_get wins s r)%Q
                      (get_default scores r 0 + get_default scores s 0)%Q in
         Ok (a + t)%Q)
    responses (Ok 0%Q).

(** The body of [for r in responses], filling [new_scores]. *)
Definition bt_new_scores (wins : dict (dict Q)) (scores : dict Q)
    (responses : list string) : result (dict Q) :=
  fold_left
    (fun acc r =>
       try! new_scores := acc in
       let numerator := Qsum (values (get_default wins r empty)) in
       try! denominator := bt_denominator wins scores responses r in
       try! x := div numerator (py_max denominator 0.001%Q) in
       Ok (set new_scores r x))
    responses (Ok empty).

(** [{r: s / total for r, s in new_scores.items()}] *)
Fixpoint bt_normalize (new_scores : dict Q) (total : Q) : result (dict Q) :=
  match new_scores with
  | [] => Ok empty
  | (r, s) :: rest =>
      try! x := div s total in
      try! rest' := bt_normalize rest total in
      Ok ((r, x) :: rest')
  end.

(** One pass of the body of [for _ in range(20)]. *)
Definition bt_step (wins : dict (dict Q)) (responses : list string)
    (scores : dict Q) : result (dict Q) :=
  try! new_scores := bt_new_scores wins scores responses in
  let total := Qsum (values new_scores) in
  bt_normalize new_scores total.

Fixpoint bt_iterate (n : nat) (wins : dict (dict Q))
    (responses : list string) (scores : dict Q) : result (dict Q) :=
  match n with
  | O => Ok scores
  | S n' =>
      try! scores' := bt_step wins responses scores in
      bt_iterate n' wins responses scores'
  end.

Definition bradley_terry_scores (comparisons : list gathered)
  : result (dict Q) :=
  let responses := collect_responses comparisons in
  match responses with
  | [] => Ok empty
  | _ =>
      let responses := sorted responses in
      let scores := map (fun r => (r, 1%Q)) responses in
      let wins := count_wins responses comparisons in
      bt_iterate 20 wins responses scores
  end.

(** The win table read as a function: [wins_table responses f] holds
    [f r s] at [wins[r][s]]. *)
Definition wins_table (responses : list string) (f : string -> string -> Q)
  : dict (dict Q) :=
  map (fun r => (r, map (fun s => (s, f r s)) responses)) responses.

(** [f] after [wins[a][b] += x]. *)
Definition bump (f : string -> string -> Q) (a b : string) (x : Q)
  : string -> string -> Q :=
  fun r s => if String.eqb r a && String.eqb s b then (f r s + x)%Q else f r s.

(** [f] after one entry of the comparison list. *)
Definition tally (f : string -> string -> Q) (c : gathered)
  : string -> string -> Q :=
  match c with
  | NotComparison _ => f
  | Comparison c =>
      match winner c with
      | WinA => bump f (response_a c) (response_b c) (confidence c)
      | WinB => bump f (response_b c) (response_a c) (confidence c)
      | WinTie =>
          bump (bump f (response_a c) (response_b c) (0.5 * confidence c)%Q)
               (response_b c) (response_a c) (0.5 * confidence c)%Q
      end
  end.

Definition no_wins : string -> string -> Q := fun _ _ => 0%Q.

(** A response the entry mentions. *)
Definition mentions (c : gathered) (x : string) : Prop :=
  match c with
  | Comparison c => x = response_a c \/ x = response_b c
  | NotComparison _ => False
  end.

(** Score maps with the same keys in the same order and equal values. *)
Definition dict_equiv (d d' : dict Q) : Prop :=
  Forall2 (fun e e' => fst e = fst e' /\ snd e == snd e') d d'.

Definition result_equiv (m m' : result (dict Q)) : Prop :=
  match m, m' with
  | Ok d, Ok d' => dict_equiv d d'
  | ZeroDivisionError, ZeroDivisionError => True
  | _, _ => False
  end.

Definition value_equiv (m m' : result Q) : Prop :=
  match m, m' with
  | Ok x, Ok x' => x == x'
  | ZeroDivisionError, ZeroDivisionError => True
  | _, _ => False
  end.

Definition gtb (x y : string) : bool :=
  match String.compare x y with Gt => true | _ => false end.

Definition is_comparison (c : gathered) : bool :=
  match c with Comparison _ => true | NotComparison _ => false end.

Definition prefers (a b : string) (conf : Q) : gathered :=
  Comparison {| response_a := a; response_b := b; winner := WinA;
                confidence := conf; reasoning := "" |}.

(** One response beats two others, which are never compared with each
    other. *)
Definition two_losers : list gathered :=
  [prefers "Response A" "Response B" 1; prefers "Response A" "Response C" 1].

(** A single comparison the judge has no confidence in. *)
Definition zero_confidence : list gathered :=
  [prefers "Response A" "Response B" 0].

End Evaluation.


(** ** Claim agreement ([backend/claims.py]) *)

Module Claims.

Inductive verification_status_t :=
| Unverified | VerifiedTrue | VerifiedFalse | Contested.

Record ExtractedClaim := {
  claim : string;
  supporting_models : list string;
  contradicting_models : list string;
  confidence : Q;
  verification_status : verification_status_t;
  source : option string
}.

Definition compute_claim_agreement (claims : list ExtractedClaim) : Q :=
  match claims with
  | [] => 1%Q
  | _ =>
      let agreement_scores :=
        fold_left
          (fun agreement_scores claim =>
             let n_support := length (supporting_models claim) in
             let n_contradict := length (contradicting_models claim) in
             let total := (n_support + n_contradict)%nat in
             if (0 <? total)%nat
             then agreement_scores
                    ++ [(inject_Z (Z.of_nat n_support)
                         / inject_Z (Z.of_nat total))%Q]
             else agreement_scores)
          claims [] in
      match agreement_scores with
      | [] => 1%Q
      | _ =>
          (Qsum agreement_scores
           / inject_Z (Z.of_nat (length agreement_scores)))%Q
      end
  end.

(** The specification's wording, for comparison with the code: a claim has a
    vote when it has a supporting or a contradicting entry; its agreement is
    supports / (supports + contradicts); the overall agreement is the mean
    over the claims with a vote. *)
Definition has_vote (c : ExtractedClaim) : bool :=
  match supporting_models c, contradicting_models c with
  | [], [] => false
  | _, _ => true
  end.

Definition claim_ratio (c : ExtractedClaim) : Q :=
  (inject_Z (Z.of_nat (length (supporting_models c)))
   / inject_Z (Z.of_nat (length (supporting_models c)
                         + length (contradicting_models c))))%Q.

Definition mean_over_voted (claims : list ExtractedClaim) : Q :=
  let voted := List.filter has_vote claims in
  (Qsum (map claim_ratio voted) / inject_Z (Z.of_nat (length voted)))%Q.

Definition mk_claim (text : string) (support contradict : list string)
  : ExtractedClaim :=
  {| claim := text; supporting_models := support;
     contradicting_models := contradict; confidence := 0.9%Q;
     verification_status := Unverified; source := None |}.

(** Three claims: one unanimous, one contested, one nobody voted on. *)
Definition sample_claims : list ExtractedClaim :=
  [mk_claim "water boils at 100 C" ["Response A"; "Response B"] [];
   mk_claim "the sky is green" ["Response A"] ["Response B"; "Response C"];
   mk_claim "no opinion" [] []].

End Claims.

(** ** Calibration store ([backend/calibration.py]) *)

Module Calibration.

(** A row of the [predictions] table. *)
Record row := {
  id : Z;
  model : string;
  query_hash : string;
  stated_confidence : Q;
  prediction : string;
  ground_truth : option string;
  correct : option Z;
  timestamp : string
}.

(** The table with its [AUTOINCREMENT] counter: [last_id] is the largest
    [id] ever handed out. *)
Record table := {
  rows : list row;
  last_id : Z
}.

Definition init_db : table := {| rows := []; last_id := 0 |}.

Section Tracker.
(** [hashlib.sha256(query.encode()).hexdigest()[:16]] *)
Variable sha256_hex16 : string -> string.
(** The built-in string operations [_check_correctness] uses. *)
Variable str_lower : string -> string.
Variable str_strip : string -> string.
Variable str_split : string -> list string.
Variable str_len : string -> Z.
Variable str_contains : string -> string -> bool. (* [needle in haystack] *)

Definition query_hash_of (query : string) : string := sha256_hex16 query.

Definition same_key (m qhash : string) (r : row) : bool :=
  String.eqb (model r) m && String.eqb (query_hash r) qhash.

(** [INSERT OR REPLACE INTO predictions (model, query_hash,
    stated_confidence, prediction, timestamp)]: the row in conflict on
    [UNIQUE(model, query_hash)] is deleted, the new row gets the next id
    and NULL in the columns the statement does not name. *)
Definition record_prediction (db : table) (m query : string)
    (conf : Q) (pred : string) (now : string) : table :=
  let qhash := query_hash_of query in
  let kept := List.filter (fun r => negb (same_key m qhash r)) (rows db) in
  let new_id := last_id db + 1 in
  {| rows := kept ++ [ {| id := new_id; model := m; query_hash := qhash;
                          stated_confidence := conf; prediction := pred;
                          ground_truth := None; correct := None;
                          timestamp := now |} ];
     last_id := new_id |}.

Definition _check_correctness (pred truth : string) : bool :=
  let pred_lower := str_strip (str_lower pred) in
  let truth_lower := str_strip (str_lower truth) in
  if String.eqb pred_lower truth_lower then true
  else if str_contains truth_lower pred_lower
          || str_contains pred_lower truth_lower then true
  else
    let pred_first :=
      if String.eqb pred_lower "" then "" else hd "" (str_split pred_lower) in
    let truth_first :=
      if String.eqb truth_lower "" then "" else hd "" (str_split truth_lower) in
    String.eqb pred_first truth_first && (2 <? str_len truth_first).

(** [SET ground_truth = ?, correct = ?] on one row. *)
Definition with_outcome (r : row) (truth : string) (c : Z) : row :=
  {| id := id r; model := model r; query_hash := query_hash r;
     stated_confidence := stated_confidence r;
     prediction := prediction r;
     ground_truth := Some truth; correct := Some c;
     timestamp := timestamp r |}.

(** [UPDATE predictions SET ground_truth = ?, correct = ? WHERE id = ?] *)
Definition update_by_id (rs : list row) (pred_id : Z)
    (truth : string) (c : Z) : list row :=
  map (fun r => if Z.eqb (id r) pred_id then with_outcome r truth c else r)
      rs.

Definition record_outcome (db : table) (query truth : string) : table :=
  let qhash := query_hash_of query in
  (* SELECT id, prediction FROM predictions WHERE query_hash = ? *)
  let fetched :=
    map (fun r => (id r, prediction r))
        (List.filter (fun r => String.eqb (query_hash r) qhash) (rows db)) in
  let rows' :=
    fold_left
      (fun rs '(pred_id, pred) =>
         let c := if _check_correctness pred truth then 1 else 0 in
         update_by_id rs pred_id truth c)
      fetched (rows db) in
  {| rows := rows'; last_id := last_id db |}.

(** The states of the store: what a sequence of calls builds from the
    empty table. *)
Inductive reachable : table -> Prop :=
| reach_init : reachable init_db
| reach_prediction db m query conf pred now :
    reachable db -> reachable (record_prediction db m query conf pred now)
| reach_outcome db query truth :
    reachable db -> reachable (record_outcome db query truth).

(** Rows stored under a key, and under a query hash. *)
Definition rows_of (db : table) (m qhash : string) : list row :=
  List.filter (same_key m qhash) (rows db).

Definition rows_of_query (db : table) (qhash : string) : list row :=
  List.filter (fun r => String.eqb (query_hash r) qhash) (rows db).

(** A row after the outcome [truth] was recorded for query hash [qhash]:
    filled in when the row is about that query, as it was otherwise. *)
Definition backfilled (qhash truth : string) (r : row) : row :=
  if String.eqb (query_hash r) qhash
  then with_outcome r truth
         (if _check_correctness (prediction r) truth then 1 else 0)
  else r.

(** What the schema promises of a table: [id] is a key handed out in
    increasing order, and [(model, query_hash)] is unique. *)
Definition row_key (r : row) : string * string := (model r, query_hash r).

Definition well_keyed (db : table) : Prop :=
  List.NoDup (map id (rows db))
  /\ Forall (fun r => id r <= last_id db) (rows db)
  /\ List.NoDup (map row_key (rows db)).
End Tracker.

(** Stand-ins for the digest and the string built-ins in examples, on
    ASCII text without surrounding blanks. *)
Fixpoint plain_contains (needle hay : string) : bool :=
  String.prefix needle hay
  || match hay with
     | EmptyString => false
     | String _ hay' => plain_contains needle hay'
     end.

Definition plain_hash (query : string) : string := query.
Definition plain_same (text : string) : string := text.
Definition plain_split (text : string) : list string := [text].
Definition plain_len (text : string) : Z := Z.of_nat (String.length text).

(** Two models predict on one question. *)
Definition two_predictions : table :=
  record_prediction plain_hash
    (record_prediction plain_hash init_db
       "gpt" "capital of France?" 0.9%Q "Paris" "2024-01-01T00:00:00")
    "claude" "capital of France?" 0.8%Q "Lyon" "2024-01-01T00:00:01".

End Calibration.

(** ** Fault tolerance ([backend/resilience.py]) *)

Module Resilience.

(** *** [with_retry] *)

Section Retry.
(** The operation is effectful: an invocation acts on the state of the
    world and either returns a value or raises an error caught by
    [except Exception]. *)
Context {World A E : Type}.

Inductive outcome :=
| Returned (a : A)
| Raised (e : E).

Inductive event :=
| Invoke
| Sleep (delay : Q).

(** How a run ends: with the value of the operation, with its last error
    raised again, with the [TypeError] of [raise last_error] when
    [last_error] is [None], or with the [OverflowError] of the delay
    computation. *)
Inductive retry_result :=
| RetryReturn (a : A)
| RetryRaise (e : E)
| RetryTypeError
| RetryOverflowError.

Variable coro_factory : World -> outcome * World.
Variable max_retries : Z.
Variable base_delay : Q.
Variable exponential : bool.

(** [2 ** attempt if exponential else 1], an [int]. *)
Definition backoff_factor (attempt : Z) : Z :=
  if exponential then 2 ^ attempt else 1.

(** The product [base_delay * factor] when it can be computed. *)
Definition delay_value (attempt : Z) : Q :=
  (base_delay * inject_Z (backoff_factor attempt))%Q.

(** [base_delay * (2 ** attempt if exponential else 1)]: [base_delay] is a
    [float], so the [int] factor is converted to a [float] first, and from
    [2 ** 1024] on that conversion raises [OverflowError] ([None] here).
    Below, the factor is 1 or a power of two and the float product is the
    exact product as long as it is finite. *)
Definition retry_delay (attempt : Z) : option Q :=
  if 2 ^ 1024 <=? backoff_factor attempt then None
  else Some (delay_value attempt).

(** The [for attempt in range(max_retries + 1)] loop, [remaining]
    iterations from [attempt] on, followed by [raise last_error].  An
    [OverflowError] of the delay computation is raised inside the [except]
    block and leaves the loop. *)
Fixpoint retry_loop (remaining : nat) (attempt : Z) (last_error : option E)
    (w : World) (log : list event) : retry_result * World * list event :=
  match remaining with
  | O =>
      (match last_error with
       | Some e => RetryRaise e
       | None => RetryTypeError
       end, w, log)
  | S remaining' =>
      match coro_factory w with
      | (Returned a, w') => (RetryReturn a, w', log ++ [Invoke])
      | (Raised e, w') =>
          let log := log ++ [Invoke] in
          if attempt <? max_retries
          then
            match retry_delay attempt with
            | Some delay =>
                retry_loop remaining' (attempt + 1) (Some e) w'
                           (log ++ [Sleep delay])
            | None => (RetryOverflowError, w', log)
            end
          else retry_loop remaining' (attempt + 1) (Some e) w' log
      end
  end.

Definition with_retry (w : World) : retry_result * World * list event :=
  retry_loop (Z.to_nat (max_retries + 1)) 0 None w [].

(** The world after [k] invocations, and what the next one does. *)
Fixpoint world_after (k : nat) (w : World) : World :=
  match k with
  | O => w
  | S k' => world_after k' (snd (coro_factory w))
  end.

Definition outcome_at (k : nat) (w : World) : outcome :=
  fst (coro_factory (world_after k w)).

(** [k] failed attempts, each followed by its back-off sleep, then one
    more invocation. *)
Definition backoff_log (k : nat) : list event :=
  flat_map (fun j => [Invoke; Sleep (delay_value (Z.of_nat j))]) (seq 0 k)
  ++ [Invoke].

(** The largest finite [float], [sys.float_info.max]. *)
Definition float_max : Q := inject_Z (2 ^ 1024 - 2 ^ 971).

(** Every delay a run may compute is a finite float: with exponential
    back-off the largest factor, [2 ** (max_retries - 1)], is below
    [2 ** 1024], and the largest product does not overflow. *)
Definition delays_representable : Prop :=
  exponential = true ->
  max_retries <= 1024
  /\ (Qabs base_delay * inject_Z (2 ^ (max_retries - 1)) <= float_max)%Q.
End Retry.

Arguments outcome A E : clear implicits.
Arguments retry_result A E : clear implicits.

(** Two operations over a world that counts invocations: one fails twice
    and then answers, one fails every time with the attempt number as its
    error. *)
Definition flaky (n : nat) : outcome Z string * nat :=
  (if (n <? 2)%nat then Raised "unavailable" else Returned 42, S n).

Definition always_down (n : nat) : outcome Z nat * nat :=
  (Raised n, S n).

(** *** [resilient_parallel_query] *)

Record ModelQueryError := {
  mqe_model : string;
  mqe_message : string;
  mqe_recoverable : bool
}.

(** [str(e)] of a [ModelQueryError]: the text given to [Exception.__init__]. *)
Definition mqe_str (e : ModelQueryError) : string :=
  (mqe_model e ++ ": " ++ mqe_message e)%string.

Record InsufficientResponsesError := {
  required : Z;
  received : Z;
  errors : list string
}.

Section FanOut.
Context {A : Type}.

(** What [query_func(model)] does under [asyncio.wait_for]: it completes
    in time, runs past the timeout, or raises an error with text [msg]. *)
Inductive worker_run :=
| Completes (value : A)
| TimesOut
| Fails (msg : string).

(** [query_with_timeout]; a result is a value or the exception that
    [gather(return_exceptions=True)] puts in its place. *)
Definition query_with_timeout (m : string) (run : worker_run)
  : A + ModelQueryError :=
  match run with
  | Completes v => inl v
  | TimesOut =>
      inr {| mqe_model := m; mqe_message := "Timeout";
             mqe_recoverable := true |}
  | Fails msg =>
      inr {| mqe_model := m; mqe_message := msg;
             mqe_recoverable := false |}
  end.

(** A call is given by its workers: each model id with the run of
    [query_func] on it. *)
Definition resilient_parallel_query (workers : list (string * worker_run))
    (min_required : Z) (allow_partial : bool)
  : (list A * list string) + InsufficientResponsesError :=
  let models := map fst workers in
  let results := map (fun '(m, run) => query_with_timeout m run) workers in
  let '(successful, failed, errs) :=
    fold_left
      (fun '(successful, failed, errs) '(m, result) =>
         match result with
         | inr e => (successful, failed ++ [m], errs ++ [mqe_str e])
         | inl v => (successful ++ [v], failed, errs)
         end)
      (combine models results) ([], [], []) in
  if (Z.of_nat (length successful) <? min_required) && negb allow_partial
  then inr {| required := min_required;
              received := Z.of_nat (length successful);
              errors := errs |}
  else inl (successful, failed).

(** The successes, failures and error texts of a call, worker by worker. *)
Definition successes_of (workers : list (string * worker_run)) : list A :=
  flat_map (fun '(_, run) =>
              match run with Completes v => [v] | _ => [] end) workers.

Definition is_failure (run : worker_run) : bool :=
  match run with Completes _ => false | _ => true end.

Definition failed_ids_of (workers : list (string * worker_run))
  : list string :=
  map fst (List.filter (fun w => is_failure (snd w)) workers).

Definition error_texts_of (workers : list (string * worker_run))
  : list string :=
  flat_map (fun '(m, run) =>
              match run with
              | Completes _ => []
              | TimesOut => [(m ++ ": Timeout")%string]
              | Fails msg => [(m ++ ": " ++ msg)%string]
              end) workers.
End FanOut.

Arguments worker_run A : clear implicits.

(** Four workers: the first and third run past the timeout, the second and
    fourth answer. *)
Definition four_workers : list (string * worker_run string) :=
  [("w1", TimesOut); ("w2", Completes "r2");
   ("w3", TimesOut); ("w4", Completes "r4")].

(** *** [QueryCache] *)

Section Cache.
Context {A : Type}.
(** [hashlib.sha256(text.encode()).hexdigest()[:32]] *)
Variable sha256_hex32 : string -> string.

Record QueryCache := {
  cache : gmap string (A * Q);
  ttl : Z
}.

Definition new_cache (ttl_seconds : Z) : QueryCache :=
  {| cache := ∅; ttl := ttl_seconds |}.

Definition _cache_key (query model : string) : string :=
  sha256_hex32 (model ++ ":" ++ query)%string.

Definition cache_get (c : QueryCache) (query model : string) (now : Q)
  : option A * QueryCache :=
  let key := _cache_key query model in
  match cache c !! key with
  | Some (value, timestamp) =>
      if Qlt_le_dec (now - timestamp) (inject_Z (ttl c))
      then (Some value, c)
      else (None, {| cache := delete key (cache c); ttl := ttl c |})
  | None => (None, c)
  end.

Definition cache_set (c : QueryCache) (query model : string) (value : A)
    (now : Q) : QueryCache :=
  let key := _cache_key query model in
  {| cache := <[key := (value, now)]> (cache c); ttl := ttl c |}.

Definition cache_clear (c : QueryCache) : QueryCache :=
  {| cache := ∅; ttl := ttl c |}.

Definition cache_clear_expired (c : QueryCache) (now : Q) : QueryCache :=
  {| cache :=
       omap (fun '(value, ts) =>
               if Qlt_le_dec (now - ts) (inject_Z (ttl c))
               then Some (value, ts) else None)
            (cache c);
     ttl := ttl c |}.

(** Calls on a cache, and the cache a sequence of calls leaves. *)
Inductive cache_call :=
| CallGet (query model : string) (now : Q)
| CallSet (query model : string) (value : A) (now : Q)
| CallClear
| CallClearExpired (now : Q).

Definition cache_step (c : QueryCache) (call : cache_call) : QueryCache :=
  match call with
  | CallGet query model now => snd (cache_get c query model now)
  | CallSet query model value now => cache_set c query model value now
  | CallClear => cache_clear c
  | CallClearExpired now => cache_clear_expired c now
  end.

Definition cache_run (calls : list cache_call) (c : QueryCache)
  : QueryCache :=
  fold_left cache_step calls c.

(** The call is a [set] that writes cache key [key]. *)
Definition sets_key (key : string) (call : cache_call) : Prop :=
  match call with
  | CallSet query model _ _ => _cache_key query model = key
  | _ => False
  end.

(** The text [f"{model}:{query}"] the key of a pair is the digest of. *)
Definition key_text (query model : string) : string :=
  (model ++ ":" ++ query)%string.

(** The call is a [set] for a pair that spells [text]. *)
Definition sets_text (text : string) (call : cache_call) : Prop :=
  match call with
  | CallSet query model _ _ => key_text query model = text
  | _ => False
  end.

(** The digest does not collide on [text] and the text of the pair a [set]
    is for. *)
Definition digest_separates (text : string) (call : cache_call) : Prop :=
  match call with
  | CallSet query model _ _ =>
      key_text query model <> text ->
      sha256_hex32 (key_text query model) <> sha256_hex32 text
  | _ => True
  end.
End Cache.

Arguments QueryCache A : clear implicits.
Arguments cache_call A : clear implicits.

(** A stand-in for the digest in examples: the text itself. *)
Definition plain_digest (text : string) : string := text.

(** Calls that store and read an answer of another model. *)
Definition other_model_calls : list (cache_call string) :=
  [CallSet "q1" "m2" "answer of m2" 0%Q; CallGet "q1" "m2" 10%Q;
   CallClearExpired 20%Q].

(** *** [CircuitBreaker] *)

Record CircuitBreaker := {
  failure_threshold : Z;
  recovery_timeout : Q;
  failures : gmap string Z;
  open_until : gmap string Q
}.

Definition new_breaker (threshold : Z) (timeout : Q) : CircuitBreaker :=
  {| failure_threshold := threshold; recovery_timeout := timeout;
     failures := ∅; open_until := ∅ |}.

Definition is_open (cb : CircuitBreaker) (m : string) (now : Q)
  : bool * CircuitBreaker :=
  match open_until cb !! m with
  | Some until =>
      if Qlt_le_dec now until
      then (true, cb)
      else (false,
            {| failure_threshold := failure_threshold cb;
               recovery_timeout := recovery_timeout cb;
               failures := <[m := 0]> (failures cb);
               open_until := delete m (open_until cb) |})
  | None => (false, cb)
  end.

Definition record_success (cb : CircuitBreaker) (m : string)
  : CircuitBreaker :=
  {| failure_threshold := failure_threshold cb;
     recovery_timeout := recovery_timeout cb;
     failures := <[m := 0]> (failures cb);
     open_until := open_until cb |}.

Definition record_failure (cb : CircuitBreaker) (m : string) (now : Q)
  : CircuitBreaker :=
  let count := default 0 (failures cb !! m) + 1 in
  let failures' := <[m := count]> (failures cb) in
  if failure_threshold cb <=? count
  then {| failure_threshold := failure_threshold cb;
          recovery_timeout := recovery_timeout cb;
          failures := failures';
          open_until := <[m := (now + recovery_timeout cb)%Q]> (open_until cb) |}
  else {| failure_threshold := failure_threshold cb;
          recovery_timeout := recovery_timeout cb;
          failures := failures';
          open_until := open_until cb |}.

(** [[m for m in models if not self.is_open(m)]]: every [is_open] reads
    [time.time()] for itself; [clock k] is what the [k]-th of them reads. *)
Fixpoint get_available_models (cb : CircuitBreaker) (models : list string)
    (clock : nat -> Q) : list string * CircuitBreaker :=
  match models with
  | [] => ([], cb)
  | m :: rest =>
      let '(is_open_m, cb') := is_open cb m (clock 0%nat) in
      let '(avail, cb'') :=
        get_available_models cb' rest (fun k => clock (S k)) in
      (if is_open_m then avail else m :: avail, cb'')
  end.

(** The models paired with the clock readings of their checks. *)
Definition checks (models : list string) (clock : nat -> Q)
  : list (string * Q) :=
  combine models (map clock (seq 0 (length models))).

(** A clock that does not run backwards. *)
Definition monotone_clock (clock : nat -> Q) : Prop :=
  forall i j, (i <= j)%nat -> (clock i <= clock j)%Q.

(** [record_failure] for [m] at each of the given times, in order. *)
Definition record_failures (cb : CircuitBreaker) (m : string)
    (times : list Q) : CircuitBreaker :=
  fold_left (fun cb now => record_failure cb m now) times cb.

(** A breaker with the default parameters after three failures of one
    model, at times 0, 1 and 2. *)
Definition tripped_breaker : CircuitBreaker :=
  record_failures (new_breaker 3 60) "m" [0; 1; 2]%Q.

(** A clock that reads 10, 40, 70, ... *)
Definition half_minutes (k : nat) : Q := inject_Z (30 * Z.of_nat k + 10).


End Resilience.

(** ** What a retry log adds up to *)

Module RetryLog.
Import Resilience.

(** The number of invocations in a log, and the time slept in total. *)
Definition invocations (log : list event) : nat :=
  length (List.filter (fun ev => match ev with Invoke => true | _ => false end)
                      log).

Definition sleep_total (log : list event) : Q :=
  Qsum (flat_map (fun ev => match ev with Sleep d => [d] | Invoke => [] end)
                 log).

End RetryLog.

(** ** Contested claims and their display ([backend/claims.py],
    [backend/council_enhanced.py]) *)

Module ClaimsDisplay.
Import PyDict Claims.

(** Truthiness of a list: it is not empty. *)
Definition truthy {A} (l : list A) : bool :=
  match l with [] => false | _ => true end.

Definition identify_contested_claims (claims : list ExtractedClaim)
  : list ExtractedClaim :=
  fold_left
    (fun contested claim =>
       if truthy (contradicting_models claim)
          && truthy (supporting_models claim)
       then contested ++ [claim]
       else contested)
    claims [].

(** An entry of the list [format_claims_for_display] returns. *)
Record DisplayedClaim := {
  shown_claim : string;
  shown_supporting : list string;
  shown_contradicting : list string;
  shown_confidence : Q;
  shown_status : verification_status_t;
  shown_source : option string
}.

(** [[label_to_model.get(label, label) for label in labels]] *)
Definition model_names (label_to_model : dict string) (labels : list string)
  : list string :=
  map (fun label => get_default label_to_model label label) labels.

Definition format_claims_for_display (claims : list ExtractedClaim)
    (label_to_model : dict string) : list DisplayedClaim :=
  fold_left
    (fun formatted c =>
       formatted
       ++ [ {| shown_claim := claim c;
               shown_supporting :=
                 model_names label_to_model (supporting_models c);
               shown_contradicting :=
                 model_names label_to_model (contradicting_models c);
               shown_confidence := confidence c;
               shown_status := verification_status c;
               shown_source := source c |} ])
    claims [].

(** [[c for c in claims if c["contradicting"]]] in [run_enhanced_council]. *)
Definition council_contested (claims : list DisplayedClaim)
  : list DisplayedClaim :=
  List.filter (fun c => truthy (shown_contradicting c)) claims.

(** A claim two responses reject and none supports. *)
Definition rejected_claim : ExtractedClaim :=
  mk_claim "the moon is made of cheese" [] ["Response A"; "Response B"].

End ClaimsDisplay.

(** ** Calibration curves ([backend/calibration.py]) *)

Module CalibrationCurves.
Import PyDict Calibration.

Record CalibrationCurve := {
  curve_model : string;
  buckets : dict Q;
  total_predictions : Z;
  brier_score : option Q
}.

(** The counters of one confidence bucket. *)
Record bucket := {
  bucket_correct : Z;
  bucket_total : Z
}.

(** A bucket never counts more correct rows than rows. *)
Definition sound_bucket (b : bucket) : Prop :=
  0 <= bucket_correct b <= bucket_total b.

(** [SELECT stated_confidence, correct FROM predictions
     WHERE model = ? AND correct IS NOT NULL] *)
Definition completed_rows (db : table) (m : string) : list (Q * Z) :=
  flat_map (fun r =>
              if String.eqb (model r) m
              then match correct r with
                   | Some c => [(stated_confidence r, c)]
                   | None => []
                   end
              else [])
           (rows db).

(** [SELECT AVG(correct) FROM predictions
     WHERE model = ? AND correct IS NOT NULL]: NULL over no row. *)
Definition get_model_accuracy (db : table) (m : string) : option Q :=
  match completed_rows db m with
  | [] => None
  | completed =>
      Some (Qsum (map (fun '(_, c) => inject_Z c) completed)
            / inject_Z (Z.of_nat (length completed)))%Q
  end.

Section Curve.
(** [round(x, 1)] and the format [f"{x:.1f}"]. *)
Variable round1 : Q -> Q.
Variable format1 : Q -> string.

(** [{f"{i/10:.1f}": {"correct": 0, "total": 0} for i in range(5, 11)}] *)
Definition empty_buckets : dict bucket :=
  fold_left
    (fun d i =>
       set d (format1 (inject_Z i / 10)%Q)
             {| bucket_correct := 0; bucket_total := 0 |})
    [5; 6; 7; 8; 9; 10] empty.

(** The body of [for confidence, correct in rows], on the buckets. *)
Definition count_row (bs : dict bucket) (row : Q * Z) : dict bucket :=
  let '(conf, c) := row in
  let bucket_key := format1 (py_min 1 (py_max 0.5 (round1 conf))) in
  match get bs bucket_key with
  | Some b =>
      let b := {| bucket_correct := bucket_correct b;
                  bucket_total := bucket_total b + 1 |} in
      let b := if Z.eqb c 0 then b
               else {| bucket_correct := bucket_correct b + 1;
                       bucket_total := bucket_total b |} in
      set bs bucket_key b
  | None => bs
  end.

(** [bucket_accuracies]: the buckets that counted a row. *)
Definition bucket_accuracies (bs : dict bucket) : dict Q :=
  fold_left
    (fun acc '(key, data) =>
       if 0 <? bucket_total data
       then set acc key (inject_Z (bucket_correct data)
                         / inject_Z (bucket_total data))%Q
       else acc)
    bs empty.

Definition get_calibration_curve (db : table) (m : string)
  : CalibrationCurve :=
  match completed_rows db m with
  | [] =>
      {| curve_model := m; buckets := empty; total_predictions := 0;
         brier_score := None |}
  | completed =>
      let bs := fold_left count_row completed empty_buckets in
      let brier_sum :=
        fold_left (fun acc '(conf, c) => (acc + (conf - inject_Z c) ^ 2)%Q)
                  completed 0%Q in
      {| curve_model := m;
         buckets := bucket_accuracies bs;
         total_predictions := Z.of_nat (length completed);
         brier_score :=
           Some (brier_sum / inject_Z (Z.of_nat (length completed)))%Q |}
  end.
End Curve.

(** For examples whose confidences have one decimal already: the rounding
    is the identity, and the format is given on the six bucket values. *)
Definition tenth_round (x : Q) : Q := x.

Definition tenth_format (x : Q) : string :=
  if Qeq_bool x 0.5 then "0.5" else if Qeq_bool x 0.6 then "0.6"
  else if Qeq_bool x 0.7 then "0.7" else if Qeq_bool x 0.8 then "0.8"
  else if Qeq_bool x 0.9 then "0.9" else "1.0".

(** The two predictions of [two_predictions] once the outcome is known. *)
Definition two_outcomes : table :=
  record_outcome plain_hash plain_same plain_same plain_split plain_len
    plain_contains two_predictions "capital of France?" "Paris".

End CalibrationCurves.

(** ** Expertise weights, domains and disagreement
    ([backend/schemas.py], [backend/evaluation.py]) *)

Module Aggregation.
Import PyDict Evaluation.

(** [needle in haystack] on strings. *)
Fixpoint str_in (needle hay : string) : bool :=
  String.prefix needle hay
  || match hay with
     | EmptyString => false
     | String _ hay' => str_in needle hay'
     end.

Definition EXPERTISE_WEIGHTS : dict (dict Q) :=
  [("math",
    [("deepseek", 0.9); ("gemini", 0.7); ("llama", 0.5); ("gemma", 0.4);
     ("gpt", 0.8); ("claude", 0.7); ("mistral", 0.5)]%Q);
   ("code",
    [("deepseek", 0.85); ("gemini", 0.7); ("llama", 0.7); ("gemma", 0.5);
     ("gpt", 0.9); ("claude", 0.85); ("mistral", 0.6)]%Q);
   ("creative",
    [("deepseek", 0.4); ("gemini", 0.8); ("llama", 0.7); ("gemma", 0.6);
     ("gpt", 0.85); ("claude", 0.9); ("mistral", 0.6)]%Q);
   ("factual",
    [("deepseek", 0.7); ("gemini", 0.8); ("llama", 0.6); ("gemma", 0.6);
     ("gpt", 0.8); ("claude", 0.75); ("mistral", 0.5)]%Q);
   ("reasoning",
    [("deepseek", 0.9); ("gemini", 0.75); ("llama", 0.6); ("gemma", 0.5);
     ("gpt", 0.85); ("claude", 0.8); ("mistral", 0.5)]%Q)].

(** The band all table entries and the default lie in. *)
Definition weight_in_range (w : Q) : bool :=
  Qle_bool 0.4 w && Qle_bool w 0.9.

Section WithLower.
(** [str.lower] *)
Variable str_lower : string -> string.

Definition get_model_weight (model_id domain : string) : Q :=
  let domain_weights :=
    match get EXPERTISE_WEIGHTS domain with
    | Some weights => weights
    | None => get_default EXPERTISE_WEIGHTS "factual" empty
    end in
  match find (fun '(key, _) => str_in key (str_lower model_id))
             domain_weights with
  | Some (_, weight) => weight
  | None => 0.5%Q
  end.

(** [any(kw in query_lower for kw in keywords)] *)
Definition any_in (keywords : list string) (text : string) : bool :=
  existsb (fun kw => str_in kw text) keywords.

Definition code_keywords : list string :=
  ["code"; "program"; "function"; "bug"; "error"; "python"; "javascript"].
Definition math_keywords : list string :=
  ["math"; "calculate"; "equation"; "prove"; "theorem"].
Definition creative_keywords : list string :=
  ["write"; "story"; "poem"; "creative"; "imagine"].
Definition reasoning_keywords : list string :=
  ["why"; "how"; "explain"; "reason"; "logic"].

Definition classify_query_domain (query : string) : string :=
  let query_lower := str_lower query in
  if any_in code_keywords query_lower then "code"
  else if any_in math_keywords query_lower then "math"
  else if any_in creative_keywords query_lower then "creative"
  else if any_in reasoning_keywords query_lower then "reasoning"
  else "factual".
End WithLower.

(** *** [detect_disagreement] *)

(** [{"position": pos, "models": models}] *)
Record faction := {
  position : string;
  models : list string
}.

Record DisagreementResult := {
  has_consensus : bool;
  agreement_score : Q;
  factions : list faction;
  recommendation : string
}.

(** [ranking[0] if ranking else "unknown"] *)
Definition first_choice (ranking : list string) : string :=
  match ranking with
  | [] => "unknown"
  | choice :: _ => choice
  end.

(** The body of [for judge, ranking in rankings.items()]. *)
Definition add_to_faction (factions_dict : dict (list string))
    (judge : string) (ranking : list string) : dict (list string) :=
  let choice := first_choice ranking in
  let factions_dict :=
    if mem factions_dict choice then factions_dict
    else set factions_dict choice [] in
  set factions_dict choice (get_default factions_dict choice [] ++ [judge]).

Definition detect_disagreement (rankings : dict (list string))
    (threshold : Q) : DisagreementResult :=
  let W := compute_kendalls_w rankings in
  if Qle_bool threshold W
  then {| has_consensus := true; agreement_score := W; factions := [];
          recommendation := "Council reached consensus" |}
  else
    let factions_dict :=
      fold_left (fun d '(judge, ranking) => add_to_faction d judge ranking)
                rankings empty in
    {| has_consensus := false; agreement_score := W;
       factions :=
         map (fun '(pos, members) =>
                {| position := pos; models := members |}) factions_dict;
       recommendation := "Council disagrees. Review competing positions." |}.

(** The judges of [rankings] whose first choice is [pos], in order. *)
Definition supporters (rankings : dict (list string)) (pos : string)
  : list string :=
  map fst (List.filter (fun e => String.eqb (first_choice (snd e)) pos)
                       rankings).

(** What the faction dictionary holds once the judges of [processed] have
    been filed. *)
Definition filed (processed : dict (list string)) (d : dict (list string))
  : Prop :=
  List.NoDup (keys d)
  /\ (forall pos members,
        In (pos, members) d ->
        members = supporters processed pos /\ members <> [])
  /\ (forall judge ranking,
        In (judge, ranking) processed -> In (first_choice ranking) (keys d)).

(** Three judges, two of them for A and one for B, in full disagreement on
    the rest. *)
Definition split_council : dict (list string) :=
  [("judge1", ["A"; "B"; "C"]); ("judge2", ["B"; "C"; "A"]);
   ("judge3", ["A"; "C"; "B"])].

End Aggregation.

(** ** Weighted rank aggregation ([backend/evaluation.py]) *)

Module Ranking.
Import PyDict Aggregation.

Record ModelEvaluation := {
  rankings : list string;
  confidence : Q;
  reasoning : string;
  dissent : option string
}.

Record AggregatedScore := {
  response_id : string;
  model_name : string;
  raw_score : Q;
  weighted_score : Q;
  rank : Z;
  votes_first : Z;
  votes_last : Z
}.

(** The per-response dictionary
    [{"weighted_sum": .., "weight_total": .., "first": .., "last": ..}]. *)
Record score_data := {
  weighted_sum : Q;
  weight_total : Q;
  first : Z;
  last : Z
}.

Definition zero_data : score_data :=
  {| weighted_sum := 0; weight_total := 0; first := 0; last := 0 |}.

(** [all_responses], filled by [update] judge by judge; kept in the order
    of first insertion. *)
Definition all_responses_of (judge_rankings : dict ModelEvaluation)
  : list string :=
  fold_left
    (fun all_responses '(_, eval_result) =>
       fold_left Evaluation.set_add (rankings eval_result) all_responses)
    judge_rankings [].

(** The body of [for rank_idx, response in enumerate(...)].
    [scores[response]] always finds its key, every ranked response being a
    member of [all_responses]; the default below is never read. *)
Definition score_response (weight conf : Q) (n : nat)
    (scores : dict score_data) (entry : nat * string) : dict score_data :=
  let '(rank_idx, response) := entry in
  let rank_score := Z.of_nat n - Z.of_nat rank_idx in
  let data := get_default scores response zero_data in
  let data :=
    {| weighted_sum :=
         (weighted_sum data + inject_Z rank_score * weight * conf)%Q;
       weight_total := (weight_total data + weight * conf)%Q;
       first := first data; last := last data |} in
  let data :=
    if Z.of_nat rank_idx =? 0
    then {| weighted_sum := weighted_sum data;
            weight_total := weight_total data;
            first := first data + 1; last := last data |}
    else data in
  let data :=
    if Z.of_nat rank_idx =? Z.of_nat n - 1
    then {| weighted_sum := weighted_sum data;
            weight_total := weight_total data;
            first := first data; last := last data + 1 |}
    else data in
  set scores response data.

(** The [AggregatedScore] built from one entry of [scores], with the rank
    still to be set. *)
Definition unranked_score (label_to_model : dict string) (response : string)
    (data : score_data) : AggregatedScore :=
  {| response_id := response;
     model_name := get_default label_to_model response response;
     raw_score := weighted_sum data;
     weighted_score :=
       (weighted_sum data / py_max (weight_total data) 0.001)%Q;
     rank := 0;
     votes_first := first data;
     votes_last := last data |}.

(** [r.rank = i + 1] *)
Definition with_rank (r : AggregatedScore) (i : Z) : AggregatedScore :=
  {| response_id := response_id r; model_name := model_name r;
     raw_score := raw_score r; weighted_score := weighted_score r;
     rank := i;
     votes_first := votes_first r; votes_last := votes_last r |}.

(** [results.sort(key=lambda x: x.weighted_score, reverse=True)]: a stable
    sort, entries with equal scores keep their order. *)
Fixpoint insert_by_score (x : AggregatedScore) (l : list AggregatedScore)
  : list AggregatedScore :=
  match l with
  | [] => [x]
  | y :: l' =>
      if Qlt_le_dec (weighted_score x) (weighted_score y)
      then y :: insert_by_score x l'
      else x :: l
  end.

Definition sort_by_score (l : list AggregatedScore) : list AggregatedScore :=
  fold_right insert_by_score [] l.

Section WithEnv.
Variable str_lower : string -> string.
(** The order in which a [set] with the given members is iterated: some
    arrangement of them, fixed by the hashes of the strings. *)
Variable set_iteration : list string -> list string.

Definition aggregate_rankings (judge_rankings : dict ModelEvaluation)
    (label_to_model : dict string) (domain : string)
  : list AggregatedScore :=
  let all_responses := all_responses_of judge_rankings in
  let scores :=
    fold_left (fun d r => set d r zero_data)
              (set_iteration all_responses) empty in
  let scores :=
    fold_left
      (fun scores '(judge_model, eval_result) =>
         let weight := get_model_weight str_lower judge_model domain in
         let n := length (rankings eval_result) in
         fold_left (score_response weight (confidence eval_result) n)
                   (enumerate (rankings eval_result)) scores)
      judge_rankings scores in
  let results :=
    fold_left
      (fun results '(response, data) =>
         results ++ [unranked_score label_to_model response data])
      scores [] in
  let results := sort_by_score results in
  map (fun '(i, r) => with_rank r (Z.of_nat i + 1)) (enumerate results).
End WithEnv.

(** The judges that rank at least one response. *)
(** The accumulators of one response are non-negative. *)
Definition score_nonneg (data : score_data) : Prop :=
  (0 <= weight_total data /\ 0 <= weighted_sum data)%Q.

(** Column totals of the vote counters of a score table. *)
Definition first_total (scores : dict score_data) : Z :=
  Zsum (map first (values scores)).

Definition last_total (scores : dict score_data) : Z :=
  Zsum (map last (values scores)).

Definition ranking_judges (judge_rankings : dict ModelEvaluation) : nat :=
  length (List.filter
            (fun e => match rankings (snd e) with [] => false | _ => true end)
            judge_rankings).

Definition judged (ranking : list string) (conf : Q) : ModelEvaluation :=
  {| rankings := ranking; confidence := conf; reasoning := "";
     dissent := None |}.

(** Two judges over three responses, the second ranking only two. *)
Definition two_judges : dict ModelEvaluation :=
  [("openai/gpt-4o", judged ["Response A"; "Response B"; "Response C"] 1);
   ("google/gemini-pro", judged ["Response B"; "Response A"] 0.8%Q)].

End Ranking.

(** ** Sample tournaments for the Bradley-Terry iteration *)

Module Tournament.
Import PyDict Evaluation.

(** One judge prefers A to B with full confidence. *)
Definition one_win : list gathered :=
  [prefers "Response A" "Response B" 1].

(** The scores the iteration settles on for [one_win]. *)
Definition settled : dict Q :=
  [("Response A", 1%Q); ("Response B", 0%Q)].

(** Every comparison in the list carries a non-negative confidence. *)
Definition confident (c : gathered) : Prop :=
  match c with
  | Comparison c => (0 <= confidence c)%Q
  | NotComparison _ => True
  end.

(** The comparison adds something to the win row of [x]: its confidence
    is not zero and [x] is its winner, or a side of its tie. *)
Definition credits (c : gathered) (x : string) : Prop :=
  match c with
  | NotComparison _ => False
  | Comparison c =>
      ~ (confidence c == 0)%Q
      /\ match winner c with
         | WinA => response_a c = x
         | WinB => response_b c = x
         | WinTie => response_a c = x \/ response_b c = x
         end
  end.

(** The comparison carries no weight: its confidence is zero. *)
Definition weightless (c : gathered) : Prop :=
  match c with
  | NotComparison _ => True
  | Comparison c => (confidence c == 0)%Q
  end.

(** Three responses of which only one ever wins, with a failed task among
    the comparisons; and comparisons no judge was sure of. *)
Definition one_winner : list gathered :=
  [prefers "Response B" "Response A" (9 # 10);
   NotComparison "timeout";
   prefers "Response B" "Response C" (7 # 10);
   prefers "Response A" "Response C" 0].

Definition unsure : list gathered :=
  [prefers "Response A" "Response B" 0;
   Comparison {| response_a := "Response B"; response_b := "Response C";
                 winner := WinTie; confidence := 0; reasoning := "" |}].

End Tournament.

(** ** The agreement scores of a council run ([backend/council_enhanced.py]) *)

Module Council.
Import PyDict Evaluation Aggregation.

(** A stage-2 result as the agreement computation reads it:
    [result["model"]] and [result.get("parsed_ranking", [])], the key being
    optional. *)
Record stage2_result := {
  judge_model : string;
  parsed_ranking : option (list string)
}.

Definition parsed_of (result : stage2_result) : list string :=
  match parsed_ranking result with
  | Some parsed => parsed
  | None => []
  end.

(** [rankings_dict]: the judges whose parsed ranking is non-empty. *)
Definition rankings_dict_of (stage2_results : list stage2_result)
  : dict (list string) :=
  fold_left
    (fun rankings_dict result =>
       match parsed_of result with
       | [] => rankings_dict
       | parsed => set rankings_dict (judge_model result) parsed
       end)
    stage2_results empty.

(** [compute_kendalls_w(rankings_dict) if rankings_dict else 0.5] *)
Definition agreement_of (rankings_dict : dict (list string)) : Q :=
  match rankings_dict with
  | [] => 0.5%Q
  | _ => compute_kendalls_w rankings_dict
  end.

(** The two agreement figures a run puts in its metadata:
    [metadata["agreement_score"]] and [metadata["disagreement"]]. *)
Record agreement_metadata := {
  metadata_agreement_score : Q;
  metadata_disagreement : DisagreementResult
}.

Definition run_agreement (stage2_results : list stage2_result)
  : agreement_metadata :=
  let rankings_dict := rankings_dict_of stage2_results in
  let agreement_score := agreement_of rankings_dict in
  let disagreement := detect_disagreement rankings_dict 0.5%Q in
  {| metadata_agreement_score := agreement_score;
     metadata_disagreement := disagreement |}.

Definition has_parsed (result : stage2_result) : Prop :=
  parsed_of result <> [].

(** Judges whose ranking could not be parsed, and judges with one of each. *)
Definition unparsed_judges : list stage2_result :=
  [ {| judge_model := "openai/gpt-4o"; parsed_ranking := None |};
    {| judge_model := "google/gemini-pro"; parsed_ranking := Some [] |} ].

Definition mixed_judges : list stage2_result :=
  [ {| judge_model := "openai/gpt-4o"; parsed_ranking := None |};
    {| judge_model := "google/gemini-pro";
       parsed_ranking := Some ["Response B"; "Response A"] |};
    {| judge_model := "anthropic/claude-3";
       parsed_ranking := Some ["Response A"; "Response B"] |} ].

(** *** Tracking calibration at the end of a run *)

(** A stage-1 result as the tracking loop reads it: [result["model"]] and
    [result["response"]]. *)
Record stage1_result := {
  stage1_model : string;
  stage1_response : string
}.

Section Tracking.
(** [hashlib.sha256(query.encode()).hexdigest()[:16]] *)
Variable sha256_hex16 : string -> string.
(** [text[:200]] *)
Variable first_200 : string -> string.
(** [datetime.utcnow().isoformat()] as read by the [k]-th call of the
    loop. *)
Variable utcnow : nat -> string.

(** [for result in stage1_results: tracker.record_prediction(...)] *)
Definition track_predictions (db : Calibration.table) (user_query : string)
    (agreement_score : Q) (stage1_results : list stage1_result)
  : Calibration.table :=
  fold_left
    (fun db '(k, result) =>
       Calibration.record_prediction sha256_hex16 db
         (stage1_model result) user_query agreement_score
         (first_200 (stage1_response result)) (utcnow k))
    (enumerate stage1_results) db.
End Tracking.

(** A row the tracking loop leaves: the council's agreement as stated
    confidence, and no outcome. *)
Definition tracked_row (agreement_score : Q) (r : Calibration.row) : Prop :=
  Calibration.stated_confidence r = agreement_score
  /\ Calibration.ground_truth r = None
  /\ Calibration.correct r = None.

(** The question of [two_outcomes] is put to the council again. *)
Definition rerun_results : list stage1_result :=
  [ {| stage1_model := "gpt"; stage1_response := "Paris" |};
    {| stage1_model := "claude"; stage1_response := "Paris" |} ].

Definition rerun : Calibration.table :=
  track_predictions Calibration.plain_hash (fun text => text)
    (fun _ => "2024-01-02T00:00:00") CalibrationCurves.two_outcomes
    "capital of France?" (3 # 4) rerun_results.

End Council.

(** ** Collecting the pairwise comparisons ([backend/evaluation.py]) *)

Module PairwiseStage.
Import Evaluation.

(** [itertools.combinations(xs, 2)] *)
Fixpoint combinations2 {A} (xs : list A) : list (A * A) :=
  match xs with
  | [] => []
  | x :: rest => map (pair x) rest ++ combinations2 rest
  end.

Section Stage2.
Context {Response : Type}.
(** [f"Response {chr(65+i)}"] *)
Variable label : nat -> string.
(** What [pairwise_compare(question, resp_a, resp_b, judge)] does for the
    pair at positions [i] and [j] and the [k]-th judge: it returns a
    comparison, or raises. *)
Variable pairwise_compare :
  nat -> nat -> nat -> string -> Response -> Response -> string -> gathered.

(** [compare_pair]: the labels the judge wrote are replaced by the
    positional ones; an exception passes through, and
    [asyncio.gather(..., return_exceptions=True)] puts it in the list. *)
Definition compare_pair (question : string)
    (pair : (nat * Response) * (nat * Response)) (judge : nat * string)
  : gathered :=
  let '((i, resp_a), (j, resp_b)) := pair in
  let '(k, judge_model) := judge in
  match pairwise_compare i j k question resp_a resp_b judge_model with
  | Comparison comparison =>
      Comparison {| response_a := label i;
                    response_b := label j;
                    winner := winner comparison;
                    confidence := confidence comparison;
                    reasoning := reasoning comparison |}
  | NotComparison what => NotComparison what
  end.

Definition stage2_pairwise_evaluation (question : string)
    (responses : list Response) (judge_models : list string)
  : list gathered :=
  let pairs := combinations2 (enumerate responses) in
  flat_map
    (fun pair => map (compare_pair question pair) (enumerate judge_models))
    pairs.
End Stage2.

(** The pairs of positions [i < j] below [n], in lexicographic order. *)
Definition index_pairs (n : nat) : list (nat * nat) :=
  flat_map (fun i => map (pair i) (seq (S i) (n - S i))) (seq 0 n).

(** What a call leaves in the gathered list once its comparison is given
    the labels [a] and [b]. *)
Definition with_labels (a b : string) (outcome : gathered) : gathered :=
  match outcome with
  | Comparison c =>
      Comparison {| response_a := a; response_b := b; winner := winner c;
                    confidence := confidence c; reasoning := reasoning c |}
  | NotComparison what => NotComparison what
  end.

End PairwiseStage.

(** * Properties *)

(** ** Sums and dictionaries *)

Section SumFacts.

Lemma Zsum_from (l : list Z) (a : Z) : fold_left Z.add l a = a + Zsum l.
Proof.
unfold Zsum. revert a.
induction l as [|x l IH]; intros a; simpl; [lia|].
rewrite (IH (a + x)), (IH (0 + x)). lia.
Qed.

Lemma Zsum_cons (x : Z) (l : list Z) : Zsum (x :: l) = x + Zsum l.
Proof. unfold Zsum at 1. simpl. apply Zsum_from. Qed.

Lemma Zsum_perm (l l' : list Z) : Permutation l l' -> Zsum l = Zsum l'.
Proof.
induction 1 as [|x l l' _ IH|x y l|l l' l'' _ IH1 _ IH2].
- reflexivity.
- rewrite !Zsum_cons. lia.
- rewrite !Zsum_cons. lia.
- congruence.
Qed.

Lemma Qsum_from (l : list Q) (a : Q) : fold_left Qplus l a == a + Qsum l.
Proof.
unfold Qsum. revert a.
induction l as [|x l IH]; intros a; simpl; [ring|].
rewrite IH, (IH (0 + x)%Q). ring.
Qed.

Lemma Qsum_cons (x : Q) (l : list Q) : Qsum (x :: l) == x + Qsum l.
Proof. unfold Qsum at 1. simpl. rewrite Qsum_from. ring. Qed.

Lemma Qsum_app (l l' : list Q) : Qsum (l ++ l') == Qsum l + Qsum l'.
Proof.
induction l as [|x l IH]; simpl.
- unfold Qsum at 2. simpl. ring.
- rewrite !Qsum_cons, IH. ring.
Qed.

Lemma Qsum_perm (l l' : list Q) : Permutation l l' -> Qsum l == Qsum l'.
Proof.
induction 1 as [|x l l' _ IH|x y l|l l' l'' _ IH1 _ IH2].
- reflexivity.
- rewrite !Qsum_cons, IH. reflexivity.
- rewrite !Qsum_cons. ring.
- rewrite IH1. exact IH2.
Qed.

Lemma py_max_compat (a a' b : Q) : a == a' -> py_max a b == py_max a' b.
Proof.
intros E. unfold py_max.
destruct (Qlt_le_dec a b) as [H|H], (Qlt_le_dec a' b) as [H'|H'];
  try reflexivity; try exact E.
- rewrite E in H. apply Qle_antisym; [exact H'|apply Qlt_le_weak, H].
- rewrite <- E in H'. apply Qle_antisym; [apply Qlt_le_weak, H'|exact H].
Qed.

Lemma py_min_compat (a a' b : Q) : a == a' -> py_min a b == py_min a' b.
Proof.
intros E. unfold py_min.
destruct (Qlt_le_dec b a) as [H|H], (Qlt_le_dec b a') as [H'|H'];
  try reflexivity; try exact E.
- rewrite E in H. apply Qle_antisym; [apply Qlt_le_weak, H|exact H'].
- rewrite <- E in H'. apply Qle_antisym; [exact H|apply Qlt_le_weak, H'].
Qed.

Lemma clamp_unit_range (w : Q) : (0 <= py_min (py_max w 0) 1 <= 1)%Q.
Proof.
unfold py_min, py_max.
destruct (Qlt_le_dec w 0) as [H|H];
  destruct (Qlt_le_dec 1 _) as [H'|H']; split;
  try apply Qle_refl; try exact H; try exact H'; try discriminate.
Qed.

End SumFacts.

Section DictFacts.
Import PyDict.
Context {V : Type}.

Lemma get_In (d : dict V) (k : string) (v : V) :
  get d k = Some v -> In (k, v) d.
Proof.
  induction d as [|[k' v'] d IH]; simpl; [discriminate|].
  destruct (String.eqb_spec k' k) as [->|Hne].
  - intros [= ->]. now left.
  - intros H. right. now apply IH.
Qed.

Lemma In_get (d : dict V) (k : string) (v : V) :
  List.NoDup (keys d) -> In (k, v) d -> get d k = Some v.
Proof.
  induction d as [|[k' v'] d IH]; simpl; [contradiction|].
  intros Hnd [Heq|Hin].
  - injection Heq as -> ->. now rewrite String.eqb_refl.
  - inversion Hnd as [|? ? Hnotin Hnd']; subst.
    destruct (String.eqb_spec k' k) as [->|Hne].
    + exfalso. apply Hnotin. unfold keys.
      change k with (fst (k, v)). now apply in_map.
    + now apply IH.
Qed.

Lemma get_None_not_key (d : dict V) (k : string) :
  get d k = None -> ~ In k (keys d).
Proof.
  induction d as [|[k' v'] d IH]; simpl; [tauto|].
  destruct (String.eqb_spec k' k) as [->|Hne]; [discriminate|].
  intros H [Heq|Hin]; [contradiction|]. now apply IH.
Qed.

(** A dictionary lookup does not depend on the insertion order. *)
Lemma get_perm (d d' : dict V) (k : string) :
  List.NoDup (keys d) -> Permutation d d' -> get d k = get d' k.
Proof.
  intros Hnd Hp.
  assert (Hnd' : List.NoDup (keys d')).
  { eapply Permutation.Permutation_NoDup; [|exact Hnd]. now apply Permutation_map. }
  destruct (get d k) as [v|] eqn:E.
  - symmetry. apply In_get; [exact Hnd'|].
    eapply Permutation_in; [exact Hp|]. now apply get_In.
  - destruct (get d' k) as [v'|] eqn:E'; [|reflexivity].
    exfalso. apply (get_None_not_key _ _ E).
    apply get_In in E'. apply (Permutation_in _ (Permutation_sym Hp)) in E'.
    unfold keys. change k with (fst (k, v')). now apply in_map.
Qed.
End DictFacts.

(** ** Kendall's W *)

Module KendallFacts.
Import PyDict Evaluation.

Lemma map_nth_seq {A B} (f : A -> B) (d : A) (l : list A) :
  map (fun i => f (nth i l d)) (seq 0 (length l)) = map f l.
Proof.
  induction l as [|x l IH]; simpl; [reflexivity|].
  f_equal. rewrite <- seq_shift, map_map. exact IH.
Qed.

Lemma rank_row_nth rankings items judge i :
  (i < length items)%nat ->
  nth i (rank_row rankings items judge) 0
  = cell rankings (length items) judge (nth i items "").
Proof.
  intros Hi. unfold rank_row, cell.
  rewrite (nth_indep _ 0
             (get_default (rank_dict (ranking_of rankings judge)) ""
                          (Z.of_nat (length items)))).
  - apply (map_nth (fun item =>
             get_default (rank_dict (ranking_of rankings judge)) item
                         (Z.of_nat (length items)))).
  - now rewrite length_map.
Qed.

(** The rank sums, item by item. *)
Lemma rank_sums_by_item rankings items judges :
  map (fun i => Zsum (map (fun row => nth i row 0)
                          (map (rank_row rankings items) judges)))
      (seq 0 (length items))
  = map (fun item =>
           Zsum (map (fun judge => cell rankings (length items) judge item)
                     judges))
        items.
Proof.
  rewrite <- (map_nth_seq
                (fun item =>
                   Zsum (map (fun judge =>
                                cell rankings (length items) judge item)
                             judges)) "" items).
  apply map_ext_in. intros i Hi. apply in_seq in Hi.
  rewrite map_map. f_equal. apply map_ext. intros judge.
  apply rank_row_nth. lia.
Qed.

Lemma compute_kendalls_w_unfold judge items rest :
  (1 <= length rest)%nat -> (2 <= length items)%nat ->
  compute_kendalls_w ((judge, items) :: rest)
  = w_of_rank_sums (S (length rest)) (length items)
      (map (fun item =>
              Zsum (map (fun j =>
                           cell ((judge, items) :: rest) (length items) j item)
                        (keys ((judge, items) :: rest))))
           items).
Proof.
  intros Hj Hi. unfold compute_kendalls_w.
  assert (E1 : (length ((judge, items) :: rest) <? 2)%nat = false).
  { apply Nat.ltb_ge. simpl. lia. }
  rewrite E1.
  assert (E2 : ranking_of ((judge, items) :: rest)
                 (hd "" (keys ((judge, items) :: rest))) = items).
  { unfold ranking_of, get_default. simpl. now rewrite String.eqb_refl. }
  rewrite E2.
  assert (E3 : (length items <? 2)%nat = false) by (apply Nat.ltb_ge; lia).
  rewrite E3.
  rewrite rank_sums_by_item.
  unfold w_of_rank_sums, keys. rewrite length_map. reflexivity.
Qed.

Lemma w_of_rank_sums_perm n_judges n_items rs rs' :
  Permutation rs rs' ->
  w_of_rank_sums n_judges n_items rs == w_of_rank_sums n_judges n_items rs'.
Proof.
  intros Hp. unfold w_of_rank_sums.
  rewrite (Zsum_perm _ _ Hp).
  apply py_min_compat, py_max_compat.
  destruct (Qlt_le_dec 0 _); [|reflexivity].
  apply Qmult_comp; [|reflexivity].
  apply Qsum_perm. now apply Permutation_map.
Qed.

(** Two rankings in which the same judges hold the same lists give every
    item the same rank sum. *)
Lemma cell_sum_perm (r1 r2 : dict (list string)) n item :
  List.NoDup (keys r1) -> Permutation r1 r2 ->
  Zsum (map (fun j => cell r1 n j item) (keys r1))
  = Zsum (map (fun j => cell r2 n j item) (keys r2)).
Proof.
  intros Hnd Hp.
  rewrite (Zsum_perm _ (map (fun j => cell r1 n j item) (keys r2))).
  - f_equal. apply map_ext. intros j. unfold cell, ranking_of, get_default.
    now rewrite (get_perm r1 r2 j Hnd Hp).
  - apply Permutation_map. unfold keys. now apply Permutation_map.
Qed.

(** C8: with fewer than two judges, or fewer than two items in the list the
    items are read from (the first judge's), Kendall's W is exactly 1. *)
Theorem kendalls_w_trivial (rankings : dict (list string)) :
  (length rankings < 2)%nat
  \/ (exists judge items rest,
        rankings = (judge, items) :: rest /\ (length items < 2)%nat) ->
  compute_kendalls_w rankings = 1%Q.
Proof.
  intros [Hj|(judge & items & rest & -> & Hi)]; unfold compute_kendalls_w.
  - apply Nat.ltb_lt in Hj. now rewrite Hj.
  - destruct (length ((judge, items) :: rest) <? 2)%nat; [reflexivity|].
    unfold ranking_of, get_default. simpl. rewrite String.eqb_refl.
    apply Nat.ltb_lt in Hi. now rewrite Hi.
Qed.

Lemma kendalls_w_trivial_witness :
  compute_kendalls_w [("judge1", ["A"; "B"; "C"])] = 1%Q
  /\ compute_kendalls_w [("judge1", ["A"]); ("judge2", ["A"; "B"])] = 1%Q.
Proof.
  split.
  - apply kendalls_w_trivial. left. simpl. lia.
  - apply kendalls_w_trivial. right.
    exists "judge1", ["A"], [("judge2", ["A"; "B"])].
    split; [reflexivity|simpl; lia].
Defined.

Lemma kendalls_w_few_judges (rankings : dict (list string)) :
  (length rankings < 2)%nat -> compute_kendalls_w rankings = 1%Q.
Proof.
  intros Hj. unfold compute_kendalls_w.
  apply Nat.ltb_lt in Hj. now rewrite Hj.
Qed.

Lemma kendalls_w_few_items judge items rest :
  (length items < 2)%nat ->
  compute_kendalls_w ((judge, items) :: rest) = 1%Q.
Proof.
  intros Hi. unfold compute_kendalls_w.
  destruct (length ((judge, items) :: rest) <? 2)%nat; [reflexivity|].
  unfold ranking_of, get_default. simpl. rewrite String.eqb_refl.
  apply Nat.ltb_lt in Hi. now rewrite Hi.
Qed.

Lemma kendalls_w_in_unit_interval (rankings : dict (list string)) :
  (0 <= compute_kendalls_w rankings <= 1)%Q.
Proof.
  unfold compute_kendalls_w.
  destruct (length rankings <? 2)%nat; [split; discriminate|].
  destruct (length _ <? 2)%nat; [split; discriminate|].
  apply clamp_unit_range.
Qed.

Lemma judge_order_invariance (r1 r2 : dict (list string)) :
  List.NoDup (keys r1) ->
  Permutation r1 r2 ->
  (forall j1 l1 j2 l2,
      In (j1, l1) r1 -> In (j2, l2) r1 -> Permutation l1 l2) ->
  compute_kendalls_w r1 == compute_kendalls_w r2.
Proof.
  intros Hnd Hp Hsame.
  pose proof (Permutation_length Hp) as Hlen.
  destruct (Nat.lt_ge_cases (length r1) 2) as [Hfew|Hmany].
  { rewrite !kendalls_w_few_judges by lia. reflexivity. }
  destruct r1 as [|[j1 l1] rest1]; [simpl in Hmany; lia|].
  destruct r2 as [|[j2 l2] rest2]; [simpl in Hlen; lia|].
  assert (Hl : Permutation l1 l2).
  { apply (Hsame j1 l1 j2 l2); [now left|].
    apply (Permutation_in _ (Permutation_sym Hp)). now left. }
  pose proof (Permutation_length Hl) as Hil.
  destruct (Nat.lt_ge_cases (length l1) 2) as [Hfi|Hmi].
  { rewrite !kendalls_w_few_items by lia. reflexivity. }
  rewrite !compute_kendalls_w_unfold by (simpl in *; lia).
  assert (Hr : length rest2 = length rest1) by (simpl in Hlen; lia).
  rewrite <- Hil, Hr.
  rewrite (map_ext
             (fun item =>
                Zsum (map (fun j => cell ((j2, l2) :: rest2) (length l1) j item)
                          (keys ((j2, l2) :: rest2))))
             (fun item =>
                Zsum (map (fun j => cell ((j1, l1) :: rest1) (length l1) j item)
                          (keys ((j1, l1) :: rest1))))).
  - apply w_of_rank_sums_perm. now apply Permutation_map.
  - intros item. symmetry. now apply cell_sum_perm.
Qed.

(** C1, as the code has it: Kendall's W always lies in [0,1]; it is the same
    for every insertion order of the judges provided every judge's list is
    duplicate-free and the lists are permutations of one another (every
    judge ranks the same items, each once).  Under that proviso the rank
    sums are integers whose mean is a half-integer
    ([KendallMoreFacts.complete_rankings_rank_total]), so that the
    deviations, their squares and their sum are computed without rounding
    and the equality below is an equality of the floats the code returns.
    With a repeated label the mean need not be a half-integer, and the sum
    of the squares depends on the order it is taken in. *)
Theorem kendalls_w_range_and_judge_order :
  (forall rankings : dict (list string),
      (0 <= compute_kendalls_w rankings <= 1)%Q)
  /\ (forall r1 r2 : dict (list string),
        List.NoDup (keys r1) ->
        Permutation r1 r2 ->
        (forall j l, In (j, l) r1 -> List.NoDup l) ->
        (forall j1 l1 j2 l2,
            In (j1, l1) r1 -> In (j2, l2) r1 -> Permutation l1 l2) ->
        compute_kendalls_w r1 == compute_kendalls_w r2).
Proof.
  split.
  - exact kendalls_w_in_unit_interval.
  - intros r1 r2 Hnd Hp _ Hsame. now apply judge_order_invariance.
Qed.

Lemma kendalls_w_range_and_judge_order_witness :
  compute_kendalls_w even_rankings == compute_kendalls_w even_rankings_swapped.
Proof.
  apply (proj2 kendalls_w_range_and_judge_order).
  - unfold even_rankings. simpl.
    constructor; [simpl; intros [H|[]]; discriminate H|].
    constructor; [simpl; tauto|constructor].
  - apply perm_swap.
  - unfold even_rankings.
    intros j l [H|[H|[]]]; injection H as <- <-;
      repeat constructor; simpl; intuition discriminate.
  - unfold even_rankings. simpl.
    intros j1 l1 j2 l2 [H1|[H1|[]]] [H2|[H2|[]]];
      injection H1 as <- <-; injection H2 as <- <-;
      try apply Permutation_refl; apply perm_swap.
Defined.

(** C1 as stated fails: when the judges' lists differ, the items are read
    from whichever judge comes first, and W changes with the judge order. *)
Lemma kendalls_w_judge_order_counterexample :
  Permutation uneven_rankings uneven_rankings_swapped
  /\ List.NoDup (keys uneven_rankings)
  /\ compute_kendalls_w uneven_rankings == 3 # 4
  /\ compute_kendalls_w uneven_rankings_swapped == 0
  /\ ~ compute_kendalls_w uneven_rankings
       == compute_kendalls_w uneven_rankings_swapped.
Proof.
  repeat split.
  - apply perm_swap.
  - unfold uneven_rankings. simpl.
    constructor; [simpl; intros [H|[]]; discriminate H|].
    constructor; [simpl; tauto|constructor].
  - vm_compute. discriminate.
Qed.

End KendallFacts.

(** ** Bradley-Terry scores *)

Module BradleyTerryFacts.
Import PyDict Evaluation.

Lemma collect_responses_none (comparisons : list gathered) (acc : list string) :
  Forall (fun c => is_comparison c = false) comparisons ->
  fold_left
    (fun responses c =>
       match c with
       | Comparison c => set_add (set_add responses (response_a c)) (response_b c)
       | NotComparison _ => responses
       end)
    comparisons acc = acc.
Proof.
  induction 1 as [|c cs Hc _ IH]; simpl; [reflexivity|].
  destruct c as [c|what]; [discriminate Hc|exact IH].
Qed.

(** C10: a comparison list in which no entry is a comparison (the empty list
    among them) mentions no response, and the result is the empty score map,
    without an error. *)
Theorem bradley_terry_no_responses (comparisons : list gathered) :
  Forall (fun c => is_comparison c = false) comparisons ->
  collect_responses comparisons = []
  /\ bradley_terry_scores comparisons = Ok empty.
Proof.
  intros H. unfold bradley_terry_scores, collect_responses.
  rewrite (collect_responses_none comparisons [] H). split; reflexivity.
Qed.

Lemma bradley_terry_no_responses_witness :
  bradley_terry_scores [] = Ok empty
  /\ bradley_terry_scores [NotComparison "TimeoutError"] = Ok empty.
Proof.
  split.
  - apply (bradley_terry_no_responses []). constructor.
  - apply (bradley_terry_no_responses [NotComparison "TimeoutError"]).
    repeat constructor.
Defined.

(** *** The response list does not depend on the insertion order *)

Lemma insert_sorted_gtb x y l :
  insert_sorted x (y :: l)
  = if gtb x y then y :: insert_sorted x l else x :: y :: l.
Proof. unfold gtb. simpl. now destruct (String.compare x y). Qed.

Lemma gtb_asym x y : gtb x y = true -> gtb y x = false.
Proof.
  unfold gtb. rewrite (String.compare_antisym x y).
  now destruct (String.compare y x).
Qed.

Lemma gtb_total x y : gtb x y = false -> gtb y x = false -> x = y.
Proof.
  unfold gtb. rewrite (String.compare_antisym x y).
  destruct (String.compare y x) eqn:E; simpl; try discriminate.
  intros _ _. symmetry. now apply String.compare_eq_iff.
Qed.

Lemma gtb_lt x y : gtb x y = true <-> String_as_OT.lt y x.
Proof.
  rewrite <- String_as_OT.cmp_lt. unfold gtb, String_as_OT.cmp.
  rewrite (String.compare_antisym y x).
  destruct (String.compare x y); simpl; split; congruence.
Qed.

Lemma gtb_trans x y z : gtb y z = true -> gtb x z = false -> gtb y x = true.
Proof.
  intros Hyz Hxz. destruct (gtb y x) eqn:Hyx; [reflexivity|exfalso].
  destruct (gtb x y) eqn:Hxy.
  - apply gtb_lt in Hyz, Hxy.
    pose proof (String_as_OT.lt_trans _ _ _ Hyz Hxy) as H.
    apply gtb_lt in H. congruence.
  - rewrite (gtb_total _ _ Hxy Hyx) in Hxz. congruence.
Qed.

Lemma insert_sorted_comm x y l :
  insert_sorted x (insert_sorted y l) = insert_sorted y (insert_sorted x l).
Proof.
  induction l as [|z l IH].
  - change (insert_sorted y []) with [y].
    change (insert_sorted x []) with [x].
    rewrite !insert_sorted_gtb.
    destruct (gtb x y) eqn:Hxy, (gtb y x) eqn:Hyx; try reflexivity.
    + apply gtb_asym in Hxy. congruence.
    + now rewrite (gtb_total _ _ Hxy Hyx).
  - rewrite !(insert_sorted_gtb _ z).
    destruct (gtb y z) eqn:Hyz, (gtb x z) eqn:Hxz;
      rewrite !insert_sorted_gtb, ?Hyz, ?Hxz.
    + now rewrite IH.
    + now rewrite (gtb_trans _ _ _ Hyz Hxz).
    + now rewrite (gtb_trans _ _ _ Hxz Hyz).
    + destruct (gtb x y) eqn:Hxy, (gtb y x) eqn:Hyx;
        rewrite ?insert_sorted_gtb, ?Hyz, ?Hxz; try reflexivity.
      * apply gtb_asym in Hxy. congruence.
      * now rewrite (gtb_total _ _ Hxy Hyx).
Qed.

Lemma sorted_perm l l' : Permutation l l' -> sorted l = sorted l'.
Proof.
  induction 1 as [|x l l' _ IH|x y l|l l' l'' _ IH1 _ IH2]; simpl.
  - reflexivity.
  - now rewrite IH.
  - apply insert_sorted_comm.
  - congruence.
Qed.

Lemma insert_sorted_perm x l : Permutation (insert_sorted x l) (x :: l).
Proof.
  induction l as [|y l IH]; [reflexivity|].
  rewrite insert_sorted_gtb. destruct (gtb x y); [|reflexivity].
  rewrite IH. apply perm_swap.
Qed.

Lemma sorted_is_perm l : Permutation (sorted l) l.
Proof.
  induction l as [|x l IH]; simpl; [reflexivity|].
  rewrite insert_sorted_perm. now apply perm_skip.
Qed.

Lemma set_add_In s x y : In y (set_add s x) <-> In y s \/ y = x.
Proof.
  unfold set_add. destruct (existsb (String.eqb x) s) eqn:E.
  - apply existsb_exists in E as (z & Hz & Ez). apply String.eqb_eq in Ez.
    subst z. split; [now left|]. intros [H| ->]; assumption.
  - rewrite in_app_iff. simpl. intuition congruence.
Qed.

Lemma set_add_NoDup s x : List.NoDup s -> List.NoDup (set_add s x).
Proof.
  intros Hs. unfold set_add. destruct (existsb (String.eqb x) s) eqn:E;
    [exact Hs|].
  apply List.NoDup_app; [exact Hs|constructor; [intros []|constructor]|].
  intros y Hy [<-|[]].
  assert (existsb (String.eqb x) s = true); [|congruence].
  apply existsb_exists. exists x. split; [exact Hy|apply String.eqb_refl].
Qed.

Lemma collect_loop_In cs acc x :
  In x (fold_left
          (fun responses c =>
             match c with
             | Comparison c =>
                 set_add (set_add responses (response_a c)) (response_b c)
             | NotComparison _ => responses
             end) cs acc)
  <-> In x acc \/ exists c, In c cs /\ mentions c x.
Proof.
  revert acc. induction cs as [|c cs IH]; intros acc; simpl.
  - split; [now left|]. intros [H|(c & [] & _)]. exact H.
  - rewrite IH. destruct c as [c|what].
    + rewrite !set_add_In. split.
      * intros [[[H|H]|H]|(c' & Hc' & Hm)]; auto.
        -- right. exists (Comparison c). split; [now left|now left].
        -- right. exists (Comparison c). split; [now left|now right].
        -- right. exists c'. split; [now right|exact Hm].
      * intros [H|(c' & [<-|Hc'] & Hm)]; auto.
        -- destruct Hm as [->| ->]; auto.
        -- right. now exists c'.
    + split.
      * intros [H|(c' & Hc' & Hm)]; auto. right. exists c'. auto.
      * intros [H|(c' & [<-|Hc'] & Hm)]; auto; [contradiction|].
        right. now exists c'.
Qed.

Lemma collect_loop_NoDup cs acc :
  List.NoDup acc ->
  List.NoDup (fold_left
                (fun responses c =>
                   match c with
                   | Comparison c =>
                       set_add (set_add responses (response_a c))
                               (response_b c)
                   | NotComparison _ => responses
                   end) cs acc).
Proof.
  revert acc. induction cs as [|c cs IH]; intros acc Hacc; simpl; [exact Hacc|].
  apply IH. destruct c as [c|what]; [|exact Hacc].
  now apply set_add_NoDup, set_add_NoDup.
Qed.

Lemma collect_responses_In cs x :
  In x (collect_responses cs) <-> exists c, In c cs /\ mentions c x.
Proof.
  unfold collect_responses. rewrite collect_loop_In. simpl. tauto.
Qed.

Lemma collect_responses_perm cs cs' :
  Permutation cs cs' ->
  Permutation (collect_responses cs) (collect_responses cs').
Proof.
  intros Hp. apply Permutation.NoDup_Permutation.
  - apply collect_loop_NoDup. constructor.
  - apply collect_loop_NoDup. constructor.
  - intros x. rewrite !collect_responses_In.
    split; intros (c & Hc & Hm); exists c; split; try exact Hm.
    + now apply (Permutation_in _ Hp).
    + now apply (Permutation_in _ (Permutation_sym Hp)).
Qed.

(** *** The win table as a function of the comparisons *)

Lemma get_table {V} (g : string -> V) (rs : list string) (a : string) :
  In a rs -> get (map (fun r => (r, g r)) rs) a = Some (g a).
Proof.
  induction rs as [|r rs IH]; simpl; [contradiction|].
  intros H. destruct (String.eqb_spec r a) as [->|Hne]; [reflexivity|].
  destruct H as [H|H]; [contradiction|now apply IH].
Qed.

Lemma set_table {V} (g : string -> V) (rs : list string) (b : string) (v : V) :
  List.NoDup rs -> In b rs ->
  set (map (fun s => (s, g s)) rs) b v
  = map (fun s => (s, if String.eqb s b then v else g s)) rs.
Proof.
  induction rs as [|r rs IH]; simpl; [contradiction|].
  intros Hnd Hin. inversion Hnd as [|? ? Hnotin Hnd']; subst.
  destruct (String.eqb_spec r b) as [->|Hne].
  - f_equal. apply map_ext_in. intros s Hs.
    destruct (String.eqb_spec s b) as [->|_]; [contradiction|reflexivity].
  - f_equal. destruct Hin as [Hin|Hin]; [contradiction|now apply IH].
Qed.

Lemma get_wins_row rs f a :
  In a rs ->
  get (wins_table rs f) a = Some (map (fun s => (s, f a s)) rs).
Proof.
  intros Ha.
  exact (get_table (fun r => map (fun s => (s, f r s)) rs) rs a Ha).
Qed.

Lemma wins_get_table rs f a b :
  In a rs -> In b rs -> wins_get (wins_table rs f) a b = f a b.
Proof.
  intros Ha Hb. unfold wins_get, get_default.
  rewrite (get_wins_row rs f a Ha).
  now rewrite (get_table (f a) rs b Hb).
Qed.

Lemma wins_row_table rs f a :
  In a rs ->
  values (get_default (wins_table rs f) a empty) = map (f a) rs.
Proof.
  intros Ha. unfold get_default, values.
  rewrite (get_wins_row rs f a Ha).
  now rewrite map_map.
Qed.

Lemma set_wins_row rs f a (row : dict Q) :
  List.NoDup rs -> In a rs ->
  set (wins_table rs f) a row
  = map (fun r => (r, if String.eqb r a then row
                      else map (fun s => (s, f r s)) rs)) rs.
Proof.
  intros Hnd Ha.
  exact (set_table (fun r => map (fun s => (s, f r s)) rs) rs a row Hnd Ha).
Qed.

Lemma wins_add_table rs f a b x :
  List.NoDup rs -> In a rs -> In b rs ->
  wins_add (wins_table rs f) a b x = wins_table rs (bump f a b x).
Proof.
  intros Hnd Ha Hb. unfold wins_add, get_default.
  rewrite (get_wins_row rs f a Ha).
  rewrite (get_table (f a) rs b Hb).
  rewrite (set_table (f a) rs b _ Hnd Hb).
  rewrite (set_wins_row rs f a _ Hnd Ha).
  unfold wins_table. apply map_ext. intros r. f_equal. unfold bump.
  destruct (String.eqb_spec r a) as [->|Hne]; simpl.
  - apply map_ext. intros s. now destruct (String.eqb_spec s b) as [->|_].
  - reflexivity.
Qed.

Lemma count_loop_table rs cs f :
  List.NoDup rs ->
  (forall c x, In c cs -> mentions c x -> In x rs) ->
  fold_left
    (fun wins c =>
       match c with
       | NotComparison _ => wins
       | Comparison c =>
           match winner c with
           | WinA => wins_add wins (response_a c) (response_b c) (confidence c)
           | WinB => wins_add wins (response_b c) (response_a c) (confidence c)
           | WinTie =>
               let wins :=
                 wins_add wins (response_a c) (response_b c)
                          (0.5 * confidence c)%Q in
               wins_add wins (response_b c) (response_a c)
                        (0.5 * confidence c)%Q
           end
       end)
    cs (wins_table rs f)
  = wins_table rs (fold_left tally cs f).
Proof.
  intros Hnd. revert f. induction cs as [|c cs IH]; intros f Hin;
    [reflexivity|].
  cbn [fold_left].
  assert (Hrest : forall c' x, In c' cs -> mentions c' x -> In x rs).
  { intros c' x Hc'. apply Hin. now right. }
  destruct c as [c|what]; [|now apply IH].
  assert (Ha : In (response_a c) rs).
  { apply (Hin (Comparison c)); [now left|now left]. }
  assert (Hb : In (response_b c) rs).
  { apply (Hin (Comparison c)); [now left|now right]. }
  unfold tally at 2. destruct (winner c);
    rewrite ?wins_add_table by assumption; now apply IH.
Qed.

Lemma count_wins_table rs cs :
  List.NoDup rs ->
  (forall c x, In c cs -> mentions c x -> In x rs) ->
  count_wins rs cs = wins_table rs (fold_left tally cs no_wins).
Proof. intros Hnd Hin. now apply count_loop_table. Qed.

Lemma tally_contribution f c r s :
  tally f c r s == f r s + tally no_wins c r s.
Proof.
  destruct c as [c|what]; simpl; [|unfold no_wins; ring].
  destruct (winner c); unfold bump, no_wins;
    repeat destruct (_ && _); ring.
Qed.

Lemma tally_fold cs f r s :
  fold_left tally cs f r s
  == f r s + Qsum (map (fun c => tally no_wins c r s) cs).
Proof.
  revert f. induction cs as [|c cs IH]; intros f; cbn [fold_left map].
  - unfold Qsum. simpl. ring.
  - rewrite IH, Qsum_cons, tally_contribution. ring.
Qed.

Lemma tallies_perm cs cs' r s :
  Permutation cs cs' ->
  fold_left tally cs no_wins r s == fold_left tally cs' no_wins r s.
Proof.
  intros Hp. rewrite !tally_fold.
  apply Qplus_comp; [reflexivity|].
  apply Qsum_perm. now apply Permutation_map.
Qed.

(** *** The iteration respects equality of rationals *)

Lemma div_compat a a' b b' :
  a == a' -> b == b' -> value_equiv (div a b) (div a' b').
Proof.
  intros Ea Eb. unfold div.
  destruct (Qeq_bool b 0) eqn:E, (Qeq_bool b' 0) eqn:E'; simpl; trivial.
  - apply Qeq_bool_iff in E. apply Qeq_bool_neq in E'.
    apply E'. now rewrite <- Eb.
  - apply Qeq_bool_iff in E'. apply Qeq_bool_neq in E.
    apply E. now rewrite Eb.
  - now rewrite Ea, Eb.
Qed.

Lemma dict_equiv_refl d : dict_equiv d d.
Proof.
  induction d as [|e d IH]; constructor; [now split|exact IH].
Qed.

Lemma get_default_equiv d d' k :
  dict_equiv d d' -> get_default d k 0%Q == get_default d' k 0%Q.
Proof.
  unfold get_default.
  induction 1 as [|[k1 v1] [k2 v2] d d' [Hk Hv] _ IH]; simpl in *;
    [reflexivity|].
  subst k2. destruct (String.eqb k1 k); [exact Hv|exact IH].
Qed.

Lemma set_equiv d d' k x x' :
  dict_equiv d d' -> x == x' -> dict_equiv (set d k x) (set d' k x').
Proof.
  intros Hd Hx.
  induction Hd as [|[k1 v1] [k2 v2] d d' [Hk Hv] Hd IH]; simpl in *.
  - constructor; [now split|constructor].
  - subst k2. destruct (String.eqb k1 k).
    + constructor; [now split|exact Hd].
    + constructor; [now split|exact IH].
Qed.

Lemma values_sum_equiv d d' :
  dict_equiv d d' -> Qsum (values d) == Qsum (values d').
Proof.
  unfold values.
  induction 1 as [|[k1 v1] [k2 v2] d d' [Hk Hv] _ IH]; simpl in *;
    [reflexivity|].
  now rewrite !Qsum_cons, Hv, IH.
Qed.

Lemma Qsum_pointwise {A} (f g : A -> Q) (l : list A) :
  (forall x, f x == g x) -> Qsum (map f l) == Qsum (map g l).
Proof.
  intros H. induction l as [|x l IH]; simpl; [reflexivity|].
  now rewrite !Qsum_cons, H, IH.
Qed.

Section Compat.
Variable rs : list string.
Variables f f' : string -> string -> Q.
Hypothesis same_wins : forall r s, f r s == f' r s.

Lemma bt_denominator_loop_compat scores scores' r items acc acc' :
  dict_equiv scores scores' ->
  In r rs -> (forall s, In s items -> In s rs) ->
  value_equiv acc acc' ->
  value_equiv
    (fold_left
       (fun acc s =>
          if String.eqb s r then acc
          else
            try! a := acc in
            try! t := div (wins_get (wins_table rs f) r s
                           + wins_get (wins_table rs f) s r)%Q
                          (get_default scores r 0
                           + get_default scores s 0)%Q in
            Ok (a + t)%Q)
       items acc)
    (fold_left
       (fun acc s =>
          if String.eqb s r then acc
          else
            try! a := acc in
            try! t := div (wins_get (wins_table rs f') r s
                           + wins_get (wins_table rs f') s r)%Q
                          (get_default scores' r 0
                           + get_default scores' s 0)%Q in
            Ok (a + t)%Q)
       items acc').
Proof.
  intros Hsc Hr. revert acc acc'.
  induction items as [|s items IH]; intros acc acc' Hin Hacc;
    cbn [fold_left]; [exact Hacc|].
  apply IH; [intros s' Hs'; apply Hin; now right|].
  destruct (String.eqb s r); [exact Hacc|].
  assert (Hs : In s rs) by (apply Hin; now left).
  destruct acc as [a|], acc' as [a'|]; simpl in Hacc |- *; trivial;
    try contradiction.
  rewrite !wins_get_table by assumption.
  assert (Hd : value_equiv
                 (div (f r s + f s r)%Q
                      (get_default scores r 0 + get_default scores s 0)%Q)
                 (div (f' r s + f' s r)%Q
                      (get_default scores' r 0 + get_default scores' s 0)%Q)).
  { apply div_compat.
    - now rewrite !same_wins.
    - now rewrite !(get_default_equiv _ _ _ Hsc). }
  destruct (div (f r s + f s r)%Q _) as [t|],
           (div (f' r s + f' s r)%Q _) as [t'|];
    simpl in Hd |- *; trivial; try contradiction.
  now rewrite Hacc, Hd.
Qed.

Lemma bt_denominator_compat scores scores' r :
  dict_equiv scores scores' -> In r rs ->
  value_equiv (bt_denominator (wins_table rs f) scores rs r)
              (bt_denominator (wins_table rs f') scores' rs r).
Proof.
  intros Hsc Hr. unfold bt_denominator.
  apply bt_denominator_loop_compat; auto. simpl. reflexivity.
Qed.

Lemma bt_new_scores_loop_compat scores scores' items acc acc' :
  dict_equiv scores scores' ->
  (forall r, In r items -> In r rs) ->
  result_equiv acc acc' ->
  result_equiv
    (fold_left
       (fun acc r =>
          try! new_scores := acc in
          let numerator :=
            Qsum (values (get_default (wins_table rs f) r empty)) in
          try! denominator :=
            bt_denominator (wins_table rs f) scores rs r in
          try! x := div numerator (py_max denominator 0.001%Q) in
          Ok (set new_scores r x))
       items acc)
    (fold_left
       (fun acc r =>
          try! new_scores := acc in
          let numerator :=
            Qsum (values (get_default (wins_table rs f') r empty)) in
          try! denominator :=
            bt_denominator (wins_table rs f') scores' rs r in
          try! x := div numerator (py_max denominator 0.001%Q) in
          Ok (set new_scores r x))
       items acc').
Proof.
  intros Hsc. revert acc acc'.
  induction items as [|r items IH]; intros acc acc' Hin Hacc;
    cbn [fold_left]; [exact Hacc|].
  apply IH; [intros r' Hr'; apply Hin; now right|].
  assert (Hr : In r rs) by (apply Hin; now left).
  destruct acc as [ns|], acc' as [ns'|]; simpl in Hacc |- *; trivial;
    try contradiction.
  pose proof (bt_denominator_compat scores scores' r Hsc Hr) as Hden.
  destruct (bt_denominator (wins_table rs f) scores rs r) as [d|],
           (bt_denominator (wins_table rs f') scores' rs r) as [d'|];
    simpl in Hden |- *; trivial; try contradiction.
  rewrite !wins_row_table by assumption.
  pose proof (div_compat (Qsum (map (f r) rs)) (Qsum (map (f' r) rs))
                (py_max d 0.001%Q) (py_max d' 0.001%Q)
                (Qsum_pointwise _ _ _ (same_wins r))
                (py_max_compat _ _ _ Hden)) as Hdiv.
  destruct (div (Qsum (map (f r) rs)) _) as [x|],
           (div (Qsum (map (f' r) rs)) _) as [x'|];
    simpl in Hdiv |- *; trivial; try contradiction.
  now apply set_equiv.
Qed.

Lemma bt_normalize_compat ns ns' total total' :
  dict_equiv ns ns' -> total == total' ->
  result_equiv (bt_normalize ns total) (bt_normalize ns' total').
Proof.
  intros Hns Ht.
  induction Hns as [|[k1 v1] [k2 v2] ns ns' [Hk Hv] Hns IH]; simpl in *;
    [constructor|].
  subst k2. pose proof (div_compat v1 v2 total total' Hv Ht) as Hd.
  destruct (div v1 total) as [x|], (div v2 total') as [x'|];
    simpl in Hd |- *; trivial; try contradiction.
  destruct (bt_normalize ns total) as [rest|],
           (bt_normalize ns' total') as [rest'|];
    simpl in IH |- *; trivial; try contradiction.
  constructor; [now split|exact IH].
Qed.

Lemma bt_step_compat scores scores' :
  dict_equiv scores scores' ->
  result_equiv (bt_step (wins_table rs f) rs scores)
               (bt_step (wins_table rs f') rs scores').
Proof.
  intros Hsc. unfold bt_step, bt_new_scores.
  pose proof (bt_new_scores_loop_compat scores scores' rs (Ok empty)
                (Ok empty) Hsc (fun r H => H) (dict_equiv_refl empty)) as Hns.
  destruct (fold_left _ rs (Ok empty)) as [ns|],
           (fold_left _ rs (Ok empty)) as [ns'|];
    simpl in Hns |- *; trivial; try contradiction.
  apply bt_normalize_compat; [exact Hns|now apply values_sum_equiv].
Qed.

Lemma bt_iterate_compat n scores scores' :
  dict_equiv scores scores' ->
  result_equiv (bt_iterate n (wins_table rs f) rs scores)
               (bt_iterate n (wins_table rs f') rs scores').
Proof.
  revert scores scores'. induction n as [|n IH]; intros scores scores' Hsc;
    simpl; [exact Hsc|].
  pose proof (bt_step_compat scores scores' Hsc) as Hstep.
  destruct (bt_step (wins_table rs f) rs scores) as [s1|],
           (bt_step (wins_table rs f') rs scores') as [s2|];
    simpl in Hstep |- *; trivial; try contradiction.
  now apply IH.
Qed.
End Compat.

(** In exact arithmetic the outcome does not depend on the order of the
    comparison list: both orders raise, or both return the same scores. *)
Lemma bradley_terry_insertion_order cs cs' :
  Permutation cs cs' ->
  result_equiv (bradley_terry_scores cs) (bradley_terry_scores cs').
Proof.
  intros Hp. unfold bradley_terry_scores.
  pose proof (collect_responses_perm cs cs' Hp) as Hrs.
  pose proof (sorted_perm _ _ Hrs) as Hsorted.
  destruct (collect_responses cs) as [|r0 rs0] eqn:E,
           (collect_responses cs') as [|r0' rs0'] eqn:E'.
  - constructor.
  - apply Permutation_nil in Hrs. discriminate.
  - apply Permutation_sym, Permutation_nil in Hrs. discriminate.
  - rewrite <- Hsorted. set (rs := sorted (r0 :: rs0)).
    assert (Hnd : List.NoDup rs).
    { apply (Permutation.Permutation_NoDup
               (Permutation_sym (sorted_is_perm (r0 :: rs0)))).
      rewrite <- E. apply collect_loop_NoDup. constructor. }
    assert (Hin : forall c x, In c cs -> mentions c x -> In x rs).
    { intros c x Hc Hm.
      apply (Permutation_in _ (Permutation_sym (sorted_is_perm (r0 :: rs0)))).
      rewrite <- E. apply collect_responses_In. now exists c. }
    assert (Hin' : forall c x, In c cs' -> mentions c x -> In x rs).
    { intros c x Hc Hm. apply (Hin c x); [|exact Hm].
      now apply (Permutation_in _ (Permutation_sym Hp)). }
    rewrite (count_wins_table rs cs Hnd Hin).
    rewrite (count_wins_table rs cs' Hnd Hin').
    apply bt_iterate_compat.
    + intros r s. now apply tallies_perm.
    + apply dict_equiv_refl.
Qed.

Lemma div_Ok (a b x : Q) : div a b = Ok x -> ~ b == 0 /\ x = (a / b)%Q.
Proof.
  unfold div. destruct (Qeq_bool b 0) eqn:E; [discriminate|].
  intros [= <-]. split; [|reflexivity].
  now apply Qeq_bool_neq.
Qed.

Lemma bt_normalize_sum (new_scores scores : dict Q) (total : Q) :
  bt_normalize new_scores total = Ok scores ->
  Qsum (values scores) == Qsum (values new_scores) / total.
Proof.
  revert scores.
  induction new_scores as [|[r s] rest IH]; intros scores; simpl.
  - intros [= <-]. unfold Qsum; simpl. unfold Qdiv. ring.
  - destruct (div s total) as [x|] eqn:Ex; simpl; [|discriminate].
    destruct (bt_normalize rest total) as [rest'|] eqn:Er; simpl;
      [|discriminate].
    intros [= <-]. apply div_Ok in Ex as [Ht ->].
    unfold values in *. simpl. rewrite !Qsum_cons, (IH rest' eq_refl).
    now field.
Qed.

Lemma bt_normalize_total (new_scores scores : dict Q) (total : Q) :
  new_scores <> [] ->
  bt_normalize new_scores total = Ok scores -> ~ total == 0.
Proof.
  destruct new_scores as [|[r s] rest]; [congruence|]. intros _. simpl.
  destruct (div s total) as [x|] eqn:Ex; simpl; [|discriminate].
  intros _. now apply div_Ok in Ex as [Ht _].
Qed.

Lemma set_not_empty {V} (d : dict V) (k : string) (v : V) : set d k v <> [].
Proof.
  destruct d as [|[k' v'] d]; simpl; [discriminate|].
  destruct (String.eqb k' k); discriminate.
Qed.

(** A pass over a non-empty response list fills [new_scores]. *)
Lemma bt_new_scores_not_empty wins scores responses rs acc ns :
  fold_left
    (fun acc r =>
       try! new_scores := acc in
       let numerator := Qsum (values (get_default wins r empty)) in
       try! denominator := bt_denominator wins scores responses r in
       try! x := div numerator (py_max denominator 0.001%Q) in
       Ok (set new_scores r x))
    rs acc = Ok ns ->
  rs <> [] \/ (exists a, acc = Ok a /\ a <> []) ->
  ns <> [].
Proof.
  revert acc. induction rs as [|r rs IH]; intros acc; simpl.
  - intros -> [H|(a & [= <-] & Ha)]; [congruence|exact Ha].
  - intros Hfold _. apply (IH _ Hfold). right.
    destruct acc as [a|]; simpl in *.
    + destruct (bt_denominator wins scores responses r) as [d|]; simpl in *.
      * destruct (div _ _) as [x|]; simpl in *.
        -- eexists. split; [reflexivity|apply set_not_empty].
        -- exfalso. clear IH. induction rs; simpl in Hfold;
             [discriminate|auto].
      * exfalso. clear IH. induction rs; simpl in Hfold; [discriminate|auto].
    + exfalso. clear IH. induction rs; simpl in Hfold; [discriminate|auto].
Qed.

Lemma bt_step_sum_one wins responses prev scores :
  responses <> [] ->
  bt_step wins responses prev = Ok scores ->
  Qsum (values scores) == 1.
Proof.
  intros Hne. unfold bt_step.
  destruct (bt_new_scores wins prev responses) as [ns|] eqn:Ens; simpl;
    [|discriminate].
  intros Hn.
  assert (Hns : ns <> []).
  { unfold bt_new_scores in Ens.
    apply (bt_new_scores_not_empty _ _ _ _ _ _ Ens). now left. }
  rewrite (bt_normalize_sum _ _ _ Hn).
  pose proof (bt_normalize_total _ _ _ Hns Hn) as Ht.
  now field.
Qed.

Lemma bt_iterate_last_step n wins responses start scores :
  bt_iterate (S n) wins responses start = Ok scores ->
  exists prev, bt_step wins responses prev = Ok scores.
Proof.
  revert start. induction n as [|n IH]; intros start.
  - simpl. destruct (bt_step wins responses start) as [s|] eqn:E; simpl;
      [|discriminate].
    intros [= <-]. now exists start.
  - change (bt_iterate (S (S n)) wins responses start)
      with (bind (bt_step wins responses start)
                 (fun s => bt_iterate (S n) wins responses s)).
    destruct (bt_step wins responses start) as [s|]; simpl; [|discriminate].
    apply IH.
Qed.

Lemma insert_sorted_not_empty x l : insert_sorted x l <> [].
Proof.
  destruct l as [|y l]; simpl; [discriminate|].
  destruct (String.compare x y); discriminate.
Qed.

Lemma sorted_not_empty l : l <> [] -> sorted l <> [].
Proof.
  destruct l as [|x l]; [congruence|]. intros _.
  apply insert_sorted_not_empty.
Qed.

(** In exact arithmetic, whenever scores for at least one response are
    returned, they sum to 1. *)
Lemma bradley_terry_sum_one_if_returned comparisons scores :
  collect_responses comparisons <> [] ->
  bradley_terry_scores comparisons = Ok scores ->
  Qsum (values scores) == 1.
Proof.
  intros Hne. unfold bradley_terry_scores.
  destruct (collect_responses comparisons) as [|r rs] eqn:E; [congruence|].
  intros H. apply bt_iterate_last_step in H as [prev H].
  apply (bt_step_sum_one _ _ _ _ (sorted_not_empty _ Hne) H).
Qed.

(** C2, at two inputs: the update divides by [scores[r] + scores[s]], which
    is zero once two responses have score zero, and the normalisation
    divides by [total], which is zero when no comparison carries weight.
    Both raise [ZeroDivisionError]: no scores are returned. *)
Theorem bradley_terry_zero_division :
  bradley_terry_scores two_losers = ZeroDivisionError
  /\ bradley_terry_scores zero_confidence = ZeroDivisionError.
Proof. split; vm_compute; reflexivity. Qed.

End BradleyTerryFacts.

(** ** Claim agreement *)

Module ClaimFacts.
Import Claims.

Lemma has_vote_total (c : ExtractedClaim) :
  (0 <? length (supporting_models c) + length (contradicting_models c))%nat
  = has_vote c.
Proof.
  unfold has_vote.
  destruct (supporting_models c), (contradicting_models c); reflexivity.
Qed.

(** The loop collects the ratios of the claims with a vote, in order. *)
Lemma agreement_scores_loop (claims : list ExtractedClaim) (acc : list Q) :
  fold_left
    (fun agreement_scores claim =>
       let n_support := length (supporting_models claim) in
       let n_contradict := length (contradicting_models claim) in
       let total := (n_support + n_contradict)%nat in
       if (0 <? total)%nat
       then agreement_scores
              ++ [(inject_Z (Z.of_nat n_support) / inject_Z (Z.of_nat total))%Q]
       else agreement_scores)
    claims acc
  = acc ++ map claim_ratio (List.filter has_vote claims).
Proof.
  revert acc. induction claims as [|c claims IH]; intros acc; simpl.
  - now rewrite app_nil_r.
  - rewrite IH, has_vote_total. destruct (has_vote c); simpl; [|reflexivity].
    now rewrite <- app_assoc.
Qed.

Lemma compute_claim_agreement_eq (claims : list ExtractedClaim) :
  compute_claim_agreement claims
  = match List.filter has_vote claims with
    | [] => 1%Q
    | _ => mean_over_voted claims
    end.
Proof.
  unfold compute_claim_agreement, mean_over_voted.
  destruct claims as [|c claims]; [reflexivity|].
  rewrite agreement_scores_loop, app_nil_l.
  generalize (List.filter has_vote (c :: claims)). intros [|v voted];
    [reflexivity|].
  now rewrite length_map.
Qed.

(** C9: the agreement of the empty claim list is 1; when some claim has a
    vote, the agreement is the mean of supports / (supports + contradicts)
    over exactly the claims with a vote; when no claim has one, it is 1. *)
Theorem claim_agreement_is_mean_over_voted :
  compute_claim_agreement [] = 1%Q
  /\ (forall claims,
        List.filter has_vote claims <> [] ->
        compute_claim_agreement claims = mean_over_voted claims)
  /\ (forall claims,
        List.filter has_vote claims = [] ->
        compute_claim_agreement claims = 1%Q).
Proof.
  split; [reflexivity|]. split; intros claims H;
    rewrite compute_claim_agreement_eq;
    destruct (List.filter has_vote claims); congruence.
Qed.

Lemma claim_agreement_is_mean_over_voted_witness :
  compute_claim_agreement sample_claims = mean_over_voted sample_claims
  /\ compute_claim_agreement sample_claims == 2 # 3
  /\ compute_claim_agreement [mk_claim "no opinion" [] []] = 1%Q.
Proof.
  destruct claim_agreement_is_mean_over_voted as (_ & Hmean & Hnone).
  split; [|split].
  - apply Hmean. discriminate.
  - rewrite Hmean by discriminate. reflexivity.
  - apply Hnone. reflexivity.
Defined.

End ClaimFacts.

(** ** Fan-out with a quorum *)

Module FanOutFacts.
Import Resilience.

Section WithValues.
Context {A : Type}.
Implicit Types (workers : list (string * worker_run A)).

(** The classification loop, from any accumulator. *)
Lemma classify_loop workers (successful : list A) (failed errs : list string) :
  fold_left
    (fun '(successful, failed, errs) '(m, result) =>
       match result with
       | inr e => (successful, failed ++ [m], errs ++ [mqe_str e])
       | inl v => (successful ++ [v], failed, errs)
       end)
    (combine (map fst workers)
             (map (fun '(m, run) => query_with_timeout m run) workers))
    (successful, failed, errs)
  = (successful ++ successes_of workers,
     failed ++ failed_ids_of workers,
     errs ++ error_texts_of workers).
Proof.
  revert successful failed errs.
  induction workers as [|[m run] workers IH]; intros successful failed errs.
  - simpl. now rewrite !app_nil_r.
  - simpl combine. simpl fold_left. destruct run as [v| |msg]; simpl;
      rewrite IH; unfold failed_ids_of; simpl;
      now rewrite <- ?app_assoc.
Qed.

Lemma resilient_parallel_query_eq workers min_required allow_partial :
  resilient_parallel_query workers min_required allow_partial
  = if (Z.of_nat (length (successes_of workers)) <? min_required)
       && negb allow_partial
    then inr {| required := min_required;
                received := Z.of_nat (length (successes_of workers));
                errors := error_texts_of workers |}
    else inl (successes_of workers, failed_ids_of workers).
Proof.
  unfold resilient_parallel_query. now rewrite classify_loop.
Qed.

(** C4: with fewer successes than [min_required] and partial results
    disallowed, the call raises [InsufficientResponsesError] with the
    required count, the number of successes and the error texts; in every
    other case it returns the successes in input order with the ids of the
    failed workers. *)
Theorem resilient_parallel_query_quorum workers min_required allow_partial :
  (Z.of_nat (length (successes_of workers)) < min_required ->
   allow_partial = false ->
   resilient_parallel_query workers min_required allow_partial
   = inr {| required := min_required;
            received := Z.of_nat (length (successes_of workers));
            errors := error_texts_of workers |})
  /\ (min_required <= Z.of_nat (length (successes_of workers))
      \/ allow_partial = true ->
      resilient_parallel_query workers min_required allow_partial
      = inl (successes_of workers, failed_ids_of workers)).
Proof.
  rewrite resilient_parallel_query_eq. split.
  - intros Hlt ->. apply Z.ltb_lt in Hlt. now rewrite Hlt.
  - intros [Hge| ->].
    + apply Z.ltb_ge in Hge. now rewrite Hge.
    + now rewrite andb_false_r.
Qed.
End WithValues.

Lemma resilient_parallel_query_quorum_witness :
  resilient_parallel_query four_workers 2 true = inl (["r2"; "r4"], ["w1"; "w3"])
  /\ resilient_parallel_query four_workers 3 true
     = inl (["r2"; "r4"], ["w1"; "w3"])
  /\ resilient_parallel_query four_workers 3 false
     = inr {| required := 3; received := 2;
              errors := ["w1: Timeout"; "w3: Timeout"] |}.
Proof.
  split; [|split].
  - apply (proj2 (resilient_parallel_query_quorum four_workers 2 true)).
    left. simpl. lia.
  - apply (proj2 (resilient_parallel_query_quorum four_workers 3 true)).
    right. reflexivity.
  - apply (proj1 (resilient_parallel_query_quorum four_workers 3 false)).
    + simpl. lia.
    + reflexivity.
Defined.

End FanOutFacts.

(** ** Retry *)

Module RetryFacts.
Import Resilience.

Section WithOperation.
Context {World A E : Type}.
Variable coro_factory : World -> outcome A E * World.
Variable max_retries : Z.
Variable base_delay : Q.
Variable exponential : bool.

Abbreviation loop :=
  (retry_loop coro_factory max_retries base_delay exponential).
Abbreviation delay := (delay_value base_delay exponential).
Abbreviation at_ := (outcome_at coro_factory).
Abbreviation after := (world_after coro_factory).

Lemma retry_loop_S remaining attempt last (w : World) log :
  loop (S remaining) attempt last w log
  = match coro_factory w with
    | (Returned a, w') => (RetryReturn a, w', log ++ [Invoke])
    | (Raised e, w') =>
        if attempt <? max_retries
        then
          match retry_delay base_delay exponential attempt with
          | Some d =>
              loop remaining (attempt + 1) (Some e) w'
                   ((log ++ [Invoke]) ++ [Sleep d])
          | None => (RetryOverflowError, w', log ++ [Invoke])
          end
        else loop remaining (attempt + 1) (Some e) w' (log ++ [Invoke])
    end.
Proof. reflexivity. Qed.

(** The delay can be computed for every attempt below 1024, and for every
    attempt when the back-off is constant. *)
Lemma retry_delay_computed (attempt : Z) :
  0 <= attempt ->
  (exponential = true -> attempt < 1024) ->
  retry_delay base_delay exponential attempt = Some (delay attempt).
Proof.
  intros H0 Hsmall. unfold retry_delay, backoff_factor.
  destruct exponential.
  - assert (H : 2 ^ attempt < 2 ^ 1024)
      by (apply Z.pow_lt_mono_r; [lia|lia|now apply Hsmall]).
    apply Z.leb_gt in H. now rewrite H.
  - assert (H : 1 < 2 ^ 1024) by (apply Z.pow_gt_1; lia).
    apply Z.leb_gt in H. now rewrite H.
Qed.

Lemma retry_delay_overflow (attempt : Z) :
  exponential = true -> 1024 <= attempt ->
  retry_delay base_delay exponential attempt = None.
Proof.
  intros -> Hbig. unfold retry_delay, backoff_factor.
  assert (H : 2 ^ 1024 <= 2 ^ attempt)
    by (apply Z.pow_le_mono_r; lia).
  apply Z.leb_le in H. now rewrite H.
Qed.

Lemma outcome_at_first (w : World) :
  coro_factory w = (at_ 0%nat w, after 1%nat w).
Proof. unfold outcome_at. simpl. now destruct (coro_factory w). Qed.

Lemma outcome_at_next (j : nat) (w : World) :
  at_ (S j) w = at_ j (after 1%nat w).
Proof. reflexivity. Qed.

(** The loop stops at the first invocation that returns. *)
Lemma retry_loop_returns (k : nat) :
  forall (remaining i : nat) (last : option E) (w : World)
         (log : list event) (a : A),
    (exponential = true -> max_retries <= 1024) ->
    (k < remaining)%nat ->
    Z.of_nat i + Z.of_nat remaining = max_retries + 1 ->
    (forall j, (j < k)%nat -> exists e, at_ j w = Raised e) ->
    at_ k w = Returned a ->
    loop remaining (Z.of_nat i) last w log
    = (RetryReturn a, after (S k) w,
       log ++ flat_map (fun j => [Invoke; Sleep (delay (Z.of_nat j))])
                       (seq i k) ++ [Invoke]).
Proof.
  induction k as [|k IH];
    intros remaining i last w log a Hrep Hk Hi Hfail Hret;
    (destruct remaining as [|remaining]; [lia|]); rewrite retry_loop_S;
    rewrite outcome_at_first.
  - rewrite Hret. reflexivity.
  - destruct (Hfail 0%nat ltac:(lia)) as [e He]. rewrite He.
    assert (Hlt : (Z.of_nat i <? max_retries) = true) by (apply Z.ltb_lt; lia).
    rewrite Hlt.
    rewrite retry_delay_computed; [|lia|intros Hx; apply Hrep in Hx; lia].
    replace (Z.of_nat i + 1) with (Z.of_nat (S i)) by lia.
    rewrite (IH remaining (S i) (Some e) _ _ a); try lia; try exact Hrep.
    + simpl. rewrite <- !app_assoc. reflexivity.
    + intros j Hj. rewrite <- outcome_at_next. apply Hfail. lia.
    + rewrite <- outcome_at_next. exact Hret.
Qed.

(** When every invocation raises, the loop runs out and the last error is
    raised again; no sleep follows the last attempt. *)
Lemma retry_loop_exhausted (n : nat) :
  forall (i : nat) (last : option E) (w : World) (log : list event) (e : E),
    (exponential = true -> max_retries <= 1024) ->
    Z.of_nat i + Z.of_nat (S n) = max_retries + 1 ->
    (forall j, (j < n)%nat -> exists e', at_ j w = Raised e') ->
    at_ n w = Raised e ->
    loop (S n) (Z.of_nat i) last w log
    = (RetryRaise e, after (S n) w,
       log ++ flat_map (fun j => [Invoke; Sleep (delay (Z.of_nat j))])
                       (seq i n) ++ [Invoke]).
Proof.
  induction n as [|n IH]; intros i last w log e Hrep Hi Hfail Hlast;
    rewrite retry_loop_S; rewrite outcome_at_first.
  - rewrite Hlast.
    assert (Hge : (Z.of_nat i <? max_retries) = false)
      by (apply Z.ltb_ge; lia).
    rewrite Hge. reflexivity.
  - destruct (Hfail 0%nat ltac:(lia)) as [e0 He0]. rewrite He0.
    assert (Hlt : (Z.of_nat i <? max_retries) = true) by (apply Z.ltb_lt; lia).
    rewrite Hlt.
    rewrite retry_delay_computed; [|lia|intros Hx; apply Hrep in Hx; lia].
    replace (Z.of_nat i + 1) with (Z.of_nat (S i)) by lia.
    rewrite (IH (S i) (Some e0) _ _ e); try lia; try exact Hrep.
    + simpl. rewrite <- !app_assoc. reflexivity.
    + intros j Hj. rewrite <- outcome_at_next. apply Hfail. lia.
    + rewrite <- outcome_at_next. exact Hlast.
Qed.

(** With exponential back-off and more than 1024 retries allowed, a loop
    whose first 1025 invocations raise ends in the [OverflowError] of the
    1025th delay. *)
Lemma retry_loop_overflows (n : nat) :
  forall (i : nat) (last : option E) (w : World) (log : list event),
    exponential = true ->
    1024 < max_retries ->
    Z.of_nat i + Z.of_nat n = 1024 ->
    (n < Z.to_nat max_retries + 1 - i)%nat ->
    (forall j, (j <= n)%nat -> exists e', at_ j w = Raised e') ->
    loop (Z.to_nat max_retries + 1 - i) (Z.of_nat i) last w log
    = (RetryOverflowError, after (S n) w,
       log ++ flat_map (fun j => [Invoke; Sleep (delay (Z.of_nat j))])
                       (seq i n) ++ [Invoke]).
Proof.
  induction n as [|n IH]; intros i last w log Hexp Hmax Hi Hrem Hfail.
  - destruct (Z.to_nat max_retries + 1 - i)%nat as [|remaining] eqn:Er;
      [lia|].
    rewrite retry_loop_S, outcome_at_first.
    destruct (Hfail 0%nat ltac:(lia)) as [e He]. rewrite He.
    assert (Hlt : (Z.of_nat i <? max_retries) = true) by (apply Z.ltb_lt; lia).
    rewrite Hlt, retry_delay_overflow; [|exact Hexp|lia].
    reflexivity.
  - destruct (Z.to_nat max_retries + 1 - i)%nat as [|remaining] eqn:Er;
      [lia|].
    rewrite retry_loop_S, outcome_at_first.
    destruct (Hfail 0%nat ltac:(lia)) as [e He]. rewrite He.
    assert (Hlt : (Z.of_nat i <? max_retries) = true) by (apply Z.ltb_lt; lia).
    rewrite Hlt.
    rewrite retry_delay_computed; [|lia|intros _; lia].
    replace (Z.of_nat i + 1) with (Z.of_nat (S i)) by lia.
    replace remaining with (Z.to_nat max_retries + 1 - S i)%nat by lia.
    rewrite (IH (S i) (Some e)); try assumption; try lia.
    + simpl. rewrite <- !app_assoc. reflexivity.
    + intros j Hj. rewrite <- outcome_at_next. apply Hfail. lia.
Qed.

(** Within the range where every delay is a finite float (with exponential
    back-off, [max_retries <= 1024]) and for [max_retries >= 0], the run is
    what the specification describes: the operation is invoked until it
    first returns, at most [max_retries] times beyond the first attempt,
    with a sleep of [base_delay * 2^attempt] (exponential) or [base_delay]
    (constant) after each failed attempt but the last; when all
    [max_retries + 1] attempts raise, the error of the last one is raised
    again. *)
Theorem with_retry_attempts (w : World) :
  0 <= max_retries ->
  delays_representable max_retries base_delay exponential ->
  (forall (k : nat) (a : A),
      (k <= Z.to_nat max_retries)%nat ->
      (forall j, (j < k)%nat -> exists e, at_ j w = Raised e) ->
      at_ k w = Returned a ->
      with_retry coro_factory max_retries base_delay exponential w
      = (RetryReturn a, after (S k) w,
         backoff_log base_delay exponential k))
  /\ (forall (e : E),
        (forall j, (j < Z.to_nat max_retries)%nat ->
                   exists e', at_ j w = Raised e') ->
        at_ (Z.to_nat max_retries) w = Raised e ->
        with_retry coro_factory max_retries base_delay exponential w
        = (RetryRaise e, after (S (Z.to_nat max_retries)) w,
           backoff_log base_delay exponential (Z.to_nat max_retries)))
  /\ (forall attempt : Z,
        0 <= attempt < max_retries ->
        retry_delay base_delay exponential attempt
        = Some (if exponential then (base_delay * inject_Z (2 ^ attempt))%Q
                else (base_delay * 1)%Q)).
Proof.
  intros Hmax Hrep.
  assert (Hsmall : exponential = true -> max_retries <= 1024)
    by (intros Hx; exact (proj1 (Hrep Hx))).
  unfold with_retry, backoff_log.
  replace (Z.to_nat (max_retries + 1)) with (S (Z.to_nat max_retries))
    by lia.
  split; [|split].
  - intros k a Hk Hfail Hret.
    exact (retry_loop_returns k (S (Z.to_nat max_retries)) 0%nat
             None w [] a Hsmall ltac:(lia) ltac:(lia) Hfail Hret).
  - intros e Hfail Hlast.
    exact (retry_loop_exhausted (Z.to_nat max_retries) 0%nat
             None w [] e Hsmall ltac:(lia) Hfail Hlast).
  - intros attempt Hat.
    rewrite retry_delay_computed; [|lia|intros Hx; apply Hsmall in Hx; lia].
    unfold delay_value, backoff_factor. now destruct exponential.
Qed.

(** X27. A negative [max_retries] leaves nothing to run: the operation is
    never invoked and [raise None] is a [TypeError]. *)
Lemma with_retry_negative (w : World) :
  max_retries < 0 ->
  with_retry coro_factory max_retries base_delay exponential w
  = (RetryTypeError, w, []).
Proof.
  intros H. unfold with_retry.
  replace (Z.to_nat (max_retries + 1)) with 0%nat by lia. reflexivity.
Qed.

(** C7 fails on the code beyond 1024 retries.  With exponential back-off
    (the default) and [max_retries > 1024], a run whose first 1025
    invocations raise does not go on to the remaining attempts and does
    not raise the last error of the operation again: after the 1025th
    failure the delay [base_delay * 2 ** 1024] is computed, the conversion
    of [2 ** 1024] to a float raises [OverflowError], and that error leaves
    [with_retry].  Up to there the run is as specified: 1025 invocations,
    each but the last followed by its sleep. *)
Theorem with_retry_overflows (w : World) :
  exponential = true ->
  1024 < max_retries ->
  (forall j, (j <= 1024)%nat -> exists e, at_ j w = Raised e) ->
  with_retry coro_factory max_retries base_delay exponential w
  = (RetryOverflowError, after 1025%nat w,
     backoff_log base_delay exponential 1024).
Proof.
  intros Hexp Hmax Hfail. unfold with_retry, backoff_log.
  replace (Z.to_nat (max_retries + 1))
    with (Z.to_nat max_retries + 1 - 0)%nat by lia.
  exact (retry_loop_overflows 1024 0%nat None w [] Hexp Hmax
           ltac:(lia) ltac:(lia) Hfail).
Qed.
End WithOperation.

Lemma with_retry_attempts_witness :
  with_retry flaky 2 1 true 0%nat
  = (RetryReturn 42, 3%nat, backoff_log 1 true 2)
  /\ with_retry always_down 2 1 false 0%nat
     = (RetryRaise 2%nat, 3%nat, backoff_log 1 false 2).
Proof.
  split.
  - apply (proj1 (with_retry_attempts flaky 2 1 true 0%nat ltac:(lia)
                    ltac:(intros _; split; [lia|vm_compute; discriminate]))
             2%nat 42).
    + simpl. lia.
    + intros j Hj. exists "unavailable".
      destruct j as [|[|j]]; [reflexivity|reflexivity|lia].
    + reflexivity.
  - apply (proj1 (proj2 (with_retry_attempts always_down 2 1 false 0%nat
                           ltac:(lia) ltac:(discriminate)))).
    + intros j Hj. simpl in Hj.
      destruct j as [|[|j]]; [now exists 0%nat|now exists 1%nat|lia].
    + reflexivity.
Defined.

(** The failing run: no delay between the attempts ([base_delay = 0.0]),
    1025 retries allowed, exponential back-off left at its default, and an
    operation that raises every time. *)
Lemma with_retry_overflows_witness :
  with_retry always_down 1025 0 true 0%nat
  = (RetryOverflowError, 1025%nat, backoff_log 0 true 1024)
  /\ outcome_at always_down 1025 0%nat = Raised 1025%nat.
Proof.
  split.
  - apply (with_retry_overflows always_down 1025 0 true 0%nat eq_refl).
    + lia.
    + intros j _. eexists. reflexivity.
  - reflexivity.
Defined.

End RetryFacts.

(** ** Query cache *)

Module CacheFacts.
Import Resilience.

Section WithCache.
Context {A : Type}.
Variable sha256_hex32 : string -> string.

Abbreviation key_of := (_cache_key sha256_hex32).
Abbreviation get := (cache_get (A:=A) sha256_hex32).
Abbreviation put := (cache_set (A:=A) sha256_hex32).
Abbreviation step := (cache_step (A:=A) sha256_hex32).
Abbreviation run := (cache_run (A:=A) sha256_hex32).
Abbreviation writes := (sets_key (A:=A) sha256_hex32).

Lemma cache_step_ttl (c : QueryCache A) (call : cache_call A) :
  ttl (step c call) = ttl c.
Proof.
  destruct call as [q m now|q m v now| |now]; simpl; try reflexivity.
  unfold cache_get. destruct (cache c !! key_of q m) as [[v ts]|];
    [|reflexivity].
  now destruct (Qlt_le_dec _ _).
Qed.

Lemma cache_run_ttl (calls : list (cache_call A)) (c : QueryCache A) :
  ttl (run calls c) = ttl c.
Proof.
  unfold cache_run. revert c.
  induction calls as [|call calls IH]; intros c; cbn [fold_left];
    [reflexivity|].
  now rewrite IH, cache_step_ttl.
Qed.

(** A call that is not a [set] on [key] removes the entry under [key] or
    leaves it as it is. *)
Lemma cache_step_entry (c : QueryCache A) (call : cache_call A)
    (key : string) :
  ~ writes key call ->
  cache (step c call) !! key = None
  \/ cache (step c call) !! key = cache c !! key.
Proof.
  intros Hw. destruct call as [q m now|q m v now| |now]; simpl in *.
  - unfold cache_get. destruct (cache c !! key_of q m) as [[v ts]|] eqn:E;
      [|now right].
    destruct (Qlt_le_dec _ _); [now right|]. simpl.
    destruct (decide (key_of q m = key)) as [<-|Hne].
    + left. apply lookup_delete_eq.
    + right. now apply lookup_delete_ne.
  - right. now apply lookup_insert_ne.
  - left. apply lookup_empty.
  - rewrite lookup_omap. destruct (cache c !! key) as [[v ts]|]; simpl;
      [|now left].
    destruct (Qlt_le_dec _ _); [now right|now left].
Qed.

Lemma cache_run_entry (calls : list (cache_call A)) (c : QueryCache A)
    (key : string) :
  (forall call, In call calls -> ~ writes key call) ->
  cache (run calls c) !! key = None
  \/ cache (run calls c) !! key = cache c !! key.
Proof.
  unfold cache_run. revert c.
  induction calls as [|call calls IH]; intros c Hw; cbn [fold_left];
    [now right|].
  destruct (IH (step c call) (fun x Hx => Hw x (or_intror Hx))) as [H|H];
    [now left|].
  rewrite H. apply cache_step_entry, Hw. now left.
Qed.

Lemma cache_get_missing (c : QueryCache A) (query model : string) (now : Q) :
  cache c !! key_of query model = None ->
  get c query model now = (None, c).
Proof. intros H. unfold cache_get. now rewrite H. Qed.

(** An entry past its TTL reads as absent, and the read removes it. *)
Lemma cache_get_expired (c : QueryCache A) (query model : string)
    (value : A) (t0 now : Q) :
  cache c !! key_of query model = Some (value, t0) ->
  (inject_Z (ttl c) <= now - t0)%Q ->
  fst (get c query model now) = None
  /\ cache (snd (get c query model now)) !! key_of query model = None.
Proof.
  intros H Hexp. unfold cache_get. rewrite H.
  destruct (Qlt_le_dec (now - t0) (inject_Z (ttl c))) as [Hlt|Hge].
  - exfalso. exact (Qlt_not_le _ _ Hlt Hexp).
  - simpl. split; [reflexivity|apply lookup_delete_eq].
Qed.

(** A [set] that writes the key of a pair is a [set] for a pair that
    spells the same text, unless the digest collides. *)
Lemma writes_spells (query model : string) (call : cache_call A) :
  ~ sets_text (key_text query model) call ->
  digest_separates sha256_hex32 (key_text query model) call ->
  ~ writes (key_of query model) call.
Proof.
  destruct call as [q m now|q m v now| |now]; simpl; [tauto| |tauto|tauto].
  intros Htext Hsep Hkey. exact (Hsep Htext Hkey).
Qed.

(** What does hold of absent entries: the key of a pair is the digest of
    the text [model:query]; [get] returns [None] for a pair when no [set]
    was made for a pair that spells the same text (the digest not
    colliding on the texts in play), whatever else was called on the
    cache; and it returns [None] once the TTL has elapsed since the [set]
    that stored the entry, whether the entry is still in the dictionary (no
    sweep ran) or not. *)
Theorem cache_get_absent :
  (forall (ttl_seconds : Z) (calls : list (cache_call A))
          (query model : string) (now : Q),
      (forall call, In call calls ->
                    ~ sets_text (key_text query model) call) ->
      (forall call, In call calls ->
                    digest_separates sha256_hex32 (key_text query model)
                                     call) ->
      fst (get (run calls (new_cache ttl_seconds)) query model now) = None)
  /\ (forall (c : QueryCache A) (query model : string) (value : A)
            (t0 now : Q),
        (inject_Z (ttl c) <= now - t0)%Q ->
        cache (put c query model value t0) !! key_of query model
        = Some (value, t0)
        /\ fst (get (put c query model value t0) query model now) = None)
  /\ (forall (c : QueryCache A) (query model : string) (value : A)
            (t0 now : Q) (calls : list (cache_call A)),
        (inject_Z (ttl c) <= now - t0)%Q ->
        (forall call, In call calls ->
                      ~ sets_text (key_text query model) call) ->
        (forall call, In call calls ->
                      digest_separates sha256_hex32 (key_text query model)
                                       call) ->
        fst (get (run calls (put c query model value t0)) query model now)
        = None).
Proof.
  split; [|split].
  - intros ttl_seconds calls query model now Ht Hs.
    assert (Hw : forall call, In call calls ->
                              ~ writes (key_of query model) call).
    { intros call Hin. apply writes_spells; [now apply Ht|now apply Hs]. }
    destruct (cache_run_entry calls (new_cache ttl_seconds) _ Hw) as [H|H].
    + now rewrite cache_get_missing.
    + rewrite cache_get_missing; [reflexivity|].
      rewrite H. apply lookup_empty.
  - intros c query model value t0 now Hexp.
    assert (Hin : cache (put c query model value t0) !! key_of query model
                  = Some (value, t0)) by apply lookup_insert_eq.
    split; [exact Hin|].
    now apply (cache_get_expired _ _ _ _ _ _ Hin).
  - intros c query model value t0 now calls Hexp Ht Hs.
    assert (Hw : forall call, In call calls ->
                              ~ writes (key_of query model) call).
    { intros call Hin. apply writes_spells; [now apply Ht|now apply Hs]. }
    destruct (cache_run_entry calls (put c query model value t0) _ Hw)
      as [H|H].
    + now rewrite cache_get_missing.
    + apply (cache_get_expired _ _ _ value t0 now).
      * rewrite H. apply lookup_insert_eq.
      * now rewrite cache_run_ttl.
Qed.

(** The cache key is the digest of the text [model:query]: two pairs that
    spell the same text share one key, whatever the digest, and read each
    other's entries. *)
Lemma cache_key_shared_text (c : QueryCache A) (value : A) (t0 now : Q) :
  key_of "c" "a:b" = key_of "b:c" "a"
  /\ ((now - t0 < inject_Z (ttl c))%Q ->
      fst (get (put c "c" "a:b" value t0) "b:c" "a" now) = Some value).
Proof.
  split; [reflexivity|].
  intros Hfresh. unfold cache_get, cache_set. cbn [cache ttl].
  change (key_of "b:c" "a") with (key_of "c" "a:b").
  rewrite lookup_insert_eq.
  destruct (Qlt_le_dec (now - t0) (inject_Z (ttl c))) as [_|Hge];
    [reflexivity|].
  exfalso. exact (Qlt_not_le _ _ Hfresh Hge).
Qed.

Lemma string_app_assoc (a b c : string) :
  ((a ++ b) ++ c)%string = (a ++ (b ++ c))%string.
Proof.
  induction a as [|ch a IH]; [reflexivity|].
  change (String ch ((a ++ b) ++ c)%string = String ch (a ++ (b ++ c))%string).
  now f_equal.
Qed.

Lemma string_app_length (a b : string) :
  String.length (a ++ b) = (String.length a + String.length b)%nat.
Proof.
  induction a as [|ch a IH]; [reflexivity|].
  change (S (String.length (a ++ b))
          = S (String.length a + String.length b)).
  now f_equal.
Qed.

(** C6 fails on the code for pairs that spell the same text.  The key is
    the digest of [f"{model}:{query}"], and the colon does not tell where
    the model ends: the pair (model [m], query [x:q]) and the pair (model
    [m:x], query [q]) differ, yet they have the same key under every
    digest.  A [get] for the second pair, for which no [set] was ever
    made, returns within the TTL what was stored for the first. *)
Theorem cache_get_other_pair (c : QueryCache A) (model infix query : string)
    (value : A) (t0 now : Q) :
  (now - t0 < inject_Z (ttl c))%Q ->
  ((infix ++ ":" ++ query)%string, model)
  <> (query, (model ++ ":" ++ infix)%string)
  /\ key_of (infix ++ ":" ++ query) model
     = key_of query (model ++ ":" ++ infix)
  /\ fst (get (put c (infix ++ ":" ++ query) model value t0)
              query (model ++ ":" ++ infix) now)
     = Some value.
Proof.
  intros Hfresh.
  assert (Hkey : key_of (infix ++ ":" ++ query) model
                 = key_of query (model ++ ":" ++ infix)).
  { unfold _cache_key. apply (f_equal sha256_hex32).
    rewrite (string_app_assoc model (":" ++ infix) (":" ++ query)).
    reflexivity. }
  split; [|split; [exact Hkey|]].
  - intros [= _ Hm]. apply (f_equal String.length) in Hm.
    rewrite !string_app_length in Hm. simpl in Hm. lia.
  - unfold cache_get, cache_set. cbn [cache ttl].
    rewrite <- Hkey, lookup_insert_eq.
    destruct (Qlt_le_dec (now - t0) (inject_Z (ttl c))) as [_|Hge];
      [reflexivity|].
    exfalso. exact (Qlt_not_le _ _ Hfresh Hge).
Qed.
End WithCache.

Lemma other_model_calls_spare_m1 (call : cache_call string) :
  In call other_model_calls ->
  ~ sets_text (key_text "q1" "m1") call.
Proof.
  intros [<-|[<-|[<-|[]]]]; simpl; try tauto.
  vm_compute. discriminate.
Qed.

Lemma other_model_calls_separate (call : cache_call string) :
  In call other_model_calls ->
  digest_separates plain_digest (key_text "q1" "m1") call.
Proof.
  intros [<-|[<-|[<-|[]]]]; simpl; try exact I.
  intros H. exact H.
Qed.

Lemma cache_get_absent_witness :
  fst (cache_get plain_digest
         (cache_run plain_digest other_model_calls (new_cache 3600))
         "q1" "m1" 30%Q) = None
  /\ fst (cache_get plain_digest
            (cache_set plain_digest (new_cache 3600) "q1" "m1" "answer" 100%Q)
            "q1" "m1" 3700%Q) = None
  /\ fst (cache_get plain_digest
            (cache_run plain_digest other_model_calls
               (cache_set plain_digest (new_cache 3600)
                          "q1" "m1" "answer" 100%Q))
            "q1" "m1" 3700%Q) = None.
Proof.
  destruct (cache_get_absent (A:=string) plain_digest) as (H1 & H2 & H3).
  split; [|split].
  - apply H1.
    + exact other_model_calls_spare_m1.
    + exact other_model_calls_separate.
  - apply H2. unfold Qle. simpl. lia.
  - apply H3.
    + unfold Qle. simpl. lia.
    + exact other_model_calls_spare_m1.
    + exact other_model_calls_separate.
Defined.

(** The failing input: an answer is stored for the model
    [google/gemma-3-27b-it] and the query [free:hello]; the model
    [google/gemma-3-27b-it:free] of the council is then asked [hello]. *)
Lemma cache_get_other_pair_witness :
  ("free:hello", "google/gemma-3-27b-it")
  <> ("hello", "google/gemma-3-27b-it:free")
  /\ fst (cache_get plain_digest
            (cache_set plain_digest (new_cache 3600)
                       "free:hello" "google/gemma-3-27b-it"
                       "answer of the other model" 0%Q)
            "hello" "google/gemma-3-27b-it:free" 1%Q)
     = Some "answer of the other model".
Proof.
  destruct (cache_get_other_pair (A:=string) plain_digest (new_cache 3600)
              "google/gemma-3-27b-it" "free" "hello"
              "answer of the other model" 0%Q 1%Q) as (Hne & _ & Hget).
  - unfold Qlt. simpl. lia.
  - split; [exact Hne|exact Hget].
Defined.

End CacheFacts.

(** ** Circuit breaker *)

Module BreakerFacts.
Import Resilience.


Lemma record_failure_params cb m now :
  failure_threshold (record_failure cb m now) = failure_threshold cb
  /\ recovery_timeout (record_failure cb m now) = recovery_timeout cb.
Proof.
  unfold record_failure. destruct (_ <=? _); now split.
Qed.

Lemma record_failure_count cb m now :
  failures (record_failure cb m now) !! m
  = Some (default 0 (failures cb !! m) + 1).
Proof.
  unfold record_failure. destruct (_ <=? _); simpl; apply lookup_insert_eq.
Qed.




(** Calls about one model leave the circuit of every other model as it
    is. *)
Lemma record_failure_other cb m m' now :
  m <> m' ->
  failures (record_failure cb m now) !! m' = failures cb !! m'
  /\ open_until (record_failure cb m now) !! m' = open_until cb !! m'.
Proof.
  intros Hne. unfold record_failure. destruct (_ <=? _); simpl;
    now rewrite ?lookup_insert_ne by assumption.
Qed.

Lemma record_success_other cb m m' :
  m <> m' ->
  failures (record_success cb m) !! m' = failures cb !! m'
  /\ open_until (record_success cb m) !! m' = open_until cb !! m'.
Proof.
  intros Hne. unfold record_success. simpl.
  now rewrite lookup_insert_ne by assumption.
Qed.

Lemma is_open_other cb m m' now :
  m <> m' ->
  failures (snd (is_open cb m now)) !! m' = failures cb !! m'
  /\ open_until (snd (is_open cb m now)) !! m' = open_until cb !! m'.
Proof.
  intros Hne. unfold is_open. destruct (open_until cb !! m); [|now split].
  destruct (Qlt_le_dec _ _); [now split|]. simpl.
  now rewrite lookup_insert_ne, lookup_delete_ne by assumption.
Qed.






End BreakerFacts.

(** ** Calibration store *)

Module CalibrationFacts.
Import Calibration.

Section ListFacts.
Context {A B : Type}.

Lemma in_map_filter (f : A -> B) (p : A -> bool) (l : list A) (y : B) :
  In y (map f (List.filter p l)) -> In y (map f l).
Proof.
  rewrite !in_map_iff. intros (x & <- & Hx).
  apply filter_In in Hx as [Hx _]. now exists x.
Qed.

Lemma nodup_map_filter (f : A -> B) (p : A -> bool) (l : list A) :
  List.NoDup (map f l) -> List.NoDup (map f (List.filter p l)).
Proof.
  induction l as [|x l IH]; simpl; [trivial|].
  intros Hnd. inversion Hnd as [|? ? Hnotin Hnd']; subst.
  destruct (p x); simpl; [|now apply IH].
  constructor; [|now apply IH].
  intros Hin. apply Hnotin. now apply in_map_filter in Hin.
Qed.

Lemma filter_none (p : A -> bool) (l : list A) :
  (forall x, In x l -> p x = false) -> List.filter p l = [].
Proof.
  induction l as [|x l IH]; simpl; [trivial|]. intros H.
  rewrite (H x) by now left. apply IH. intros y Hy. apply H. now right.
Qed.

Lemma filter_filter_weaker (p q : A -> bool) (l : list A) :
  (forall x, p x = true -> q x = true) ->
  List.filter p (List.filter q l) = List.filter p l.
Proof.
  intros H. induction l as [|x l IH]; simpl; [trivial|].
  destruct (q x) eqn:Eq; simpl.
  - now rewrite IH.
  - destruct (p x) eqn:Ep; [|exact IH].
    apply H in Ep. congruence.
Qed.
End ListFacts.

Section WithTracker.
Variable sha256_hex16 : string -> string.
Variable str_lower : string -> string.
Variable str_strip : string -> string.
Variable str_split : string -> list string.
Variable str_len : string -> Z.
Variable str_contains : string -> string -> bool.

Abbreviation hash := (query_hash_of sha256_hex16).
Abbreviation predict := (record_prediction sha256_hex16).
Abbreviation check :=
  (_check_correctness str_lower str_strip str_split str_len str_contains).
Abbreviation outcome :=
  (record_outcome sha256_hex16 str_lower str_strip str_split str_len
                  str_contains).
Abbreviation filled :=
  (backfilled str_lower str_strip str_split str_len str_contains).
Abbreviation reach :=
  (reachable sha256_hex16 str_lower str_strip str_split str_len
             str_contains).

Lemma same_key_true m h r : same_key m h r = true <-> row_key r = (m, h).
Proof.
  unfold same_key, row_key. rewrite andb_true_iff, !String.eqb_eq.
  split; [intros [-> ->]; reflexivity|intros [= -> ->]; now split].
Qed.

Lemma same_key_false m h r : same_key m h r = false <-> row_key r <> (m, h).
Proof.
  rewrite <- same_key_true. destruct (same_key m h r); split; congruence.
Qed.

(** Under a unique key at most one row answers to it. *)
Lemma unique_key_one_row m h (l : list row) :
  List.NoDup (map row_key l) ->
  (length (List.filter (same_key m h) l) <= 1)%nat.
Proof.
  induction l as [|r l IH]; simpl; [lia|].
  intros Hnd. inversion Hnd as [|? ? Hnotin Hnd']; subst.
  destruct (same_key m h r) eqn:E; [|now apply IH].
  rewrite filter_none; [simpl; lia|].
  intros x Hx. apply same_key_false. apply same_key_true in E.
  intros Hk. apply Hnotin. rewrite E, <- Hk. now apply in_map.
Qed.

Lemma nodup_map_injective {A B} (f : A -> B) (l : list A) (x y : A) :
  List.NoDup (map f l) -> In x l -> In y l -> f x = f y -> x = y.
Proof.
  induction l as [|z l IH]; simpl; [contradiction|].
  intros Hnd Hx Hy Hf. inversion Hnd as [|? ? Hnotin Hnd']; subst.
  destruct Hx as [->|Hx], Hy as [->|Hy]; trivial.
  - exfalso. apply Hnotin. rewrite Hf. now apply in_map.
  - exfalso. apply Hnotin. rewrite <- Hf. now apply in_map.
  - now apply IH.
Qed.

Lemma with_outcome_again r truth c c' :
  with_outcome (with_outcome r truth c) truth c' = with_outcome r truth c'.
Proof. reflexivity. Qed.

(** The per-id updates, one for each fetched row, amount to filling in
    every row whose id was fetched. *)
Lemma update_loop (truth : string) (sel rs : list row) :
  (forall s r, In s sel -> In r rs -> id r = id s ->
               prediction r = prediction s) ->
  fold_left
    (fun rs '(pred_id, pred) =>
       let c := if check pred truth then 1 else 0 in
       update_by_id rs pred_id truth c)
    (map (fun r => (id r, prediction r)) sel) rs
  = map (fun r =>
           if existsb (Z.eqb (id r)) (map id sel)
           then with_outcome r truth
                  (if check (prediction r) truth then 1 else 0)
           else r) rs.
Proof.
  revert rs. induction sel as [|s sel IH]; intros rs Hsame; simpl.
  - symmetry. apply map_id.
  - rewrite IH.
    + unfold update_by_id. rewrite map_map. apply map_ext_in.
      intros r Hr. destruct (Z.eqb_spec (id r) (id s)) as [E|E]; simpl.
      * rewrite <- (Hsame s r (or_introl eq_refl) Hr E).
        now destruct (existsb _ _).
      * reflexivity.
    + intros s' r' Hs' Hr' E. unfold update_by_id in Hr'.
      apply in_map_iff in Hr' as (r & <- & Hr).
      assert (Hp : prediction r = prediction s').
      { apply (Hsame s' r); [now right|exact Hr|].
        rewrite <- E. now destruct (id r =? id s). }
      rewrite <- Hp. now destruct (id r =? id s).
Qed.

Lemma record_outcome_rows (db : table) (query truth : string) :
  List.NoDup (map id (rows db)) ->
  rows (outcome db query truth) = map (filled (hash query) truth) (rows db).
Proof.
  intros Hnd. unfold record_outcome. cbn [rows].
  rewrite update_loop.
  - apply map_ext_in. intros r Hr. unfold backfilled.
    destruct (String.eqb (query_hash r) (hash query)) eqn:E.
    + assert (Hex : existsb (Z.eqb (id r))
                      (map id (List.filter
                                 (fun r => String.eqb (query_hash r)
                                                      (hash query))
                                 (rows db))) = true).
      { apply existsb_exists. exists (id r). split; [|apply Z.eqb_refl].
        apply in_map. apply filter_In. now split. }
      now rewrite Hex.
    + destruct (existsb _ _) eqn:Hex; [|reflexivity].
      apply existsb_exists in Hex as (i & Hi & Ei).
      apply Z.eqb_eq in Ei. subst i.
      apply in_map_iff in Hi as (s & Es & Hs).
      apply filter_In in Hs as [Hs Hq].
      assert (s = r) by (apply (nodup_map_injective id (rows db)); auto).
      subst s. congruence.
  - intros s r Hs Hr E. apply filter_In in Hs as [Hs _].
    now rewrite (nodup_map_injective id (rows db) r s Hnd Hr Hs E).
Qed.

Lemma filled_id qhash truth r : id (filled qhash truth r) = id r.
Proof. unfold backfilled. now destruct (String.eqb _ _). Qed.

Lemma filled_key qhash truth r :
  row_key (filled qhash truth r) = row_key r.
Proof. unfold backfilled. now destruct (String.eqb _ _). Qed.

Lemma well_keyed_init : well_keyed init_db.
Proof. repeat split; constructor. Qed.

Lemma well_keyed_outcome db query truth :
  well_keyed db -> well_keyed (outcome db query truth).
Proof.
  intros (Hid & Hle & Hkey). unfold well_keyed.
  rewrite (record_outcome_rows db query truth Hid). cbn [last_id].
  rewrite !map_map.
  rewrite (map_ext _ id (filled_id (hash query) truth)).
  rewrite (map_ext _ row_key (filled_key (hash query) truth)).
  repeat split; try assumption.
  apply List.Forall_map. eapply List.Forall_impl; [|exact Hle].
  intros r Hr. cbn beta. now rewrite filled_id.
Qed.

Lemma well_keyed_prediction db m query conf pred now :
  well_keyed db -> well_keyed (predict db m query conf pred now).
Proof.
  intros (Hid & Hle & Hkey). unfold well_keyed, record_prediction.
  cbn [rows last_id]. rewrite !map_app. cbn [map id]. repeat split.
  - apply List.NoDup_app.
    + now apply nodup_map_filter.
    + constructor; [intros []|constructor].
    + intros i Hi [<-|[]]. apply in_map_filter in Hi.
      apply in_map_iff in Hi as (r & Er & Hr).
      rewrite List.Forall_forall in Hle. specialize (Hle r Hr). lia.
  - apply List.Forall_app. split.
    + rewrite List.Forall_forall in *. intros r Hr.
      apply filter_In in Hr as [Hr _]. specialize (Hle r Hr). lia.
    + constructor; [cbn [id]; lia|constructor].
  - apply List.NoDup_app.
    + now apply nodup_map_filter.
    + constructor; [intros []|constructor].
    + intros k Hk [<-|[]].
      apply in_map_iff in Hk as (r & Er & Hr).
      apply filter_In in Hr as [_ Hr].
      apply negb_true_iff, same_key_false in Hr. now apply Hr.
Qed.

Lemma reachable_well_keyed db : reach db -> well_keyed db.
Proof.
  induction 1 as [|db m query conf pred now _ IH|db query truth _ IH].
  - apply well_keyed_init.
  - now apply well_keyed_prediction.
  - now apply well_keyed_outcome.
Qed.

(** After [record_prediction] the key holds the new row and nothing else;
    the rows under other keys are as before. *)
Lemma record_prediction_rows_of db m query conf pred now :
  rows_of (predict db m query conf pred now) m (hash query)
  = [ {| id := last_id db + 1; model := m; query_hash := hash query;
         stated_confidence := conf; prediction := pred;
         ground_truth := None; correct := None; timestamp := now |} ].
Proof.
  unfold rows_of, record_prediction. cbn [rows].
  rewrite List.filter_app, filter_none.
  - cbn [List.filter app]. unfold same_key at 1. cbn [model query_hash].
    now rewrite !String.eqb_refl.
  - intros r Hr. apply filter_In in Hr as [_ Hr].
    now apply negb_true_iff in Hr.
Qed.

Lemma record_prediction_other_key db m query conf pred now m' h' :
  (m', h') <> (m, hash query) ->
  rows_of (predict db m query conf pred now) m' h' = rows_of db m' h'.
Proof.
  intros Hne. unfold rows_of, record_prediction. cbn [rows].
  rewrite List.filter_app, filter_filter_weaker.
  - cbn [List.filter]. unfold same_key at 2. cbn [model query_hash].
    destruct (String.eqb_spec m m') as [->|Hm];
      destruct (String.eqb_spec (hash query) h') as [<-|Hh];
      cbn [andb]; try apply app_nil_r.
    congruence.
  - intros r Hr. apply negb_true_iff, same_key_false.
    apply same_key_true in Hr. congruence.
Qed.

(** C3: the store holds at most one row per (model, query_hash); a
    [record_prediction] leaves exactly the new row under its key, with no
    outcome yet, and does not touch other keys; a [record_outcome] fills in
    [ground_truth] and [correct] on every row with the query's hash, for
    every model that predicted on it, and on no other row. *)
Theorem calibration_upsert_and_backfill (db : table) :
  reach db ->
  (forall m h, (length (rows_of db m h) <= 1)%nat)
  /\ (forall m query conf pred now,
        rows_of (predict db m query conf pred now) m (hash query)
        = [ {| id := last_id db + 1; model := m; query_hash := hash query;
               stated_confidence := conf; prediction := pred;
               ground_truth := None; correct := None; timestamp := now |} ]
        /\ forall m' h',
             (m', h') <> (m, hash query) ->
             rows_of (predict db m query conf pred now) m' h'
             = rows_of db m' h')
  /\ (forall query truth,
        rows (outcome db query truth)
        = map (filled (hash query) truth) (rows db)
        /\ (forall r,
               In r (rows (outcome db query truth)) ->
               query_hash r = hash query ->
               ground_truth r = Some truth
               /\ correct r
                  = Some (if check (prediction r) truth then 1 else 0))
        /\ (forall r,
               In r (rows db) ->
               query_hash r = hash query ->
               In (with_outcome r truth
                     (if check (prediction r) truth then 1 else 0))
                  (rows (outcome db query truth)))).
Proof.
  intros Hreach.
  pose proof (reachable_well_keyed db Hreach) as (Hid & Hle & Hkey).
  split; [|split].
  - intros m h. now apply unique_key_one_row.
  - intros m query conf pred now. split.
    + apply record_prediction_rows_of.
    + intros m' h'. apply record_prediction_other_key.
  - intros query truth.
    pose proof (record_outcome_rows db query truth Hid) as Hrows.
    split; [exact Hrows|]. split.
    + intros r Hr Hq. rewrite Hrows in Hr.
      apply in_map_iff in Hr as (r0 & <- & Hr0).
      unfold backfilled in *.
      destruct (String.eqb_spec (query_hash r0) (hash query)) as [E|E];
        [now split|contradiction].
    + intros r Hr Hq. rewrite Hrows. apply in_map_iff. exists r.
      split; [|exact Hr]. unfold backfilled.
      apply String.eqb_eq in Hq. now rewrite Hq.
Qed.
End WithTracker.

Lemma two_predictions_reachable :
  reachable plain_hash plain_same plain_same plain_split plain_len
            plain_contains two_predictions.
Proof. unfold two_predictions. repeat constructor. Qed.

Lemma calibration_upsert_and_backfill_witness :
  (length (rows_of two_predictions "gpt" "capital of France?") <= 1)%nat
  /\ map correct
       (rows (record_outcome plain_hash plain_same plain_same plain_split
                plain_len plain_contains two_predictions
                "capital of France?" "Paris"))
     = [Some 1; Some 0].
Proof.
  destruct (calibration_upsert_and_backfill
              plain_hash plain_same plain_same plain_split plain_len
              plain_contains two_predictions two_predictions_reachable)
    as (Hone & _ & Hfill).
  split.
  - apply Hone.
  - destruct (Hfill "capital of France?" "Paris") as (-> & _). reflexivity.
Defined.

End CalibrationFacts.

(** ** More on the cache, the breaker, the fan-out and the retry loop *)

Module ResilienceMoreFacts.
Import Resilience RetryLog.

Section CacheMore.
Context {A : Type}.
Variable sha256_hex32 : string -> string.

Abbreviation key_of := (_cache_key sha256_hex32).
Abbreviation get := (cache_get (A:=A) sha256_hex32).
Abbreviation put := (cache_set (A:=A) sha256_hex32).
Abbreviation sweep := (cache_clear_expired (A:=A)).

(** X1: a [get] within the TTL of the latest [set] for its key returns the
    value that [set] stored, also when it overwrote an older entry, and
    leaves the cache as it is. *)
Theorem cache_set_get_fresh (c : QueryCache A) (query model : string)
    (older value : A) (t_old t0 now : Q) :
  (now - t0 < inject_Z (ttl c))%Q ->
  get (put c query model value t0) query model now
  = (Some value, put c query model value t0)
  /\ fst (get (put (put c query model older t_old) query model value t0)
              query model now) = Some value.
Proof.
  intros Hfresh.
  assert (Hget : forall c' : QueryCache A,
             ttl c' = ttl c ->
             get (put c' query model value t0) query model now
             = (Some value, put c' query model value t0)).
  { intros c' Httl. unfold cache_get, cache_set. cbn [cache ttl].
    rewrite lookup_insert_eq, Httl.
    destruct (Qlt_le_dec (now - t0) (inject_Z (ttl c))) as [_|Hge];
      [reflexivity|].
    exfalso. exact (Qlt_not_le _ _ Hfresh Hge). }
  split.
  - now apply Hget.
  - now rewrite (Hget (put c query model older t_old)).
Qed.

(** X2: a sweep at time [now] keeps exactly the entries younger than the
    TTL, and no later [get] can tell that it ran: for every [now' >= now]
    the answer of [get] is the same with and without the sweep. *)
Theorem cache_sweep_invisible (c : QueryCache A) (now : Q) :
  (forall key value ts,
      cache (sweep c now) !! key = Some (value, ts) <->
      cache c !! key = Some (value, ts) /\ (now - ts < inject_Z (ttl c))%Q)
  /\ (forall query model now',
        (now <= now')%Q ->
        fst (get (sweep c now) query model now')
        = fst (get c query model now')).
Proof.
  assert (Hkeep : forall key value ts,
             cache (sweep c now) !! key = Some (value, ts) <->
             cache c !! key = Some (value, ts)
             /\ (now - ts < inject_Z (ttl c))%Q).
  { intros key value ts. unfold cache_clear_expired. cbn [cache].
    rewrite lookup_omap. destruct (cache c !! key) as [[v t]|]; simpl.
    - destruct (Qlt_le_dec (now - t) (inject_Z (ttl c))) as [Hlt|Hge].
      + split; [intros [= -> ->]; now split|now intros [H _]].
      + split; [discriminate|]. intros [[= -> ->] Hlt].
        exfalso. exact (Qlt_not_le _ _ Hlt Hge).
    - split; [discriminate|now intros [H _]]. }
  split; [exact Hkeep|].
  intros query model now' Hlater. unfold cache_get.
  change (ttl (sweep c now)) with (ttl c).
  destruct (cache c !! key_of query model) as [[v t]|] eqn:E.
  - destruct (Qlt_le_dec (now - t) (inject_Z (ttl c))) as [Hlt|Hge].
    + assert (Hs : cache (sweep c now) !! key_of query model = Some (v, t))
        by now apply Hkeep.
      rewrite Hs. now destruct (Qlt_le_dec _ _).
    + assert (Hs : cache (sweep c now) !! key_of query model = None).
      { destruct (cache (sweep c now) !! key_of query model) as [[v' t']|]
          eqn:E'; [|reflexivity].
        apply Hkeep in E' as [E' Hlt]. rewrite E in E'.
        injection E' as -> ->. exfalso. exact (Qlt_not_le _ _ Hlt Hge). }
      rewrite Hs.
      destruct (Qlt_le_dec (now' - t) (inject_Z (ttl c))) as [Hlt|_];
        [|reflexivity].
      exfalso. apply (Qlt_not_le _ _ Hlt).
      apply Qle_trans with (now - t)%Q; [exact Hge|].
      unfold Qminus. apply Qplus_le_compat; [exact Hlater|apply Qle_refl].
  - assert (Hs : cache (sweep c now) !! key_of query model = None).
    { destruct (cache (sweep c now) !! key_of query model) as [[v' t']|]
        eqn:E'; [|reflexivity].
      apply Hkeep in E' as [E' _]. congruence. }
    now rewrite Hs.
Qed.
End CacheMore.

Lemma cache_set_get_fresh_witness :
  fst (cache_get plain_digest
         (cache_set plain_digest (new_cache 3600) "q1" "m1" "answer" 100%Q)
         "q1" "m1" 200%Q) = Some "answer".
Proof.
  destruct (cache_set_get_fresh plain_digest (new_cache 3600) "q1" "m1"
              "old" "answer" 0%Q 100%Q 200%Q) as [H _].
  - reflexivity.
  - now rewrite H.
Defined.

Lemma cache_sweep_invisible_witness :
  fst (cache_get plain_digest
         (cache_clear_expired
            (cache_set plain_digest (new_cache 3600) "q1" "m1" "answer" 0%Q)
            4000%Q)
         "q1" "m1" 4001%Q)
  = fst (cache_get plain_digest
           (cache_set plain_digest (new_cache 3600) "q1" "m1" "answer" 0%Q)
           "q1" "m1" 4001%Q).
Proof.
  apply (proj2 (cache_sweep_invisible plain_digest _ 4000%Q)).
  discriminate.
Defined.

(** *** Circuit breaker *)

Lemma is_open_later cb m m' (earlier now : Q) :
  (earlier <= now)%Q ->
  fst (is_open (snd (is_open cb m' earlier)) m now) = fst (is_open cb m now).
Proof.
  intros Hle. destruct (decide (m' = m)) as [->|Hne].
  - unfold is_open at 2 3. destruct (open_until cb !! m) as [until|] eqn:E.
    + destruct (Qlt_le_dec earlier until) as [Hlt|Hge]; cbn [snd].
      * unfold is_open. now rewrite E.
      * unfold is_open. cbn [open_until]. rewrite lookup_delete_eq.
        destruct (Qlt_le_dec now until) as [Hlt|_]; [|reflexivity].
        exfalso. apply (Qlt_not_le _ _ Hlt).
        now apply Qle_trans with earlier.
    + cbn [snd]. unfold is_open. now rewrite E.
  - unfold is_open at 1 3.
    destruct (BreakerFacts.is_open_other cb m' m earlier Hne) as [_ ->].
    destruct (open_until cb !! m); [|reflexivity].
    now destruct (Qlt_le_dec _ _).
Qed.

Lemma combine_map_seq_shift (models : list string) (clock : nat -> Q) :
  combine models (map (fun k => clock (S k)) (seq 0 (length models)))
  = combine models (map clock (seq 1 (length models))).
Proof. now rewrite <- seq_shift, map_map. Qed.

(** X3: when the clock does not run backwards, [get_available_models]
    returns, in order, exactly the models whose circuit is not open at the
    time of their own check in the breaker the call started from: the
    resets [is_open] makes on the way change no later answer, within the
    call or after it. *)
Theorem get_available_models_filter (cb : CircuitBreaker)
    (models : list string) (clock : nat -> Q) :
  monotone_clock clock ->
  fst (get_available_models cb models clock)
  = map fst
        (List.filter (fun check => negb (fst (is_open cb (fst check)
                                                      (snd check))))
                     (checks models clock))
  /\ forall m now,
       (clock (length models) <= now)%Q ->
       fst (is_open (snd (get_available_models cb models clock)) m now)
       = fst (is_open cb m now).
Proof.
  unfold checks. revert cb clock.
  induction models as [|m0 models IH]; intros cb clock Hmono.
  - split; reflexivity.
  - cbn [get_available_models length seq map combine List.filter fst snd].
    destruct (is_open cb m0 (clock 0%nat)) as [open0 cb0] eqn:E0.
    assert (Hcb0 : cb0 = snd (is_open cb m0 (clock 0%nat)))
      by now rewrite E0.
    assert (Hmono' : monotone_clock (fun k => clock (S k))).
    { intros i j Hij. apply Hmono. lia. }
    destruct (IH cb0 (fun k => clock (S k)) Hmono') as [IHl IHs].
    destruct (get_available_models cb0 models (fun k => clock (S k)))
      as [avail cb1] eqn:E1.
    cbn [fst snd] in *. split.
    + rewrite combine_map_seq_shift in IHl.
      assert (Hf : List.filter
                     (fun check => negb (fst (is_open cb0 (fst check)
                                                      (snd check))))
                     (combine models (map clock (seq 1 (length models))))
                   = List.filter
                       (fun check => negb (fst (is_open cb (fst check)
                                                        (snd check))))
                       (combine models (map clock (seq 1 (length models))))).
      { apply filter_ext_in. intros [m t] Hin. cbn [fst snd].
        apply in_combine_r, in_map_iff in Hin as (k & <- & _).
        rewrite Hcb0, is_open_later; [reflexivity|]. apply Hmono. lia. }
      destruct open0; cbn [negb map fst]; rewrite IHl, Hf; reflexivity.
    + intros m now Hnow. rewrite IHs by exact Hnow.
      rewrite Hcb0. apply is_open_later.
      apply Qle_trans with (clock (S (length models))); [|exact Hnow].
      apply Hmono. lia.
Qed.

Lemma get_available_models_filter_witness :
  fst (get_available_models tripped_breaker ["m"; "other"; "m"]
                            half_minutes)
  = map fst
        (List.filter
           (fun check => negb (fst (is_open tripped_breaker (fst check)
                                            (snd check))))
           (checks ["m"; "other"; "m"] half_minutes))
  /\ fst (get_available_models tripped_breaker ["m"; "other"; "m"]
                               half_minutes)
     = ["other"; "m"].
Proof.
  assert (Hmono : monotone_clock half_minutes).
  { intros i j Hij. unfold half_minutes. rewrite <- Zle_Qle. lia. }
  destruct (get_available_models_filter tripped_breaker
              ["m"; "other"; "m"] half_minutes Hmono) as [H _].
  split; [exact H|]. rewrite H. vm_compute. reflexivity.
Defined.

Lemma record_failures_stay_closed m (times : list Q) :
  forall cb,
    open_until cb !! m = None ->
    default 0 (failures cb !! m) + Z.of_nat (length times)
    < failure_threshold cb ->
    open_until (record_failures cb m times) !! m = None.
Proof.
  unfold record_failures.
  induction times as [|t times IH]; intros cb Hclosed Hfew;
    cbn [fold_left length] in *; [exact Hclosed|].
  apply IH.
  - unfold record_failure.
    destruct (Z.leb_spec (failure_threshold cb)
                (default 0 (failures cb !! m) + 1)) as [Hle|_];
      [lia|exact Hclosed].
  - destruct (BreakerFacts.record_failure_params cb m t) as [-> _].
    rewrite BreakerFacts.record_failure_count. simpl. lia.
Qed.

(** X4: [record_success] sets the failure counter of its model to 0 and
    changes no answer of [is_open]: a circuit that is open stays open until
    its cooldown ends.  After a success, fewer than [failure_threshold]
    failures leave a closed circuit closed. *)
Theorem record_success_keeps_circuits (cb : CircuitBreaker) (m : string) :
  failures (record_success cb m) !! m = Some 0
  /\ (forall m' now,
        fst (is_open (record_success cb m) m' now) = fst (is_open cb m' now))
  /\ (forall times now,
        open_until cb !! m = None ->
        Z.of_nat (length times) < failure_threshold cb ->
        fst (is_open (record_failures (record_success cb m) m times) m now)
        = false).
Proof.
  split; [apply lookup_insert_eq|]. split.
  - intros m' now. unfold is_open, record_success. cbn [open_until].
    destruct (open_until cb !! m'); [|reflexivity].
    now destruct (Qlt_le_dec _ _).
  - intros times now Hclosed Hfew.
    assert (H : open_until (record_failures (record_success cb m) m times) !! m
                = None).
    { apply record_failures_stay_closed; [exact Hclosed|].
      unfold record_success. cbn [failures failure_threshold].
      rewrite lookup_insert_eq. simpl. lia. }
    unfold is_open. now rewrite H.
Qed.

Lemma record_success_keeps_circuits_witness :
  fst (is_open (record_failures (record_success (new_breaker 3 60) "m") "m"
                                [0; 1]%Q) "m" 2%Q) = false.
Proof.
  apply (proj2 (proj2 (record_success_keeps_circuits (new_breaker 3 60) "m"))).
  - reflexivity.
  - simpl. lia.
Defined.

(** *** Fan-out *)

Lemma fan_out_partition {A} (workers : list (string * worker_run A)) :
  (length (successes_of workers) + length (failed_ids_of workers)
   = length workers)%nat
  /\ length (error_texts_of workers) = length (failed_ids_of workers).
Proof.
  unfold failed_ids_of.
  induction workers as [|[m run] workers [IH1 IH2]]; [now split|].
  destruct run; simpl in *; rewrite ?length_app; simpl; split; lia.
Qed.

(** X5: a fan-out accounts for every worker exactly once: when it returns,
    the successes and the failed ids together are as many as the workers;
    when it raises, the error carries one message per failed worker, the
    number of workers that answered, and that number is below the required
    one. *)
Theorem resilient_parallel_query_accounts {A}
    (workers : list (string * worker_run A)) (min_required : Z)
    (allow_partial : bool) :
  match resilient_parallel_query workers min_required allow_partial with
  | inl (successful, failed) =>
      (length successful + length failed = length workers)%nat
  | inr e =>
      received e + Z.of_nat (length (errors e)) = Z.of_nat (length workers)
      /\ received e < required e
      /\ allow_partial = false
  end.
Proof.
  rewrite FanOutFacts.resilient_parallel_query_eq.
  destruct (fan_out_partition workers) as [H1 H2].
  destruct (Z.ltb_spec (Z.of_nat (length (successes_of workers))) min_required)
    as [Hlt|Hge], allow_partial; simpl; try exact H1.
  repeat split; [lia|exact Hlt].
Qed.

(** *** Retry *)

Section RetryMore.
Context {World A E : Type}.
Variable coro_factory : World -> outcome A E * World.
Variable max_retries : Z.
Variable base_delay : Q.
Variable exponential : bool.

Abbreviation at_ := (outcome_at coro_factory).
Abbreviation blog := (backoff_log base_delay exponential).

Lemma first_return_or_all_raise (n : nat) (w : World) :
  (exists k a, (k <= n)%nat
               /\ (forall j, (j < k)%nat -> exists e, at_ j w = Raised e)
               /\ at_ k w = Returned a)
  \/ (forall j, (j <= n)%nat -> exists e, at_ j w = Raised e).
Proof.
  induction n as [|n [(k & a & Hk & Hfail & Hret)|Hall]].
  - destruct (at_ 0%nat w) as [a|e] eqn:Eo.
    + left. exists 0%nat, a. repeat split; [lia|intros j Hj; lia|exact Eo].
    + right. intros j Hj. replace j with 0%nat by lia. now exists e.
  - left. exists k, a. repeat split; [lia|exact Hfail|exact Hret].
  - destruct (at_ (S n) w) as [a|e] eqn:Eo.
    + left. exists (S n), a. repeat split; [lia| |exact Eo].
      intros j Hj. apply Hall. lia.
    + right. intros j Hj. destruct (Nat.eq_dec j (S n)) as [->|Hne].
      * now exists e.
      * apply Hall. lia.
Qed.

Lemma invocations_app (l l' : list event) :
  invocations (l ++ l') = (invocations l + invocations l')%nat.
Proof. unfold invocations. now rewrite List.filter_app, length_app. Qed.

Lemma sleep_total_app (l l' : list event) :
  sleep_total (l ++ l') == sleep_total l + sleep_total l'.
Proof. unfold sleep_total. now rewrite flat_map_app, Qsum_app. Qed.

Lemma backoff_log_S (k : nat) :
  blog (S k)
  = flat_map (fun j => [Invoke;
                        Sleep (delay_value base_delay exponential (Z.of_nat j))])
             (seq 0 k)
    ++ [Invoke; Sleep (delay_value base_delay exponential (Z.of_nat k))]
    ++ [Invoke].
Proof.
  unfold backoff_log. rewrite seq_S, flat_map_app. simpl.
  now rewrite <- !app_assoc.
Qed.

Lemma backoff_log_invocations (k : nat) : invocations (blog k) = S k.
Proof.
  induction k as [|k IH]; [reflexivity|].
  rewrite backoff_log_S. unfold backoff_log in IH.
  rewrite invocations_app in *. rewrite invocations_app.
  change (invocations [Invoke]) with 1%nat in *.
  change (invocations [Invoke; Sleep _]) with 1%nat. lia.
Qed.

Lemma backoff_log_sleep_total (k : nat) :
  sleep_total (blog k)
  == base_delay * (if exponential then inject_Z (2 ^ Z.of_nat k - 1)
                   else inject_Z (Z.of_nat k)).
Proof.
  induction k as [|k IH].
  - unfold backoff_log, sleep_total, Qsum. simpl.
    destruct exponential;
      [change (inject_Z (2 ^ Z.of_nat 0 - 1)) with 0%Q
      |change (inject_Z (Z.of_nat 0)) with 0%Q]; ring.
  - rewrite backoff_log_S. unfold backoff_log in IH.
    rewrite sleep_total_app in IH. rewrite !sleep_total_app.
    change (sleep_total [Invoke]) with 0%Q in *.
    assert (Hk : sleep_total [Invoke;
                   Sleep (delay_value base_delay exponential (Z.of_nat k))]
                 == delay_value base_delay exponential (Z.of_nat k)).
    { unfold sleep_total, Qsum. simpl. ring. }
    rewrite Hk.
    assert (IH' : sleep_total
                    (flat_map (fun j => [Invoke;
                       Sleep (delay_value base_delay exponential (Z.of_nat j))])
                       (seq 0 k))
                  == base_delay * (if exponential
                                   then inject_Z (2 ^ Z.of_nat k - 1)
                                   else inject_Z (Z.of_nat k))).
    { rewrite <- IH. ring. }
    rewrite IH'. unfold delay_value, backoff_factor. destruct exponential.
    + replace (2 ^ Z.of_nat (S k) - 1)
        with ((2 ^ Z.of_nat k - 1) + 2 ^ Z.of_nat k)
        by (rewrite Nat2Z.inj_succ, Z.pow_succ_r by lia; lia).
      rewrite inject_Z_plus. ring.
    + replace (Z.of_nat (S k)) with (Z.of_nat k + 1) by lia.
      rewrite inject_Z_plus. change (inject_Z 1) with 1%Q. ring.
Qed.

(** X6: for [max_retries >= 0], delays that are finite floats (with
    exponential back-off, [max_retries <= 1024]) and whatever the operation
    does, the run of [with_retry] is [k] failed attempts with their
    back-off sleeps and one last invocation, for some [k <= max_retries]:
    the operation is invoked [k + 1] times, the sleeps add up to
    [base_delay * (2^k - 1)] (exponential) or [base_delay * k] (constant),
    and the run ends with a value or with an error of the operation, not
    with the [TypeError] of [raise None] nor with an [OverflowError]. *)
Theorem with_retry_total_backoff (w : World) :
  0 <= max_retries ->
  delays_representable max_retries base_delay exponential ->
  exists k : nat,
    (k <= Z.to_nat max_retries)%nat
    /\ snd (with_retry coro_factory max_retries base_delay exponential w)
       = blog k
    /\ invocations
         (snd (with_retry coro_factory max_retries base_delay exponential w))
       = S k
    /\ sleep_total
         (snd (with_retry coro_factory max_retries base_delay exponential w))
       == base_delay * (if exponential then inject_Z (2 ^ Z.of_nat k - 1)
                        else inject_Z (Z.of_nat k))
    /\ ((exists a,
            fst (fst (with_retry coro_factory max_retries base_delay
                                 exponential w)) = RetryReturn a)
        \/ (exists e,
               fst (fst (with_retry coro_factory max_retries base_delay
                                    exponential w)) = RetryRaise e)).
Proof.
  intros Hmax Hrep.
  assert (Hsmall : exponential = true -> max_retries <= 1024)
    by (intros Hx; exact (proj1 (Hrep Hx))).
  unfold with_retry.
  replace (Z.to_nat (max_retries + 1)) with (S (Z.to_nat max_retries)) by lia.
  destruct (first_return_or_all_raise (Z.to_nat max_retries) w)
    as [(k & a & Hk & Hfail & Hret)|Hall].
  - exists k.
    pose proof (RetryFacts.retry_loop_returns coro_factory max_retries
                  base_delay exponential k (S (Z.to_nat max_retries)) 0%nat
                  None w [] a Hsmall ltac:(lia) ltac:(lia) Hfail Hret)
      as Hrun.
    change (Z.of_nat 0) with 0 in Hrun. rewrite Hrun.
    cbn [fst snd app]. fold (blog k).
    repeat split; [exact Hk|apply backoff_log_invocations
                   |apply backoff_log_sleep_total|].
    left. now exists a.
  - destruct (Hall (Z.to_nat max_retries) (Nat.le_refl _)) as [e He].
    exists (Z.to_nat max_retries).
    pose proof (RetryFacts.retry_loop_exhausted coro_factory max_retries
                  base_delay exponential (Z.to_nat max_retries) 0%nat None w
                  [] e Hsmall ltac:(lia)
                  (fun j Hj => Hall j (Nat.lt_le_incl _ _ Hj)) He) as Hrun.
    change (Z.of_nat 0) with 0 in Hrun. rewrite Hrun.
    cbn [fst snd app]. fold (blog (Z.to_nat max_retries)).
    repeat split; [lia|apply backoff_log_invocations
                   |apply backoff_log_sleep_total|].
    right. now exists e.
Qed.
End RetryMore.

Lemma with_retry_total_backoff_witness :
  exists k : nat,
    (k <= 2)%nat
    /\ snd (with_retry flaky 2 1 true 0%nat) = backoff_log 1 true k
    /\ invocations (snd (with_retry flaky 2 1 true 0%nat)) = S k
    /\ sleep_total (snd (with_retry flaky 2 1 true 0%nat))
       == 1 * inject_Z (2 ^ Z.of_nat k - 1)
    /\ ((exists a,
            fst (fst (with_retry flaky 2 1 true 0%nat)) = RetryReturn a)
        \/ (exists e,
               fst (fst (with_retry flaky 2 1 true 0%nat)) = RetryRaise e)).
Proof.
  exact (with_retry_total_backoff flaky 2 1 true 0%nat ltac:(lia)
           ltac:(intros _; split; [lia|vm_compute; discriminate])).
Defined.

End ResilienceMoreFacts.

(** ** Claim agreement and contested claims *)

Module ClaimsMoreFacts.
Import PyDict Claims ClaimsDisplay.

Lemma Qsum_unit_bounds (l : list Q) :
  (forall x, In x l -> (0 <= x <= 1)%Q) ->
  (0 <= Qsum l <= inject_Z (Z.of_nat (length l)))%Q.
Proof.
  induction l as [|x l IH]; intros H.
  - split; apply Qle_refl.
  - destruct (H x (or_introl eq_refl)) as [H0 H1].
    destruct IH as [IH0 IH1]; [intros y Hy; apply H; now right|].
    rewrite Qsum_cons. cbn [length].
    rewrite Nat2Z.inj_succ, <- Z.add_1_l, inject_Z_plus. split.
    + rewrite <- (Qplus_0_l 0). now apply Qplus_le_compat.
    + now apply Qplus_le_compat.
Qed.

Lemma Qsum_all_one (l : list Q) :
  (forall x, In x l -> (0 <= x <= 1)%Q) ->
  Qsum l == inject_Z (Z.of_nat (length l)) ->
  forall x, In x l -> x == 1.
Proof.
  induction l as [|y l IH]; intros H Hsum x Hx; [destruct Hx|].
  destruct (H y (or_introl eq_refl)) as [Hy0 Hy1].
  assert (Hl : forall z, In z l -> (0 <= z <= 1)%Q)
    by (intros z Hz; apply H; now right).
  destruct (Qsum_unit_bounds l Hl) as [_ Hb].
  rewrite Qsum_cons in Hsum. cbn [length] in Hsum.
  rewrite Nat2Z.inj_succ, <- Z.add_1_l, inject_Z_plus in Hsum.
  change (inject_Z 1) with 1%Q in Hsum.
  assert (Hy : y == 1).
  { apply Qle_antisym; [exact Hy1|].
    apply Qnot_lt_le. intros Hlt.
    assert (Hc : (y + Qsum l < 1 + inject_Z (Z.of_nat (length l)))%Q)
      by now apply Qplus_lt_le_compat.
    rewrite Hsum in Hc. exact (Qlt_irrefl _ Hc). }
  destruct Hx as [<-|Hx]; [exact Hy|].
  apply IH; [exact Hl| |exact Hx].
  rewrite Hy in Hsum.
  apply (Qplus_inj_l _ _ 1). exact Hsum.
Qed.

Lemma inject_nat_nonzero (n : nat) :
  (0 < n)%nat -> ~ inject_Z (Z.of_nat n) == 0.
Proof. intros Hn. unfold Qeq. simpl. lia. Qed.

Lemma claim_ratio_bounds (c : ExtractedClaim) :
  has_vote c = true -> (0 <= claim_ratio c <= 1)%Q.
Proof.
  intros Hv. unfold claim_ratio.
  set (s := length (supporting_models c)).
  set (k := length (contradicting_models c)).
  assert (Hpos : (0 < s + k)%nat).
  { unfold has_vote in Hv. subst s k.
    destruct (supporting_models c), (contradicting_models c);
      simpl; try discriminate; lia. }
  assert (Hd : (0 < inject_Z (Z.of_nat (s + k)))%Q).
  { change 0%Q with (inject_Z 0). rewrite <- Zlt_Qlt. lia. }
  split.
  - apply Qle_shift_div_l; [exact Hd|]. rewrite Qmult_0_l.
    change 0%Q with (inject_Z 0). rewrite <- Zle_Qle. lia.
  - apply Qle_shift_div_r; [exact Hd|]. rewrite Qmult_1_l.
    rewrite <- Zle_Qle. lia.
Qed.

Lemma claim_ratio_one (c : ExtractedClaim) :
  has_vote c = true ->
  (claim_ratio c == 1 <-> contradicting_models c = []).
Proof.
  intros Hv. unfold claim_ratio.
  set (s := length (supporting_models c)).
  assert (Hpos : (0 < s + length (contradicting_models c))%nat).
  { unfold has_vote in Hv. subst s.
    destruct (supporting_models c), (contradicting_models c);
      simpl; try discriminate; lia. }
  split.
  - intros Heq.
    assert (Hz : Z.of_nat s = Z.of_nat (s + length (contradicting_models c))).
    { apply (proj1 (inject_Z_injective _ _)).
      rewrite <- (Qmult_1_l (inject_Z (Z.of_nat (s + _)))), <- Heq.
      field. now apply inject_nat_nonzero. }
    destruct (contradicting_models c); [reflexivity|simpl in Hz; lia].
  - intros Hc. rewrite Hc in *. simpl in *. rewrite Nat.add_0_r in *. field.
    now apply inject_nat_nonzero.
Qed.

(** X7: the claim agreement always lies in [0,1], and it is 1 exactly when
    no claim has a contradicting entry. *)
Theorem claim_agreement_range (claims : list ExtractedClaim) :
  (0 <= compute_claim_agreement claims <= 1)%Q
  /\ (compute_claim_agreement claims == 1
      <-> forall c, In c claims -> contradicting_models c = []).
Proof.
  rewrite ClaimFacts.compute_claim_agreement_eq. unfold mean_over_voted.
  assert (Hvoted : forall c, In c (List.filter has_vote claims) ->
                             has_vote c = true)
    by (intros c Hc; now apply filter_In in Hc).
  assert (Hin : forall c, In c claims -> has_vote c = true ->
                          In c (List.filter has_vote claims))
    by (intros c Hc Hv; apply filter_In; now split).
  assert (Hnovote : forall c, has_vote c = false ->
                              contradicting_models c = []).
  { intros c. unfold has_vote.
    destruct (supporting_models c), (contradicting_models c);
      try discriminate; reflexivity. }
  destruct (List.filter has_vote claims) as [|v voted] eqn:Ef.
  - split; [split; discriminate|]. split; [|reflexivity].
    intros _ c Hc. apply Hnovote.
    destruct (has_vote c) eqn:Hv; [|reflexivity].
    destruct (Hin c Hc Hv).
  - set (vs := v :: voted) in *.
    assert (Hb : forall x, In x (map claim_ratio vs) -> (0 <= x <= 1)%Q).
    { intros x Hx. apply in_map_iff in Hx as (c & <- & Hc).
      now apply claim_ratio_bounds, Hvoted. }
    destruct (Qsum_unit_bounds _ Hb) as [Hs0 Hs1].
    rewrite length_map in Hs1.
    assert (Hd : (0 < inject_Z (Z.of_nat (length vs)))%Q).
    { change 0%Q with (inject_Z 0). rewrite <- Zlt_Qlt.
      subst vs. cbn [length]. lia. }
    split; [split|split].
    + apply Qle_shift_div_l; [exact Hd|]. now rewrite Qmult_0_l.
    + apply Qle_shift_div_r; [exact Hd|]. now rewrite Qmult_1_l.
    + intros Hone c Hc.
      destruct (has_vote c) eqn:Hv; [|now apply Hnovote].
      apply claim_ratio_one; [exact Hv|].
      apply (Qsum_all_one _ Hb).
      * rewrite length_map.
        rewrite <- (Qmult_1_l (inject_Z (Z.of_nat (length vs)))), <- Hone.
        field. intros H0. rewrite H0 in Hd. exact (Qlt_irrefl _ Hd).
      * apply in_map. now apply Hin.
    + intros Hnone.
      assert (Hall : Qsum (map claim_ratio vs)
                     == inject_Z (Z.of_nat (length vs))).
      { clear Hb Hs0 Hs1 Hd.
        assert (Hvs : forall c, In c vs ->
                        has_vote c = true /\ contradicting_models c = []).
        { intros c Hc. split; [now apply Hvoted|].
          apply Hnone. rewrite <- Ef in Hc.
          now apply filter_In in Hc. }
        clearbody vs. clear Ef Hvoted Hin.
        induction vs as [|c vs IH]; [reflexivity|].
        cbn [map length]. rewrite Qsum_cons, IH.
        - destruct (Hvs c (or_introl eq_refl)) as [Hv Hc].
          rewrite (proj2 (claim_ratio_one c Hv) Hc).
          rewrite Nat2Z.inj_succ, <- Z.add_1_l, inject_Z_plus. reflexivity.
        - intros c' Hc'. apply Hvs. now right. }
      rewrite Hall. field.
      intros H0. rewrite H0 in Hd. exact (Qlt_irrefl _ Hd).
Qed.

Lemma contested_loop (claims : list ExtractedClaim)
    (acc : list ExtractedClaim) :
  fold_left
    (fun contested claim =>
       if truthy (contradicting_models claim)
          && truthy (supporting_models claim)
       then contested ++ [claim]
       else contested)
    claims acc
  = acc ++ List.filter (fun c => truthy (contradicting_models c)
                                 && truthy (supporting_models c)) claims.
Proof.
  revert acc. induction claims as [|c claims IH]; intros acc; simpl.
  - now rewrite app_nil_r.
  - rewrite IH. destruct (_ && _); [|reflexivity].
    now rewrite <- app_assoc.
Qed.

Lemma format_loop (label_to_model : dict string)
    (claims : list ExtractedClaim) (acc : list DisplayedClaim) :
  fold_left
    (fun formatted c =>
       formatted
       ++ [ {| shown_claim := claim c;
               shown_supporting :=
                 model_names label_to_model (supporting_models c);
               shown_contradicting :=
                 model_names label_to_model (contradicting_models c);
               shown_confidence := confidence c;
               shown_status := verification_status c;
               shown_source := source c |} ])
    claims acc
  = acc ++ format_claims_for_display claims label_to_model.
Proof.
  unfold format_claims_for_display.
  revert acc. induction claims as [|c claims IH]; intros acc; simpl.
  - now rewrite app_nil_r.
  - rewrite IH, (IH [_]). now rewrite <- app_assoc.
Qed.

Lemma format_cons (label_to_model : dict string) (c : ExtractedClaim)
    (claims : list ExtractedClaim) :
  format_claims_for_display (c :: claims) label_to_model
  = format_claims_for_display [c] label_to_model
    ++ format_claims_for_display claims label_to_model.
Proof.
  unfold format_claims_for_display at 1. simpl. now rewrite format_loop.
Qed.

(** X8: [identify_contested_claims] keeps, in order, exactly the claims
    with both a supporting and a contradicting entry, while the contested
    list of [run_enhanced_council] is the display of every claim with a
    contradicting entry: it contains each claim the former keeps, and also
    the claims that are contradicted without any supporter. *)
Theorem contested_claims_two_notions (claims : list ExtractedClaim)
    (label_to_model : dict string) :
  identify_contested_claims claims
  = List.filter (fun c => truthy (contradicting_models c)
                          && truthy (supporting_models c)) claims
  /\ council_contested (format_claims_for_display claims label_to_model)
     = format_claims_for_display
         (List.filter (fun c => truthy (contradicting_models c)) claims)
         label_to_model
  /\ (forall c, In c (identify_contested_claims claims) ->
                In c (List.filter (fun c => truthy (contradicting_models c))
                                  claims))
  /\ (forall c,
        supporting_models c = [] -> contradicting_models c <> [] ->
        identify_contested_claims [c] = []
        /\ length (council_contested
                     (format_claims_for_display [c] label_to_model))
           = 1%nat).
Proof.
  assert (H1 : identify_contested_claims claims
               = List.filter (fun c => truthy (contradicting_models c)
                                       && truthy (supporting_models c))
                             claims)
    by (unfold identify_contested_claims; now rewrite contested_loop).
  split; [exact H1|]. split; [|split].
  - induction claims as [|c claims IH]; [reflexivity|].
    rewrite format_cons. unfold council_contested in *.
    rewrite List.filter_app. cbn [List.filter].
    rewrite IH; [|unfold identify_contested_claims; now rewrite contested_loop].
    unfold format_claims_for_display at 1. cbn [fold_left app].
    cbn [List.filter shown_contradicting]. unfold model_names at 2.
    destruct (contradicting_models c) as [|l ls] eqn:Ec; cbn [map truthy].
    + reflexivity.
    + rewrite format_cons. unfold format_claims_for_display at 2.
      cbn [fold_left app]. now rewrite Ec.
  - intros c. rewrite H1, !filter_In. intros [Hc Hb].
    apply andb_true_iff in Hb as [Hb _]. now split.
  - intros c Hs Hc. unfold identify_contested_claims, council_contested,
      format_claims_for_display, model_names. simpl. rewrite Hs.
    destruct (contradicting_models c); [congruence|]. now split.
Qed.

Lemma contested_claims_two_notions_witness :
  identify_contested_claims [rejected_claim] = []
  /\ length (council_contested
               (format_claims_for_display [rejected_claim] empty))
     = 1%nat.
Proof.
  apply (proj2 (proj2 (proj2 (contested_claims_two_notions [] empty)))).
  - reflexivity.
  - discriminate.
Defined.

End ClaimsMoreFacts.

(** ** More on the calibration store *)

Module CalibrationMoreFacts.
Import PyDict Calibration CalibrationCurves.

Section DictMore.
Context {V : Type}.

Lemma set_In (d : dict V) (k k' : string) (v v' : V) :
  In (k, v) (set d k' v') -> (k = k' /\ v = v') \/ In (k, v) d.
Proof.
  induction d as [|[k0 v0] d IH]; simpl.
  - intros [[= <- <-]|[]]. now left.
  - destruct (String.eqb_spec k0 k') as [->|Hne]; simpl.
    + intros [[= <- <-]|H]; [now left|right; now right].
    + intros [H|H]; [right; now left|].
      destruct (IH H) as [H'|H']; [now left|right; now right].
Qed.

Lemma set_keys_present (d : dict V) (k : string) (v v' : V) :
  get d k = Some v -> keys (set d k v') = keys d.
Proof.
  induction d as [|[k0 v0] d IH]; simpl; [discriminate|].
  destruct (String.eqb_spec k0 k) as [->|Hne]; simpl; [reflexivity|].
  intros H. f_equal. now apply IH.
Qed.

Lemma set_keys_incl (d : dict V) (k k' : string) (v : V) :
  In k (keys (set d k' v)) -> k = k' \/ In k (keys d).
Proof.
  induction d as [|[k0 v0] d IH]; simpl.
  - intros [<-|[]]. now left.
  - destruct (String.eqb_spec k0 k') as [->|Hne]; simpl.
    + intros [<-|H]; [right; now left|right; now right].
    + intros [<-|H]; [right; now left|].
      destruct (IH H) as [H'|H']; [now left|right; now right].
Qed.
End DictMore.

Section WithTracker.
Variable sha256_hex16 : string -> string.
Variable str_lower : string -> string.
Variable str_strip : string -> string.
Variable str_split : string -> list string.
Variable str_len : string -> Z.
Variable str_contains : string -> string -> bool.

Abbreviation hash := (query_hash_of sha256_hex16).
Abbreviation predict := (record_prediction sha256_hex16).
Abbreviation check :=
  (_check_correctness str_lower str_strip str_split str_len str_contains).
Abbreviation outcome :=
  (record_outcome sha256_hex16 str_lower str_strip str_split str_len
                  str_contains).
Abbreviation filled :=
  (backfilled str_lower str_strip str_split str_len str_contains).
Abbreviation reach :=
  (reachable sha256_hex16 str_lower str_strip str_split str_len
             str_contains).

(** X9: the lenient matcher accepts a prediction equal to the ground truth
    and does not depend on which of its two arguments is which. *)
Theorem check_correctness_symmetric (pred truth : string) :
  _check_correctness str_lower str_strip str_split str_len str_contains
                     pred pred = true
  /\ _check_correctness str_lower str_strip str_split str_len str_contains
                        pred truth
     = _check_correctness str_lower str_strip str_split str_len str_contains
                          truth pred.
Proof.
  unfold _check_correctness. split; [now rewrite String.eqb_refl|].
  set (p := str_strip (str_lower pred)).
  set (t := str_strip (str_lower truth)).
  rewrite (String.eqb_sym t p).
  destruct (String.eqb p t); [reflexivity|].
  rewrite (orb_comm (str_contains p t)).
  destruct (str_contains t p || str_contains p t); [reflexivity|].
  set (pf := if String.eqb p "" then "" else hd "" (str_split p)).
  set (tf := if String.eqb t "" then "" else hd "" (str_split t)).
  rewrite (String.eqb_sym tf pf).
  destruct (String.eqb_spec pf tf) as [->|_]; reflexivity.
Qed.

Lemma table_eq (a b : table) :
  rows a = rows b -> last_id a = last_id b -> a = b.
Proof. destruct a, b. simpl. now intros -> ->. Qed.

Lemma filled_twice h truth truth' r :
  filled h truth' (filled h truth r) = filled h truth' r.
Proof.
  unfold backfilled. destruct (String.eqb (query_hash r) h) eqn:E.
  - cbn [query_hash with_outcome]. now rewrite E.
  - now rewrite E.
Qed.

(** X10: recording an outcome for a query replaces the outcome recorded
    before for it; recording the same outcome twice is the same as
    recording it once. *)
Theorem record_outcome_overwrites (db : table) (query truth truth' : string) :
  reach db ->
  outcome (outcome db query truth) query truth' = outcome db query truth'
  /\ outcome (outcome db query truth) query truth = outcome db query truth.
Proof.
  intros Hreach.
  assert (H : forall t1 t2,
             outcome (outcome db query t1) query t2 = outcome db query t2).
  { intros t1 t2.
    pose proof (CalibrationFacts.reachable_well_keyed _ _ _ _ _ _ _ Hreach)
      as Hwk.
    pose proof (CalibrationFacts.well_keyed_outcome sha256_hex16 str_lower
                  str_strip str_split str_len str_contains db query t1 Hwk)
      as (Hid1 & _ & _).
    destruct Hwk as (Hid & _ & _).
    pose proof (CalibrationFacts.record_outcome_rows sha256_hex16 str_lower
                  str_strip str_split str_len str_contains _ query t2 Hid1)
      as E12.
    pose proof (CalibrationFacts.record_outcome_rows sha256_hex16 str_lower
                  str_strip str_split str_len str_contains db query t1 Hid)
      as E1.
    pose proof (CalibrationFacts.record_outcome_rows sha256_hex16 str_lower
                  str_strip str_split str_len str_contains db query t2 Hid)
      as E2.
    assert (Hrows : rows (outcome (outcome db query t1) query t2)
                    = rows (outcome db query t2)).
    { rewrite E12, E1, E2, map_map. apply map_ext. intros r.
      apply filled_twice. }
    apply table_eq; [exact Hrows|reflexivity]. }
  split; apply H.
Qed.

Lemma outcome_columns (db : table) :
  reach db ->
  forall r, In r (rows db) ->
    (ground_truth r = None /\ correct r = None)
    \/ (exists truth,
          ground_truth r = Some truth
          /\ correct r = Some (if check (prediction r) truth then 1 else 0)).
Proof.
  induction 1 as [|db m query conf pred now Hreach IH
                  |db query truth Hreach IH]; intros r Hr.
  - destruct Hr.
  - unfold record_prediction in Hr. cbn [rows] in Hr.
    apply in_app_iff in Hr as [Hr|[<-|[]]].
    + apply filter_In in Hr as [Hr _]. now apply IH.
    + left. now split.
  - pose proof (CalibrationFacts.reachable_well_keyed _ _ _ _ _ _ _ Hreach)
      as (Hid & _ & _).
    rewrite (CalibrationFacts.record_outcome_rows sha256_hex16 str_lower
               str_strip str_split str_len str_contains db query truth Hid)
      in Hr.
    apply in_map_iff in Hr as (r0 & <- & Hr0).
    unfold backfilled. destruct (String.eqb (query_hash r0) (hash query)).
    + right. exists truth. now split.
    + now apply IH.
Qed.

(** X11: in every table the calls can build, [ground_truth] and [correct]
    are set together, and [correct] is 1 or 0 as the matcher accepts or
    rejects the row's own prediction against its ground truth. *)
Theorem outcome_columns_consistent (db : table) :
  reach db ->
  forall r, In r (rows db) ->
    (ground_truth r = None /\ correct r = None)
    \/ (exists truth,
          ground_truth r = Some truth
          /\ correct r = Some (if check (prediction r) truth then 1 else 0)).
Proof. exact (outcome_columns db). Qed.

Lemma completed_rows_In (db : table) (m : string) (conf : Q) (c : Z) :
  In (conf, c) (completed_rows db m) ->
  exists r, In r (rows db) /\ model r = m
            /\ stated_confidence r = conf /\ correct r = Some c.
Proof.
  unfold completed_rows. rewrite in_flat_map. intros (r & Hr & Hin).
  exists r. destruct (String.eqb_spec (model r) m) as [Hm|_]; [|destruct Hin].
  destruct (correct r) as [c'|]; [|destruct Hin].
  destruct Hin as [[= <- <-]|[]]. now repeat split.
Qed.

Lemma completed_rows_flag (db : table) (m : string) (conf : Q) (c : Z) :
  reach db -> In (conf, c) (completed_rows db m) -> c = 0 \/ c = 1.
Proof.
  intros Hreach Hin.
  apply completed_rows_In in Hin as (r & Hr & _ & _ & Hc).
  destruct (outcome_columns db Hreach r Hr) as [[_ Hn]|(t & _ & Ht)];
    [congruence|].
  rewrite Ht in Hc. injection Hc as <-.
  destruct (check (prediction r) t); [now right|now left].
Qed.

(** X12: [get_model_accuracy] is [None] exactly when the model has no row
    with an outcome, and otherwise a fraction in [0,1]. *)
Theorem model_accuracy_range (db : table) (m : string) :
  reach db ->
  (get_model_accuracy db m = None <-> completed_rows db m = [])
  /\ forall a, get_model_accuracy db m = Some a -> (0 <= a <= 1)%Q.
Proof.
  intros Hreach. unfold get_model_accuracy.
  pose proof (completed_rows_flag db m) as Hflag.
  destruct (completed_rows db m) as [|row0 completed]; [now split|].
  set (cs := row0 :: completed) in *.
  split; [split; discriminate|]. intros a [= <-].
  assert (Hb : forall x, In x (map (fun '(_, c) => inject_Z c) cs) ->
                         (0 <= x <= 1)%Q).
  { intros x Hx. apply in_map_iff in Hx as ([conf c] & <- & Hc).
    destruct (Hflag conf c Hreach Hc) as [-> | ->]; split; discriminate. }
  destruct (ClaimsMoreFacts.Qsum_unit_bounds _ Hb) as [H0 H1].
  rewrite length_map in H1.
  assert (Hd : (0 < inject_Z (Z.of_nat (length cs)))%Q).
  { change 0%Q with (inject_Z 0). rewrite <- Zlt_Qlt.
    subst cs. cbn [length]. lia. }
  split.
  - apply Qle_shift_div_l; [exact Hd|]. now rewrite Qmult_0_l.
  - apply Qle_shift_div_r; [exact Hd|]. now rewrite Qmult_1_l.
Qed.
End WithTracker.

Section WithCurve.
Variable sha256_hex16 : string -> string.
Variable str_lower : string -> string.
Variable str_strip : string -> string.
Variable str_split : string -> list string.
Variable str_len : string -> Z.
Variable str_contains : string -> string -> bool.
Variable round1 : Q -> Q.
Variable format1 : Q -> string.

Abbreviation reach' :=
  (reachable sha256_hex16 str_lower str_strip str_split str_len
             str_contains).
Abbreviation curve := (get_calibration_curve round1 format1).
Abbreviation fresh_buckets := (empty_buckets format1).

Lemma empty_buckets_loop (keys_left : list Z) (d : dict bucket) :
  (forall k b, In (k, b) d -> sound_bucket b) ->
  forall k b,
    In (k, b)
       (fold_left
          (fun d i =>
             set d (format1 (inject_Z i / 10)%Q)
                   {| bucket_correct := 0; bucket_total := 0 |})
          keys_left d) ->
    sound_bucket b.
Proof.
  revert d. induction keys_left as [|i keys_left IH]; intros d Hd k b;
    cbn [fold_left]; [apply Hd|].
  apply IH. intros k' b' Hin.
  apply set_In in Hin as [[_ ->]|Hin]; [unfold sound_bucket; simpl; lia|].
  now apply (Hd k').
Qed.

Lemma count_row_sound (bs : dict bucket) (row : Q * Z) :
  (forall k b, In (k, b) bs -> sound_bucket b) ->
  (forall k b, In (k, b) (count_row round1 format1 bs row) -> sound_bucket b)
  /\ keys (count_row round1 format1 bs row) = keys bs.
Proof.
  intros Hbs. destruct row as [conf c]. unfold count_row.
  destruct (get bs _) as [b0|] eqn:E; [|now split].
  split; [|now apply (set_keys_present bs _ b0)].
  intros k b Hin. apply set_In in Hin as [[_ ->]|Hin]; [|now apply (Hbs k)].
  apply get_In in E. apply Hbs in E. unfold sound_bucket in *.
  destruct (c =? 0); simpl; lia.
Qed.

Lemma count_rows_sound (completed : list (Q * Z)) (bs : dict bucket) :
  (forall k b, In (k, b) bs -> sound_bucket b) ->
  (forall k b,
      In (k, b) (fold_left (count_row round1 format1) completed bs) ->
      sound_bucket b)
  /\ keys (fold_left (count_row round1 format1) completed bs) = keys bs.
Proof.
  revert bs. induction completed as [|row completed IH]; intros bs Hbs;
    cbn [fold_left]; [now split|].
  destruct (count_row_sound bs row Hbs) as [Hs Hk].
  destruct (IH _ Hs) as [Hs' Hk']. split; [exact Hs'|congruence].
Qed.

Lemma bucket_accuracies_loop (bs : list (string * bucket)) (acc : dict Q) :
  (forall k b, In (k, b) bs -> sound_bucket b) ->
  forall k a,
    In (k, a)
       (fold_left
          (fun acc '(key, data) =>
             if 0 <? bucket_total data
             then set acc key (inject_Z (bucket_correct data)
                               / inject_Z (bucket_total data))%Q
             else acc)
          bs acc) ->
    In (k, a) acc
    \/ (In k (keys bs) /\ (0 <= a <= 1)%Q).
Proof.
  revert acc. induction bs as [|[key data] bs IH]; intros acc Hbs k a;
    cbn [fold_left]; [now left|].
  intros Hin.
  apply IH in Hin; [|intros k' b' H'; apply (Hbs k'); now right].
  destruct Hin as [Hin|[Hin Ha]]; [|right; split; [now right|exact Ha]].
  destruct (Z.ltb_spec 0 (bucket_total data)) as [Hpos|_]; [|now left].
  apply set_In in Hin as [[-> ->]|Hin]; [|now left].
  right. split; [now left|].
  assert (Hs : sound_bucket data) by (apply (Hbs key); now left).
  unfold sound_bucket in Hs.
  assert (Hd : (0 < inject_Z (bucket_total data))%Q)
    by (change 0%Q with (inject_Z 0); now rewrite <- Zlt_Qlt).
  split.
  - apply Qle_shift_div_l; [exact Hd|]. rewrite Qmult_0_l.
    change 0%Q with (inject_Z 0). rewrite <- Zle_Qle. lia.
  - apply Qle_shift_div_r; [exact Hd|]. rewrite Qmult_1_l.
    rewrite <- Zle_Qle. lia.
Qed.

Lemma brier_loop (completed : list (Q * Z)) (acc : Q) :
  (forall conf c, In (conf, c) completed ->
                  (0 <= conf <= 1)%Q /\ (c = 0 \/ c = 1)) ->
  (acc <= fold_left (fun acc '(conf, c) => acc + (conf - inject_Z c) ^ 2)
                    completed acc
       <= acc + inject_Z (Z.of_nat (length completed)))%Q.
Proof.
  revert acc. induction completed as [|[conf c] completed IH]; intros acc H.
  - simpl. split; [apply Qle_refl|]. rewrite Qplus_0_r. apply Qle_refl.
  - cbn [fold_left length].
    destruct (H conf c (or_introl eq_refl)) as [[H0 H1] Hc].
    destruct (IH (acc + (conf - inject_Z c) ^ 2)%Q) as [IH0 IH1];
      [intros conf' c' Hin; apply H; now right|].
    assert (Ht : (0 <= (conf - inject_Z c) ^ 2 <= 1)%Q).
    { simpl. destruct Hc as [-> | ->].
      - change (inject_Z 0) with 0%Q. split; nra.
      - change (inject_Z 1) with 1%Q. split; nra. }
    destruct Ht as [Ht0 Ht1].
    rewrite Nat2Z.inj_succ, <- Z.add_1_l, inject_Z_plus.
    change (inject_Z 1) with 1%Q. split; lra.
Qed.

(** X13: the calibration curve counts the rows of the model that have an
    outcome; with none it is the empty curve without a Brier score.
    Otherwise every bucket accuracy lies in [0,1] and is filed under one of
    the six bucket keys, and the Brier score lies in [0,1] when the stored
    confidences do. *)
Theorem calibration_curve_bounds (db : table) (m : string) :
  total_predictions (curve db m) = Z.of_nat (length (completed_rows db m))
  /\ (completed_rows db m = [] ->
      buckets (curve db m) = empty /\ brier_score (curve db m) = None)
  /\ (forall k a, In (k, a) (buckets (curve db m)) ->
                  (0 <= a <= 1)%Q /\ In k (keys fresh_buckets))
  /\ (reach' db ->
      (forall r, In r (rows db) -> model r = m ->
                 (0 <= stated_confidence r <= 1)%Q) ->
      forall b, brier_score (curve db m) = Some b -> (0 <= b <= 1)%Q).
Proof.
  unfold get_calibration_curve.
  pose proof (completed_rows_In db m) as Hin.
  pose proof (completed_rows_flag sha256_hex16 str_lower str_strip str_split
                str_len str_contains db m) as Hflag.
  destruct (completed_rows db m) as [|row0 completed].
  { repeat split; try reflexivity; intros; try contradiction; discriminate. }
  set (cs := row0 :: completed) in *. cbn [total_predictions buckets
                                           brier_score].
  split; [reflexivity|]. split; [discriminate|]. split.
  - intros k a Hka.
    assert (Hfresh : forall k b, In (k, b) fresh_buckets -> sound_bucket b).
    { apply (empty_buckets_loop [5; 6; 7; 8; 9; 10] empty).
      intros k' b' []. }
    destruct (count_rows_sound cs fresh_buckets Hfresh) as [Hs Hk].
    apply (bucket_accuracies_loop _ empty Hs) in Hka as [[]|[Hk' Ha]].
    split; [exact Ha|]. unfold keys in *. now rewrite <- Hk.
  - intros Hreach Hconf b [= <-].
    assert (Hd : (0 < inject_Z (Z.of_nat (length cs)))%Q).
    { change 0%Q with (inject_Z 0). rewrite <- Zlt_Qlt.
      subst cs. cbn [length]. lia. }
    destruct (brier_loop cs 0) as [H0 H1].
    { intros conf c Hc. split; [|now apply (Hflag conf c)].
      apply Hin in Hc as (r & Hr & Hm & <- & _). now apply Hconf. }
    rewrite Qplus_0_l in H1. split.
    + apply Qle_shift_div_l; [exact Hd|]. now rewrite Qmult_0_l.
    + apply Qle_shift_div_r; [exact Hd|]. now rewrite Qmult_1_l.
Qed.
End WithCurve.

Lemma two_outcomes_reachable :
  reachable plain_hash plain_same plain_same plain_split plain_len
            plain_contains two_outcomes.
Proof.
  unfold two_outcomes. constructor.
  exact CalibrationFacts.two_predictions_reachable.
Qed.

Lemma record_outcome_overwrites_witness :
  record_outcome plain_hash plain_same plain_same plain_split plain_len
    plain_contains two_outcomes "capital of France?" "Lyon"
  = record_outcome plain_hash plain_same plain_same plain_split plain_len
      plain_contains two_predictions "capital of France?" "Lyon".
Proof.
  apply (record_outcome_overwrites plain_hash plain_same plain_same
           plain_split plain_len plain_contains two_predictions
           "capital of France?" "Paris" "Lyon").
  exact CalibrationFacts.two_predictions_reachable.
Defined.

Lemma outcome_columns_consistent_witness :
  Forall (fun r =>
            (ground_truth r = None /\ correct r = None)
            \/ (exists truth,
                  ground_truth r = Some truth
                  /\ correct r
                     = Some (if _check_correctness plain_same plain_same
                                  plain_split plain_len plain_contains
                                  (prediction r) truth
                             then 1 else 0)))
         (rows two_outcomes).
Proof.
  apply List.Forall_forall.
  exact (outcome_columns_consistent plain_hash plain_same plain_same
           plain_split plain_len plain_contains two_outcomes
           two_outcomes_reachable).
Defined.

Lemma model_accuracy_range_witness :
  exists a, get_model_accuracy two_outcomes "gpt" = Some a
            /\ (0 <= a <= 1)%Q.
Proof.
  eexists. split; [reflexivity|].
  apply (proj2 (model_accuracy_range plain_hash plain_same plain_same
                  plain_split plain_len plain_contains two_outcomes "gpt"
                  two_outcomes_reachable)).
  reflexivity.
Defined.

Lemma calibration_curve_bounds_witness :
  exists b,
    brier_score (get_calibration_curve tenth_round tenth_format
                   two_outcomes "gpt") = Some b
    /\ (0 <= b <= 1)%Q.
Proof.
  eexists. split; [reflexivity|].
  apply (proj2 (proj2 (proj2
           (calibration_curve_bounds plain_hash plain_same plain_same
              plain_split plain_len plain_contains tenth_round tenth_format
              two_outcomes "gpt")))).
  - exact two_outcomes_reachable.
  - intros r [<-|[<-|[]]] _; split; discriminate.
  - reflexivity.
Defined.

End CalibrationMoreFacts.

(** ** Expertise weights, domains and disagreement *)

Module AggregationFacts.
Import PyDict Evaluation Aggregation.

Section DictSet.
Context {V : Type}.

Lemma get_set_same (d : dict V) (k : string) (v : V) :
  get (set d k v) k = Some v.
Proof.
  induction d as [|[k0 v0] d IH]; simpl.
  - now rewrite String.eqb_refl.
  - destruct (String.eqb k0 k) eqn:E; simpl; now rewrite E.
Qed.

Lemma set_set (d : dict V) (k : string) (v v' : V) :
  set (set d k v) k v' = set d k v'.
Proof.
  induction d as [|[k0 v0] d IH]; simpl.
  - now rewrite String.eqb_refl.
  - destruct (String.eqb k0 k) eqn:E; simpl; rewrite E; [reflexivity|].
    now rewrite IH.
Qed.

Lemma get_Some_key (d : dict V) (k : string) (v : V) :
  get d k = Some v -> In k (keys d).
Proof.
  intros H. apply get_In in H. unfold keys.
  change k with (fst (k, v)). now apply in_map.
Qed.

Lemma key_get_Some (d : dict V) (k : string) :
  In k (keys d) -> exists v, get d k = Some v.
Proof.
  intros H. destruct (get d k) as [v|] eqn:E; [now exists v|].
  now apply get_None_not_key in E.
Qed.

Lemma set_keys (d : dict V) (k : string) (v : V) :
  keys (set d k v) = if mem d k then keys d else keys d ++ [k].
Proof.
  unfold mem. induction d as [|[k0 v0] d IH]; simpl; [reflexivity|].
  destruct (String.eqb k0 k) eqn:E; simpl; [reflexivity|].
  rewrite IH. now destruct (get d k).
Qed.

Lemma set_keys_NoDup (d : dict V) (k : string) (v : V) :
  List.NoDup (keys d) -> List.NoDup (keys (set d k v)).
Proof.
  intros Hnd. rewrite set_keys. unfold mem.
  destruct (get d k) eqn:E; [exact Hnd|].
  apply List.NoDup_app; [exact Hnd|constructor; [intros []|constructor]|].
  intros x Hx [<-|[]]. now apply get_None_not_key in E.
Qed.

Lemma set_In_sharp (d : dict V) (k k' : string) (v v' : V) :
  List.NoDup (keys d) ->
  In (k, v) (set d k' v') ->
  (k = k' /\ v = v') \/ (k <> k' /\ In (k, v) d).
Proof.
  induction d as [|[k0 v0] d IH]; simpl; intros Hnd.
  - intros [[= <- <-]|[]]. now left.
  - inversion Hnd as [|? ? Hnotin Hnd']; subst.
    destruct (String.eqb_spec k0 k') as [->|Hne]; simpl.
    + intros [[= <- <-]|H]; [now left|].
      right. split; [|now right].
      intros ->. apply Hnotin. unfold keys.
      change k' with (fst (k', v)). now apply in_map.
    + intros [[= <- <-]|H]; [right; split; [exact Hne|now left]|].
      destruct (IH Hnd' H) as [H'|[H1 H2]]; [now left|].
      right. split; [exact H1|now right].
Qed.
End DictSet.

(** *** Expertise weights *)

Lemma table_weights_in_range :
  forallb (fun e => forallb (fun kw => weight_in_range (snd kw)) (snd e))
          EXPERTISE_WEIGHTS = true.
Proof. reflexivity. Qed.

Lemma table_entry_facts (weights : dict Q) (key : string) (w : Q) :
  In weights (values EXPERTISE_WEIGHTS) -> In (key, w) weights ->
  (0.4 <= w <= 0.9)%Q
  /\ In key ["deepseek"; "gemini"; "llama"; "gemma"; "gpt"; "claude";
             "mistral"].
Proof.
  intros Hw Hin.
  assert (Hall : forallb
                   (fun e =>
                      forallb
                        (fun kw =>
                           weight_in_range (snd kw)
                           && existsb (String.eqb (fst kw))
                                ["deepseek"; "gemini"; "llama"; "gemma";
                                 "gpt"; "claude"; "mistral"])
                        (snd e))
                   EXPERTISE_WEIGHTS = true) by reflexivity.
  rewrite forallb_forall in Hall.
  unfold values in Hw. apply in_map_iff in Hw as ([name table] & He & Hine).
  specialize (Hall _ Hine). cbn [snd] in He, Hall.
  rewrite He, forallb_forall in Hall.
  specialize (Hall _ Hin). cbn [fst snd] in Hall.
  apply andb_true_iff in Hall as [Hr Hk].
  unfold weight_in_range in Hr. apply andb_true_iff in Hr as [H1 H2].
  apply Qle_bool_iff in H1, H2. split; [now split|].
  apply existsb_exists in Hk as (k & Hk & Ek).
  apply String.eqb_eq in Ek. now subst.
Qed.

Section WithLower.
Variable str_lower : string -> string.

Abbreviation weight_of := (get_model_weight str_lower).
Abbreviation classify := (classify_query_domain str_lower).

(** X14: an expertise weight is always between 0.4 and 0.9; a domain
    without a table of its own is weighted as "factual"; a model id that
    contains none of the seven family names gets 0.5. *)
Theorem model_weight_range (model_id domain : string) :
  (0.4 <= weight_of model_id domain <= 0.9)%Q
  /\ (get EXPERTISE_WEIGHTS domain = None ->
      weight_of model_id domain = weight_of model_id "factual")
  /\ ((forall family,
          In family ["deepseek"; "gemini"; "llama"; "gemma"; "gpt"; "claude";
                     "mistral"] ->
          str_in family (str_lower model_id) = false) ->
      weight_of model_id domain = 0.5%Q).
Proof.
  unfold get_model_weight.
  set (weights := match get EXPERTISE_WEIGHTS domain with
                  | Some weights => weights
                  | None => get_default EXPERTISE_WEIGHTS "factual" empty
                  end).
  assert (Hw : In weights (values EXPERTISE_WEIGHTS)).
  { subst weights. destruct (get EXPERTISE_WEIGHTS domain) as [w|] eqn:E.
    - apply get_In in E. unfold values.
      change w with (snd (domain, w)). now apply in_map.
    - simpl. do 3 right. now left. }
  split; [|split].
  - destruct (find _ weights) as [[key w]|] eqn:Ef;
      [|split; discriminate].
    apply find_some in Ef as [Hin _].
    exact (proj1 (table_entry_facts weights key w Hw Hin)).
  - intros Hnone. subst weights. now rewrite Hnone.
  - intros Hno.
    destruct (find _ weights) as [[key w]|] eqn:Ef; [|reflexivity].
    apply find_some in Ef as [Hin Hmatch]. exfalso.
    rewrite (Hno key (proj2 (table_entry_facts weights key w Hw Hin)))
      in Hmatch.
    discriminate.
Qed.

(** X15: the domain of a query is one of the five domains that have a
    weight table; a query with a code keyword is "code" whatever else it
    contains; and the domain is "factual" exactly when the lowered query
    contains no keyword of the four families. *)
Theorem classify_query_domain_cases (query : string) :
  In (classify query) ["code"; "math"; "creative"; "reasoning"; "factual"]
  /\ mem EXPERTISE_WEIGHTS (classify query) = true
  /\ (any_in code_keywords (str_lower query) = true ->
      classify query = "code")
  /\ (classify query = "factual" <->
      any_in code_keywords (str_lower query) = false
      /\ any_in math_keywords (str_lower query) = false
      /\ any_in creative_keywords (str_lower query) = false
      /\ any_in reasoning_keywords (str_lower query) = false).
Proof.
  unfold classify_query_domain.
  destruct (any_in code_keywords _), (any_in math_keywords _),
           (any_in creative_keywords _), (any_in reasoning_keywords _);
    (split; [simpl; tauto|]); (split; [reflexivity|]);
    (split; [intros; trivial; discriminate|]);
    split; try discriminate; try tauto; intuition discriminate.
Qed.
End WithLower.

Lemma model_weight_range_witness :
  get_model_weight (fun s => s) "openai/gpt-4o" "poetry"
  = get_model_weight (fun s => s) "openai/gpt-4o" "factual"
  /\ get_model_weight (fun s => s) "qwen/qwen-2" "math" = 0.5%Q.
Proof.
  split.
  - apply (proj1 (proj2 (model_weight_range (fun s => s) "openai/gpt-4o"
                           "poetry"))).
    reflexivity.
  - apply (proj2 (proj2 (model_weight_range (fun s => s) "qwen/qwen-2"
                           "math"))).
    intros family Hf. simpl in Hf.
    intuition (subst; reflexivity).
Defined.

Lemma classify_query_domain_cases_witness :
  classify_query_domain (fun s => s) "prove that my python code is right"
  = "code".
Proof.
  apply (proj1 (proj2 (proj2 (classify_query_domain_cases (fun s => s) _)))).
  reflexivity.
Defined.

(** *** Disagreement and factions *)

Lemma add_to_faction_set (d : dict (list string)) (judge : string)
    (ranking : list string) :
  add_to_faction d judge ranking
  = set d (first_choice ranking)
        (get_default d (first_choice ranking) [] ++ [judge]).
Proof.
  unfold add_to_faction, mem, get_default.
  destruct (get d (first_choice ranking)) eqn:E; [now rewrite E|].
  now rewrite get_set_same, set_set.
Qed.

Lemma supporters_app (processed rest : dict (list string)) (pos : string) :
  supporters (processed ++ rest) pos
  = supporters processed pos ++ supporters rest pos.
Proof. unfold supporters. now rewrite List.filter_app, map_app. Qed.

Lemma supporters_single (judge : string) (ranking : list string)
    (pos : string) :
  supporters [(judge, ranking)] pos
  = if String.eqb (first_choice ranking) pos then [judge] else [].
Proof. unfold supporters. simpl. now destruct (String.eqb _ _). Qed.

Lemma filed_step processed d judge ranking :
  filed processed d ->
  filed (processed ++ [(judge, ranking)]) (add_to_faction d judge ranking).
Proof.
  intros (Hnd & Hmem & Hkeys). rewrite add_to_faction_set.
  set (choice := first_choice ranking).
  assert (Hold : get_default d choice [] = supporters processed choice).
  { unfold get_default. destruct (get d choice) as [old|] eqn:E.
    - apply get_In in E. now apply Hmem in E.
    - unfold supporters. rewrite CalibrationFacts.filter_none; [reflexivity|].
      intros [j l] Hin. simpl. apply String.eqb_neq. intros Heq.
      apply (get_None_not_key _ _ E). rewrite <- Heq. now apply (Hkeys j). }
  split; [now apply set_keys_NoDup|]. split.
  - intros pos members Hin.
    apply (set_In_sharp _ _ _ _ _ Hnd) in Hin as [[-> ->]|[Hne Hin]].
    + rewrite supporters_app, Hold, supporters_single.
      fold choice. rewrite String.eqb_refl.
      split; [reflexivity|]. now destruct (supporters processed choice).
    + destruct (Hmem pos members Hin) as [-> Hne']. split; [|exact Hne'].
      rewrite supporters_app, supporters_single. fold choice.
      destruct (String.eqb_spec choice pos) as [Heq|_]; [congruence|].
      now rewrite app_nil_r.
  - intros j l Hin. rewrite set_keys. apply in_app_iff in Hin as [Hin|Hin].
    + specialize (Hkeys j l Hin). destruct (mem d choice);
        [exact Hkeys|apply in_app_iff; now left].
    + destruct Hin as [[= <- <-]|[]]. fold choice. unfold mem.
      destruct (get d choice) eqn:E.
      * now apply get_Some_key in E.
      * apply in_app_iff. right. now left.
Qed.

Lemma filed_loop rest processed d :
  filed processed d ->
  filed (processed ++ rest)
        (fold_left (fun d '(judge, ranking) => add_to_faction d judge ranking)
                   rest d).
Proof.
  revert processed d. induction rest as [|[judge ranking] rest IH];
    intros processed d H; cbn [fold_left].
  - now rewrite app_nil_r.
  - replace (processed ++ (judge, ranking) :: rest)
      with ((processed ++ [(judge, ranking)]) ++ rest)
      by now rewrite <- app_assoc.
    apply IH. now apply filed_step.
Qed.

(** X16: [detect_disagreement] reports Kendall's W as the agreement score,
    and consensus exactly when W reaches the threshold, then with no
    faction: always for a threshold of 0 or less, never for one above 1. *)
Theorem detect_disagreement_consensus (rankings : dict (list string))
    (threshold : Q) :
  agreement_score (detect_disagreement rankings threshold)
  = compute_kendalls_w rankings
  /\ (has_consensus (detect_disagreement rankings threshold) = true
      <-> (threshold <= compute_kendalls_w rankings)%Q)
  /\ (has_consensus (detect_disagreement rankings threshold) = true ->
      factions (detect_disagreement rankings threshold) = [])
  /\ ((threshold <= 0)%Q ->
      has_consensus (detect_disagreement rankings threshold) = true)
  /\ ((1 < threshold)%Q ->
      has_consensus (detect_disagreement rankings threshold) = false).
Proof.
  pose proof (KendallFacts.kendalls_w_in_unit_interval rankings) as [H0 H1].
  unfold detect_disagreement.
  destruct (Qle_bool threshold (compute_kendalls_w rankings)) eqn:E; simpl.
  - apply Qle_bool_iff in E. repeat split; trivial.
    intros Hgt. exfalso. apply (Qlt_not_le _ _ Hgt).
    now apply Qle_trans with (compute_kendalls_w rankings).
  - assert (Hn : ~ (threshold <= compute_kendalls_w rankings)%Q).
    { intros H. apply Qle_bool_iff in H. congruence. }
    repeat split; trivial; try discriminate.
    + intros H. contradiction.
    + intros Hle. exfalso. apply Hn. now apply Qle_trans with 0%Q.
Qed.

(** X17: without consensus, the factions have pairwise different
    positions, none is empty, the members of a faction are exactly the
    judges whose first choice is its position ("unknown" for an empty
    ranking), in the order of the judges, and every judge is a member of the
    faction of its first choice. *)
Theorem detect_disagreement_factions (rankings : dict (list string))
    (threshold : Q) :
  has_consensus (detect_disagreement rankings threshold) = false ->
  List.NoDup (map position (factions (detect_disagreement rankings threshold)))
  /\ (forall f,
        In f (factions (detect_disagreement rankings threshold)) ->
        models f = supporters rankings (position f) /\ models f <> [])
  /\ (forall judge ranking,
        In (judge, ranking) rankings ->
        exists f,
          In f (factions (detect_disagreement rankings threshold))
          /\ position f = first_choice ranking
          /\ In judge (models f)).
Proof.
  unfold detect_disagreement.
  destruct (Qle_bool threshold (compute_kendalls_w rankings));
    [discriminate|]. intros _. cbn [factions].
  assert (Hempty : filed [] empty).
  { split; [constructor|]. split; [intros ? ? []|intros ? ? []]. }
  pose proof (filed_loop rankings [] empty Hempty) as (Hnd & Hmem & Hkeys).
  simpl app in *.
  set (d := fold_left _ rankings empty) in *.
  split; [|split].
  - rewrite map_map.
    rewrite (map_ext _ fst); [exact Hnd|]. now intros [pos members].
  - intros f Hf. apply in_map_iff in Hf as ([pos members] & <- & Hin).
    simpl. now apply Hmem.
  - intros judge ranking Hin.
    destruct (key_get_Some d _ (Hkeys judge ranking Hin)) as [members Hg].
    apply get_In in Hg.
    exists {| position := first_choice ranking; models := members |}.
    split; [|split; [reflexivity|]].
    + apply in_map_iff. now exists (first_choice ranking, members).
    + simpl. destruct (Hmem _ _ Hg) as [-> _]. unfold supporters.
      apply in_map_iff. exists (judge, ranking). split; [reflexivity|].
      apply filter_In. split; [exact Hin|apply String.eqb_refl].
Qed.

Lemma detect_disagreement_consensus_witness :
  has_consensus (detect_disagreement split_council 0) = true
  /\ has_consensus (detect_disagreement split_council 2) = false.
Proof.
  split.
  - apply (proj1 (proj2 (proj2 (proj2
             (detect_disagreement_consensus split_council 0))))).
    discriminate.
  - apply (proj2 (proj2 (proj2 (proj2
             (detect_disagreement_consensus split_council 2))))).
    reflexivity.
Defined.

Lemma detect_disagreement_factions_witness :
  List.NoDup
    (map position (factions (detect_disagreement split_council 0.5))).
Proof.
  apply (detect_disagreement_factions split_council 0.5). reflexivity.
Defined.

End AggregationFacts.

(** ** Weighted rank aggregation *)

Module RankingFacts.
Import PyDict Aggregation Ranking.

Lemma set_absent {V} (d : dict V) (k : string) (v : V) :
  get d k = None -> set d k v = d ++ [(k, v)].
Proof.
  induction d as [|[k0 v0] d IH]; simpl; [reflexivity|].
  destruct (String.eqb k0 k); [discriminate|]. intros H. now rewrite IH.
Qed.

Lemma not_key_get_None {V} (d : dict V) (k : string) :
  ~ In k (keys d) -> get d k = None.
Proof.
  intros H. destruct (get d k) as [v|] eqn:E; [|reflexivity].
  exfalso. apply H. now apply (AggregationFacts.get_Some_key d k v).
Qed.

(** The initial score table: one zero entry per response, in the order the
    set is iterated. *)
Lemma init_scores_loop (responses : list string) (d : dict score_data) :
  List.NoDup (keys d ++ responses) ->
  fold_left (fun d r => set d r zero_data) responses d
  = d ++ map (fun r => (r, zero_data)) responses.
Proof.
  revert d. induction responses as [|r responses IH]; intros d Hnd; simpl.
  - now rewrite app_nil_r.
  - assert (Hr : ~ In r (keys d)).
    { intros Hin. apply NoDup_remove_2 in Hnd. apply Hnd.
      apply in_app_iff. now left. }
    rewrite (set_absent d r _ (not_key_get_None d r Hr)).
    rewrite IH.
    + now rewrite <- app_assoc.
    + unfold keys in *. rewrite map_app. simpl. now rewrite <- app_assoc.
Qed.

(** *** Responses *)

Lemma update_In (ranking all_responses : list string) (x : string) :
  In x (fold_left Evaluation.set_add ranking all_responses)
  <-> In x all_responses \/ In x ranking.
Proof.
  revert all_responses. induction ranking as [|r ranking IH];
    intros all_responses; simpl; [tauto|].
  rewrite IH, BradleyTerryFacts.set_add_In. intuition.
Qed.

Lemma update_NoDup (ranking all_responses : list string) :
  List.NoDup all_responses ->
  List.NoDup (fold_left Evaluation.set_add ranking all_responses).
Proof.
  revert all_responses. induction ranking as [|r ranking IH];
    intros all_responses H; simpl; [exact H|].
  now apply IH, BradleyTerryFacts.set_add_NoDup.
Qed.

Lemma all_responses_loop (judge_rankings : dict ModelEvaluation)
    (acc : list string) :
  List.NoDup acc ->
  List.NoDup
    (fold_left
       (fun all_responses '(_, eval_result) =>
          fold_left Evaluation.set_add (rankings eval_result) all_responses)
       judge_rankings acc)
  /\ forall x,
       In x (fold_left
               (fun all_responses '(_, eval_result) =>
                  fold_left Evaluation.set_add (rankings eval_result)
                            all_responses)
               judge_rankings acc)
       <-> In x acc
           \/ exists judge eval_result,
                In (judge, eval_result) judge_rankings
                /\ In x (rankings eval_result).
Proof.
  revert acc. induction judge_rankings as [|[j ev] jr IH]; intros acc Hnd;
    cbn [fold_left].
  - split; [exact Hnd|]. intros x. split; [now left|].
    intros [H|(j & ev & [] & _)]. exact H.
  - destruct (IH _ (update_NoDup (rankings ev) acc Hnd)) as [IH1 IH2].
    split; [exact IH1|]. intros x. rewrite IH2, update_In. split.
    + intros [[H|H]|(j' & ev' & Hin & Hx)].
      * now left.
      * right. exists j, ev. split; [now left|exact H].
      * right. exists j', ev'. split; [now right|exact Hx].
    + intros [H|(j' & ev' & [[= <- <-]|Hin] & Hx)].
      * left. now left.
      * left. now right.
      * right. now exists j', ev'.
Qed.

Lemma all_responses_spec (judge_rankings : dict ModelEvaluation) :
  List.NoDup (all_responses_of judge_rankings)
  /\ forall x,
       In x (all_responses_of judge_rankings)
       <-> exists judge eval_result,
             In (judge, eval_result) judge_rankings
             /\ In x (rankings eval_result).
Proof.
  destruct (all_responses_loop judge_rankings [] (List.NoDup_nil _))
    as [H1 H2].
  split; [exact H1|]. intros x. unfold all_responses_of. rewrite H2.
  simpl. tauto.
Qed.

(** *** The scoring loops keep the keys and count the votes *)

Lemma set_totals (scores : dict score_data) (k : string)
    (old new : score_data) :
  get scores k = Some old ->
  keys (set scores k new) = keys scores
  /\ first_total (set scores k new)
     = first_total scores - first old + first new
  /\ last_total (set scores k new) = last_total scores - last old + last new.
Proof.
  unfold first_total, last_total, values.
  induction scores as [|[k0 v0] scores IH]; simpl; [discriminate|].
  destruct (String.eqb k0 k) eqn:E.
  - intros [= ->]. simpl. rewrite !Zsum_cons. repeat split; lia.
  - intros H. destruct (IH H) as (IH1 & IH2 & IH3). simpl.
    rewrite !Zsum_cons, IH1, IH2, IH3. repeat split; lia.
Qed.

Lemma score_response_totals weight conf n scores rank_idx response :
  In response (keys scores) ->
  keys (score_response weight conf n scores (rank_idx, response))
  = keys scores
  /\ first_total (score_response weight conf n scores (rank_idx, response))
     = first_total scores + (if Z.of_nat rank_idx =? 0 then 1 else 0)
  /\ last_total (score_response weight conf n scores (rank_idx, response))
     = last_total scores
       + (if Z.of_nat rank_idx =? Z.of_nat n - 1 then 1 else 0).
Proof.
  intros Hin. destruct (AggregationFacts.key_get_Some _ _ Hin) as [old Hold].
  unfold score_response, get_default. rewrite Hold. cbv zeta.
  match goal with
  | |- context [set scores response ?new] =>
      destruct (set_totals scores response old new Hold) as (H1 & H2 & H3)
  end.
  rewrite H1, H2, H3.
  destruct (Z.of_nat rank_idx =? 0),
           (Z.of_nat rank_idx =? Z.of_nat n - 1); simpl;
    repeat split; lia.
Qed.

Lemma score_loop_totals weight conf n (ranking : list string) :
  forall (k : nat) (scores : dict score_data),
    (forall x, In x ranking -> In x (keys scores)) ->
    (k + length ranking = n)%nat ->
    keys (fold_left (score_response weight conf n)
                    (combine (seq k (length ranking)) ranking) scores)
    = keys scores
    /\ first_total (fold_left (score_response weight conf n)
                      (combine (seq k (length ranking)) ranking) scores)
       = first_total scores
         + (match k, ranking with O, _ :: _ => 1 | _, _ => 0 end)
    /\ last_total (fold_left (score_response weight conf n)
                     (combine (seq k (length ranking)) ranking) scores)
       = last_total scores + (match ranking with [] => 0 | _ => 1 end).
Proof.
  induction ranking as [|x ranking IH]; intros k scores Hin Hlen.
  - simpl. destruct k; repeat split; lia.
  - cbn [length seq combine fold_left].
    destruct (score_response_totals weight conf n scores k x
                (Hin x (or_introl eq_refl))) as (H1 & H2 & H3).
    destruct (IH (S k) (score_response weight conf n scores (k, x)))
      as (I1 & I2 & I3).
    { intros y Hy. rewrite H1. apply Hin. now right. }
    { simpl in Hlen. lia. }
    rewrite I1, I2, I3, H1, H2, H3.
    split; [reflexivity|]. cbn [length] in Hlen. split.
    + destruct (Z.eqb_spec (Z.of_nat k) 0); destruct k; lia.
    + destruct ranking as [|y ranking]; cbn [length] in Hlen;
        destruct (Z.eqb_spec (Z.of_nat k) (Z.of_nat n - 1)); lia.
Qed.

Lemma judge_loop_totals (score_of : string -> ModelEvaluation -> Q)
    (judge_rankings : dict ModelEvaluation) :
  forall scores : dict score_data,
    (forall judge eval_result x,
        In (judge, eval_result) judge_rankings ->
        In x (rankings eval_result) -> In x (keys scores)) ->
    keys (fold_left
            (fun scores '(judge_model, eval_result) =>
               fold_left
                 (score_response (score_of judge_model eval_result)
                                 (confidence eval_result)
                                 (length (rankings eval_result)))
                 (enumerate (rankings eval_result)) scores)
            judge_rankings scores)
    = keys scores
    /\ first_total
         (fold_left
            (fun scores '(judge_model, eval_result) =>
               fold_left
                 (score_response (score_of judge_model eval_result)
                                 (confidence eval_result)
                                 (length (rankings eval_result)))
                 (enumerate (rankings eval_result)) scores)
            judge_rankings scores)
       = first_total scores + Z.of_nat (ranking_judges judge_rankings)
    /\ last_total
         (fold_left
            (fun scores '(judge_model, eval_result) =>
               fold_left
                 (score_response (score_of judge_model eval_result)
                                 (confidence eval_result)
                                 (length (rankings eval_result)))
                 (enumerate (rankings eval_result)) scores)
            judge_rankings scores)
       = last_total scores + Z.of_nat (ranking_judges judge_rankings).
Proof.
  induction judge_rankings as [|[j ev] jr IH]; intros scores Hin.
  - unfold ranking_judges. simpl. repeat split; lia.
  - cbn [fold_left].
    destruct (score_loop_totals (score_of j ev) (confidence ev)
                (length (rankings ev)) (rankings ev) 0 scores)
      as (H1 & H2 & H3).
    { intros x Hx. apply (Hin j ev x); [now left|exact Hx]. }
    { reflexivity. }
    fold (enumerate (rankings ev)) in H1, H2, H3.
    destruct (IH (fold_left
                    (score_response (score_of j ev) (confidence ev)
                                    (length (rankings ev)))
                    (enumerate (rankings ev)) scores))
      as (I1 & I2 & I3).
    { intros j' ev' x Hj Hx. rewrite H1. apply (Hin j' ev' x);
        [now right|exact Hx]. }
    rewrite I1, I2, I3, H1, H2, H3. split; [reflexivity|].
    unfold ranking_judges. cbn [List.filter snd].
    destruct (rankings ev); cbn [length]; split; lia.
Qed.

(** *** Building, sorting and numbering the result list *)

Lemma results_loop (label_to_model : dict string)
    (scores : dict score_data) (acc : list AggregatedScore) :
  fold_left
    (fun results '(response, data) =>
       results ++ [unranked_score label_to_model response data])
    scores acc
  = acc ++ map (fun e => unranked_score label_to_model (fst e) (snd e))
               scores.
Proof.
  revert acc. induction scores as [|[r d] scores IH]; intros acc; simpl.
  - now rewrite app_nil_r.
  - rewrite IH, <- app_assoc. reflexivity.
Qed.

Lemma insert_by_score_perm (x : AggregatedScore) (l : list AggregatedScore) :
  Permutation (insert_by_score x l) (x :: l).
Proof.
  induction l as [|y l IH]; simpl; [reflexivity|].
  destruct (Qlt_le_dec (weighted_score x) (weighted_score y)).
  - rewrite IH. apply perm_swap.
  - reflexivity.
Qed.

Lemma sort_by_score_perm (l : list AggregatedScore) :
  Permutation (sort_by_score l) l.
Proof.
  induction l as [|x l IH]; simpl; [reflexivity|].
  rewrite insert_by_score_perm. now constructor.
Qed.

Abbreviation not_below a b := (weighted_score b <= weighted_score a)%Q.

Lemma insert_by_score_sorted (x : AggregatedScore)
    (l : list AggregatedScore) :
  StronglySorted (fun a b => not_below a b) l ->
  StronglySorted (fun a b => not_below a b) (insert_by_score x l).
Proof.
  induction l as [|y l IH]; intros Hs; simpl.
  - repeat constructor.
  - apply StronglySorted_inv in Hs as [Hs Hy].
    destruct (Qlt_le_dec (weighted_score x) (weighted_score y)) as [Hlt|Hge].
    + constructor; [now apply IH|].
      apply List.Forall_forall. intros z Hz.
      apply (Permutation_in _ (insert_by_score_perm x l)) in Hz.
      destruct Hz as [<-|Hz]; [now apply Qlt_le_weak|].
      now apply (proj1 (List.Forall_forall _ _) Hy).
    + constructor; [now constructor|].
      constructor; [exact Hge|].
      apply List.Forall_forall. intros z Hz.
      apply Qle_trans with (weighted_score y); [|exact Hge].
      now apply (proj1 (List.Forall_forall _ _) Hy).
Qed.

Lemma sort_by_score_sorted (l : list AggregatedScore) :
  StronglySorted (fun a b => not_below a b) (sort_by_score l).
Proof.
  induction l as [|x l IH]; simpl; [constructor|].
  now apply insert_by_score_sorted.
Qed.

Lemma numbered_from {B} (g : AggregatedScore -> B)
    (Hg : forall r i, g (with_rank r i) = g r)
    (l : list AggregatedScore) (k : nat) :
  map g (map (fun '(i, r) => with_rank r (Z.of_nat i + 1))
             (combine (seq k (length l)) l))
  = map g l.
Proof.
  revert k. induction l as [|x l IH]; intros k; simpl; [reflexivity|].
  now rewrite Hg, IH.
Qed.

Lemma numbered_ranks (l : list AggregatedScore) (k : nat) :
  map rank (map (fun '(i, r) => with_rank r (Z.of_nat i + 1))
                (combine (seq k (length l)) l))
  = map (fun i => Z.of_nat i + 1) (seq k (length l)).
Proof.
  revert k. induction l as [|x l IH]; intros k; simpl; [reflexivity|].
  now rewrite IH.
Qed.

Lemma numbered_length (l : list AggregatedScore) (k : nat) :
  length (map (fun '(i, r) => with_rank r (Z.of_nat i + 1))
              (combine (seq k (length l)) l))
  = length l.
Proof.
  rewrite length_map, length_combine, length_seq. lia.
Qed.

Lemma numbered_sorted (l : list AggregatedScore) (k : nat) :
  StronglySorted (fun a b => not_below a b) l ->
  StronglySorted (fun a b => not_below a b)
    (map (fun '(i, r) => with_rank r (Z.of_nat i + 1))
         (combine (seq k (length l)) l)).
Proof.
  revert k. induction l as [|x l IH]; intros k Hs; simpl; [constructor|].
  apply StronglySorted_inv in Hs as [Hs Hx].
  constructor; [now apply IH|].
  apply List.Forall_forall. intros z Hz.
  assert (Hw : In (weighted_score z) (map weighted_score l)).
  { rewrite <- (numbered_from weighted_score (fun _ _ => eq_refl) l (S k)).
    now apply in_map. }
  apply in_map_iff in Hw as (y & Hy & Hin). cbn [weighted_score with_rank].
  rewrite <- Hy. now apply (proj1 (List.Forall_forall _ _) Hx).
Qed.

Section Aggregate.
Variable str_lower : string -> string.
Variable set_iteration : list string -> list string.
Hypothesis set_iteration_perm :
  forall l, Permutation (set_iteration l) l.

(** The score table after both loops. *)
Lemma scored_table (judge_rankings : dict ModelEvaluation)
    (domain : string) :
  exists scores : dict score_data,
    keys scores = set_iteration (all_responses_of judge_rankings)
    /\ first_total scores = Z.of_nat (ranking_judges judge_rankings)
    /\ last_total scores = Z.of_nat (ranking_judges judge_rankings)
    /\ forall label_to_model,
         aggregate_rankings str_lower set_iteration judge_rankings
                            label_to_model domain
         = map (fun '(i, r) => with_rank r (Z.of_nat i + 1))
               (enumerate
                  (sort_by_score
                     (map (fun e => unranked_score label_to_model
                                                   (fst e) (snd e))
                          scores))).
Proof.
  destruct (all_responses_spec judge_rankings) as [Hnd Hall].
  pose proof (set_iteration_perm (all_responses_of judge_rankings)) as Hp.
  assert (Hinit :
    fold_left (fun d r => set d r zero_data)
              (set_iteration (all_responses_of judge_rankings)) empty
    = map (fun r => (r, zero_data))
          (set_iteration (all_responses_of judge_rankings))).
  { rewrite init_scores_loop; [reflexivity|]. simpl.
    apply (Permutation.Permutation_NoDup (Permutation_sym Hp) Hnd). }
  destruct (judge_loop_totals
              (fun judge_model _ => get_model_weight str_lower judge_model
                                                     domain)
              judge_rankings
              (fold_left (fun d r => set d r zero_data)
                         (set_iteration (all_responses_of judge_rankings))
                         empty))
    as (H1 & H2 & H3).
  { intros j ev x Hj Hx. rewrite Hinit. unfold keys.
    rewrite map_map. simpl. rewrite map_id.
    apply (Permutation_in _ (Permutation_sym Hp)).
    apply Hall. now exists j, ev. }
  eexists. split; [|split; [|split]].
  - rewrite H1, Hinit. unfold keys. rewrite map_map. simpl. apply map_id.
  - rewrite H2, Hinit. unfold first_total, values. rewrite !map_map. simpl.
    clear. induction (set_iteration _); [reflexivity|].
    simpl. rewrite Zsum_cons. simpl. lia.
  - rewrite H3, Hinit. unfold last_total, values. rewrite !map_map. simpl.
    clear. induction (set_iteration _); [reflexivity|].
    simpl. rewrite Zsum_cons. simpl. lia.
  - intros label_to_model. unfold aggregate_rankings.
    rewrite results_loop. reflexivity.
Qed.

(** X18. [aggregate_rankings] returns exactly one entry per response that
    some judge ranked: the response ids of the result are a duplicate-free
    rearrangement of the set of all ranked responses, whatever order the
    set is iterated in. *)
Theorem aggregate_rankings_one_entry_per_response
    (judge_rankings : dict ModelEvaluation) (label_to_model : dict string)
    (domain : string) :
  Permutation
    (map response_id
         (aggregate_rankings str_lower set_iteration judge_rankings
                             label_to_model domain))
    (all_responses_of judge_rankings)
  /\ List.NoDup
       (map response_id
            (aggregate_rankings str_lower set_iteration judge_rankings
                                label_to_model domain)).
Proof.
  destruct (scored_table judge_rankings domain) as (scores & Hk & _ & _ & He).
  destruct (all_responses_spec judge_rankings) as [Hnd _].
  assert (Hperm :
    Permutation
      (map response_id
           (aggregate_rankings str_lower set_iteration judge_rankings
                               label_to_model domain))
      (all_responses_of judge_rankings)).
  { rewrite He. unfold enumerate.
    rewrite (numbered_from response_id (fun _ _ => eq_refl)).
    rewrite (Permutation_map response_id (sort_by_score_perm _)).
    rewrite map_map. cbn [response_id unranked_score].
    change (map (fun e : string * score_data => fst e) scores)
      with (keys scores).
    rewrite Hk. apply set_iteration_perm. }
  split; [exact Hperm|].
  apply (Permutation.Permutation_NoDup (Permutation_sym Hperm) Hnd).
Qed.

(** X19. The result of [aggregate_rankings] is ordered by weighted score,
    highest first, and its entries carry the ranks 1, 2, ..., n in that
    order. *)
Theorem aggregate_rankings_sorted_and_numbered
    (judge_rankings : dict ModelEvaluation) (label_to_model : dict string)
    (domain : string) :
  StronglySorted
    (fun a b => (weighted_score b <= weighted_score a)%Q)
    (aggregate_rankings str_lower set_iteration judge_rankings
                        label_to_model domain)
  /\ map rank
         (aggregate_rankings str_lower set_iteration judge_rankings
                             label_to_model domain)
     = map (fun i => Z.of_nat i + 1)
           (seq 0 (length (all_responses_of judge_rankings))).
Proof.
  destruct (scored_table judge_rankings domain) as (scores & Hk & _ & _ & He).
  rewrite He. unfold enumerate. split.
  - apply numbered_sorted, sort_by_score_sorted.
  - rewrite numbered_ranks. f_equal. f_equal.
    rewrite (Permutation_length (sort_by_score_perm _)), length_map.
    rewrite <- (Permutation_length
                  (set_iteration_perm (all_responses_of judge_rankings))).
    rewrite <- Hk. unfold keys. now rewrite length_map.
Qed.

(** X20. Every judge with a non-empty ranking contributes exactly one first
    place and one last place: over the result of [aggregate_rankings] the
    [votes_first] counters, and likewise the [votes_last] counters, add up
    to the number of such judges. *)
Theorem aggregate_rankings_vote_totals
    (judge_rankings : dict ModelEvaluation) (label_to_model : dict string)
    (domain : string) :
  Zsum (map votes_first
            (aggregate_rankings str_lower set_iteration judge_rankings
                                label_to_model domain))
  = Z.of_nat (ranking_judges judge_rankings)
  /\ Zsum (map votes_last
               (aggregate_rankings str_lower set_iteration judge_rankings
                                   label_to_model domain))
     = Z.of_nat (ranking_judges judge_rankings).
Proof.
  destruct (scored_table judge_rankings domain)
    as (scores & _ & Hf & Hl & He).
  rewrite He. unfold enumerate. split.
  - rewrite (numbered_from votes_first (fun _ _ => eq_refl)).
    rewrite (Zsum_perm _ _ (Permutation_map votes_first
                                            (sort_by_score_perm _))).
    rewrite map_map. cbn [votes_first unranked_score].
    rewrite <- Hf. unfold first_total, values. now rewrite map_map.
  - rewrite (numbered_from votes_last (fun _ _ => eq_refl)).
    rewrite (Zsum_perm _ _ (Permutation_map votes_last
                                            (sort_by_score_perm _))).
    rewrite map_map. cbn [votes_last unranked_score].
    rewrite <- Hl. unfold last_total, values. now rewrite map_map.
Qed.

End Aggregate.

Lemma aggregate_rankings_one_entry_per_response_witness :
  Permutation
    (map response_id
         (aggregate_rankings (fun s => s) (fun l => l) two_judges [] "code"))
    (all_responses_of two_judges)
  /\ List.NoDup
       (map response_id
            (aggregate_rankings (fun s => s) (fun l => l) two_judges []
                                "code")).
Proof.
  apply (aggregate_rankings_one_entry_per_response
           (fun s => s) (fun l => l)).
  intros l. apply Permutation_refl.
Defined.

Lemma aggregate_rankings_sorted_and_numbered_witness :
  StronglySorted
    (fun a b => (weighted_score b <= weighted_score a)%Q)
    (aggregate_rankings (fun s => s) (fun l => l) two_judges [] "code")
  /\ map rank
         (aggregate_rankings (fun s => s) (fun l => l) two_judges [] "code")
     = map (fun i => Z.of_nat i + 1)
           (seq 0 (length (all_responses_of two_judges))).
Proof.
  apply (aggregate_rankings_sorted_and_numbered (fun s => s) (fun l => l)).
  intros l. apply Permutation_refl.
Defined.

Lemma aggregate_rankings_vote_totals_witness :
  Zsum (map votes_first
            (aggregate_rankings (fun s => s) (fun l => l) two_judges []
                                "code"))
  = Z.of_nat (ranking_judges two_judges)
  /\ Zsum (map votes_last
               (aggregate_rankings (fun s => s) (fun l => l) two_judges []
                                   "code"))
     = Z.of_nat (ranking_judges two_judges).
Proof.
  apply (aggregate_rankings_vote_totals (fun s => s) (fun l => l)).
  intros l. apply Permutation_refl.
Defined.

(** *** The scores are not negative *)

Lemma weight_bounds (str_lower : string -> string)
    (model_id domain : string) :
  (0.4 <= get_model_weight str_lower model_id domain <= 0.9)%Q.
Proof.
  unfold get_model_weight.
  set (weights := match get EXPERTISE_WEIGHTS domain with
                  | Some weights => weights
                  | None => get_default EXPERTISE_WEIGHTS "factual" empty
                  end).
  assert (Hw : In weights (values EXPERTISE_WEIGHTS)).
  { subst weights. destruct (get EXPERTISE_WEIGHTS domain) as [w|] eqn:E.
    - apply get_In in E. unfold values.
      change w with (snd (domain, w)). now apply in_map.
    - simpl. do 3 right. now left. }
  destruct (find _ weights) as [[key w]|] eqn:Ef; [|split; discriminate].
  apply find_some in Ef as [Hin _].
  exact (proj1 (AggregationFacts.table_entry_facts weights key w Hw Hin)).
Qed.

Lemma set_Forall_values {V} (P : V -> Prop) (d : dict V) (k : string)
    (v : V) :
  List.Forall P (values d) -> P v -> List.Forall P (values (set d k v)).
Proof.
  unfold values. induction d as [|[k0 v0] d IH]; simpl; intros Hd Hv.
  - now constructor.
  - apply List.Forall_cons_iff in Hd as [H0 Hd].
    destruct (String.eqb k0 k); simpl; constructor; auto.
Qed.

Lemma get_default_Forall {V} (P : V -> Prop) (d : dict V) (k : string)
    (dflt : V) :
  List.Forall P (values d) -> P dflt -> P (get_default d k dflt).
Proof.
  intros Hd Hdflt. unfold get_default.
  destruct (get d k) as [v|] eqn:E; [|exact Hdflt].
  apply get_In in E. apply (proj1 (List.Forall_forall _ _) Hd).
  unfold values. change v with (snd (k, v)). now apply in_map.
Qed.

Lemma zero_data_nonneg : score_nonneg zero_data.
Proof. unfold score_nonneg. simpl. lra. Qed.

Lemma score_response_nonneg weight conf n scores rank_idx response :
  (rank_idx < n)%nat ->
  (0 <= weight)%Q -> (0 <= conf)%Q ->
  List.Forall score_nonneg (values scores) ->
  List.Forall score_nonneg
    (values (score_response weight conf n scores (rank_idx, response))).
Proof.
  intros Hidx Hw Hc Hall. unfold score_response. cbv zeta.
  apply set_Forall_values; [exact Hall|].
  destruct (get_default_Forall _ scores response zero_data Hall
                               zero_data_nonneg) as [H0 H1].
  assert (Ht : (0 <= weight * conf)%Q) by now apply Qmult_le_0_compat.
  assert (Hr : (0 <= inject_Z (Z.of_nat n - Z.of_nat rank_idx))%Q).
  { change 0%Q with (inject_Z 0). rewrite <- Zle_Qle. lia. }
  assert (Hrt : (0 <= inject_Z (Z.of_nat n - Z.of_nat rank_idx) * weight
                      * conf)%Q).
  { rewrite <- Qmult_assoc. now apply Qmult_le_0_compat. }
  assert (H : score_nonneg
                {| weighted_sum :=
                     (weighted_sum (get_default scores response zero_data)
                      + inject_Z (Z.of_nat n - Z.of_nat rank_idx) * weight
                        * conf)%Q;
                   weight_total :=
                     (weight_total (get_default scores response zero_data)
                      + weight * conf)%Q;
                   first := first (get_default scores response zero_data);
                   last := last (get_default scores response zero_data) |}).
  { unfold score_nonneg. cbn [weighted_sum weight_total]. split; lra. }
  destruct (Z.of_nat rank_idx =? 0),
           (Z.of_nat rank_idx =? Z.of_nat n - 1); exact H.
Qed.

Lemma score_loop_nonneg weight conf n (ranking : list string) :
  forall (k : nat) (scores : dict score_data),
    (k + length ranking = n)%nat ->
    (0 <= weight)%Q -> (0 <= conf)%Q ->
    List.Forall score_nonneg (values scores) ->
    List.Forall score_nonneg
      (values (fold_left (score_response weight conf n)
                         (combine (seq k (length ranking)) ranking)
                         scores)).
Proof.
  induction ranking as [|x ranking IH]; intros k scores Hlen Hw Hc Hall.
  - exact Hall.
  - cbn [length seq combine fold_left]. cbn [length] in Hlen.
    apply IH; try assumption; [lia|].
    apply score_response_nonneg; try assumption. lia.
Qed.

Lemma judge_loop_nonneg (weight_of : string -> Q)
    (judge_rankings : dict ModelEvaluation) :
  (forall judge, 0 <= weight_of judge)%Q ->
  forall scores : dict score_data,
    List.Forall (fun e => (0 <= confidence (snd e))%Q) judge_rankings ->
    List.Forall score_nonneg (values scores) ->
    List.Forall score_nonneg
      (values
         (fold_left
            (fun scores '(judge_model, eval_result) =>
               fold_left
                 (score_response (weight_of judge_model)
                                 (confidence eval_result)
                                 (length (rankings eval_result)))
                 (enumerate (rankings eval_result)) scores)
            judge_rankings scores)).
Proof.
  intros Hw.
  induction judge_rankings as [|[j ev] jr IH]; intros scores Hjr Hall.
  - exact Hall.
  - cbn [fold_left]. apply List.Forall_cons_iff in Hjr as [Hc Hjr].
    cbn [snd] in Hc. apply IH; [exact Hjr|].
    apply score_loop_nonneg; auto.
Qed.

Lemma init_nonneg (responses : list string) :
  forall d : dict score_data,
    List.Forall score_nonneg (values d) ->
    List.Forall score_nonneg
      (values (fold_left (fun d r => set d r zero_data) responses d)).
Proof.
  induction responses as [|r responses IH]; intros d Hd; simpl.
  - exact Hd.
  - apply IH, set_Forall_values; [exact Hd|apply zero_data_nonneg].
Qed.

Lemma unranked_score_nonneg label_to_model response data :
  score_nonneg data ->
  (0 <= raw_score (unranked_score label_to_model response data))%Q
  /\ (0 <= weighted_score (unranked_score label_to_model response data))%Q.
Proof.
  intros (H0 & H1). cbn [raw_score weighted_score unranked_score].
  split; [exact H1|].
  assert (Hm : (0.001 <= py_max (weight_total data) 0.001)%Q).
  { unfold py_max. destruct (Qlt_le_dec _ _); [apply Qle_refl|assumption]. }
  apply Qle_shift_div_l; lra.
Qed.

(** X21. When every judge's confidence is non-negative, no score returned
    by [aggregate_rankings] is negative, neither the raw nor the weighted
    one, in whatever order the response set is iterated: sums and products
    of non-negative numbers are non-negative, and the divisor is at least
    0.001. *)
Theorem aggregate_rankings_scores_nonneg
    (str_lower : string -> string)
    (set_iteration : list string -> list string)
    (judge_rankings : dict ModelEvaluation) (label_to_model : dict string)
    (domain : string) :
  List.Forall (fun e => (0 <= confidence (snd e))%Q) judge_rankings ->
  List.Forall
    (fun r => (0 <= raw_score r)%Q /\ (0 <= weighted_score r)%Q)
    (aggregate_rankings str_lower set_iteration judge_rankings
                        label_to_model domain).
Proof.
  intros Hjr. unfold aggregate_rankings. rewrite results_loop. cbn [app].
  apply List.Forall_forall. intros r Hr.
  unfold enumerate in Hr at 1.
  apply in_map_iff in Hr as ([i y] & <- & Hin).
  apply in_combine_r in Hin.
  apply (Permutation_in _ (sort_by_score_perm _)) in Hin.
  apply in_map_iff in Hin as ([response data] & <- & Hin).
  cbn [fst snd raw_score weighted_score with_rank].
  apply (unranked_score_nonneg label_to_model response data).
  match type of Hin with
  | In _ ?table =>
      assert (Hall : List.Forall score_nonneg (values table))
  end.
  { apply (judge_loop_nonneg
             (fun judge => get_model_weight str_lower judge domain)).
    - intros judge. pose proof (weight_bounds str_lower judge domain). lra.
    - exact Hjr.
    - apply (init_nonneg _ empty). exact (List.Forall_nil _). }
  apply (proj1 (List.Forall_forall _ _) Hall).
  unfold values. change data with (snd (response, data)).
  now apply in_map.
Qed.

Lemma aggregate_rankings_scores_nonneg_witness :
  List.Forall
    (fun r => (0 <= raw_score r)%Q /\ (0 <= weighted_score r)%Q)
    (aggregate_rankings (fun s => s) (fun l => l) two_judges [] "code").
Proof.
  apply (aggregate_rankings_scores_nonneg (fun s => s) (fun l => l)
           two_judges [] "code").
  repeat constructor; simpl; unfold Qle; simpl; lia.
Defined.

End RankingFacts.

(** ** Kendall's W under unanimity *)

Module KendallMoreFacts.
Import PyDict Evaluation.

Lemma Zsum_app (l l' : list Z) : Zsum (l ++ l') = Zsum l + Zsum l'.
Proof.
  induction l as [|x l IH]; simpl; [reflexivity|].
  rewrite !Zsum_cons, IH. lia.
Qed.

Lemma Zsum_const {A} (c : Z) (l : list A) :
  Zsum (map (fun _ => c) l) = Z.of_nat (length l) * c.
Proof.
  induction l as [|x l IH]; [reflexivity|].
  cbn [map length]. rewrite Zsum_cons, IH. lia.
Qed.

(** The rank dictionary of a duplicate-free ranking, entry by entry. *)
Lemma rank_dict_loop (ranking : list string) :
  forall (k : nat) (d : dict Z),
    List.NoDup (keys d ++ ranking) ->
    fold_left (fun d '(i, item) => set d item (Z.of_nat i + 1))
              (combine (seq k (length ranking)) ranking) d
    = d ++ map (fun '(i, item) => (item, Z.of_nat i + 1))
               (combine (seq k (length ranking)) ranking).
Proof.
  induction ranking as [|x ranking IH]; intros k d Hnd.
  - simpl. now rewrite app_nil_r.
  - cbn [length seq combine fold_left map].
    assert (Hx : ~ In x (keys d)).
    { intros Hin. apply NoDup_remove_2 in Hnd. apply Hnd.
      apply in_app_iff. now left. }
    rewrite (RankingFacts.set_absent d x _
               (RankingFacts.not_key_get_None d x Hx)).
    rewrite IH.
    + now rewrite <- app_assoc.
    + unfold keys in *. rewrite map_app. simpl. now rewrite <- app_assoc.
Qed.

Lemma ranks_by_position (ranking : list string) (dflt : Z) :
  forall k : nat,
    List.NoDup ranking ->
    map (fun item =>
           get_default
             (map (fun '(i, item) => (item, Z.of_nat i + 1))
                  (combine (seq k (length ranking)) ranking))
             item dflt)
        ranking
    = map (fun i => Z.of_nat i + 1) (seq k (length ranking)).
Proof.
  induction ranking as [|x ranking IH]; intros k Hnd; [reflexivity|].
  cbn [length seq combine map]. f_equal.
  - unfold get_default. simpl. now rewrite String.eqb_refl.
  - rewrite <- (IH (S k)) by now inversion Hnd.
    apply map_ext_in. intros y Hy. unfold get_default. simpl.
    destruct (String.eqb_spec x y) as [->|Hne]; [|reflexivity].
    now inversion Hnd.
Qed.

Lemma unanimous_rank_sums judge items rest :
  List.NoDup items ->
  List.Forall (fun e => snd e = items) rest ->
  map (fun item =>
         Zsum (map (fun j =>
                      cell ((judge, items) :: rest) (length items) j item)
                   (keys ((judge, items) :: rest))))
      items
  = map (fun i => Z.of_nat (S (length rest)) * (Z.of_nat i + 1))
        (seq 0 (length items)).
Proof.
  intros Hnd Hall.
  assert (Hsame : forall j,
             In j (keys ((judge, items) :: rest)) ->
             ranking_of ((judge, items) :: rest) j = items).
  { intros j Hj. unfold ranking_of, get_default.
    destruct (AggregationFacts.key_get_Some _ _ Hj) as [v Hv]. rewrite Hv.
    apply get_In in Hv. destruct Hv as [[= _ <-]|Hv]; [reflexivity|].
    exact (proj1 (List.Forall_forall _ _) Hall _ Hv). }
  rewrite <- (map_map (fun i => Z.of_nat i + 1)
                      (fun r => Z.of_nat (S (length rest)) * r)).
  rewrite <- (ranks_by_position items (Z.of_nat (length items)) 0 Hnd).
  rewrite map_map. apply map_ext. intros item.
  rewrite (map_ext_in _
             (fun _ => get_default (rank_dict items) item
                                   (Z.of_nat (length items)))).
  - rewrite Zsum_const. unfold keys. rewrite length_map. cbn [length].
    unfold rank_dict, enumerate.
    rewrite (rank_dict_loop items 0 empty Hnd). reflexivity.
  - intros j Hj. unfold cell. now rewrite (Hsame j Hj).
Qed.

(** Closed forms for the sum of the ranks and of their squared deviations. *)
Lemma twice_rank_total (m : Z) (n : nat) :
  2 * Zsum (map (fun i => m * (Z.of_nat i + 1)) (seq 0 n))
  = m * Z.of_nat n * (Z.of_nat n + 1).
Proof.
  induction n as [|n IH]; [unfold Zsum; simpl; lia|].
  rewrite seq_S, map_app, Zsum_app. cbn [map Nat.add].
  unfold Zsum at 2. cbn [fold_left]. nia.
Qed.

Lemma squared_deviations (a c : Q) (m : Z) (n : nat) :
  inject_Z m == a ->
  Qsum (map (fun rs => ((inject_Z rs - c) ^ 2)%Q)
            (map (fun i => m * (Z.of_nat i + 1)) (seq 0 n)))
  == a * a * (inject_Z (Z.of_nat n) * (inject_Z (Z.of_nat n) + 1)
              * (2 * inject_Z (Z.of_nat n) + 1)) / 6
     - 2 * a * c * (inject_Z (Z.of_nat n) * (inject_Z (Z.of_nat n) + 1)) / 2
     + inject_Z (Z.of_nat n) * c * c.
Proof.
  intros Ha. induction n as [|n IH].
  - unfold Qsum. simpl. field.
  - rewrite seq_S, !map_app, Qsum_app, IH. cbn [map Nat.add].
    rewrite Qsum_cons. unfold Qsum at 1. cbn [fold_left].
    rewrite Nat2Z.inj_succ. unfold Z.succ.
    rewrite inject_Z_mult, !inject_Z_plus, Ha.
    change (inject_Z 1) with 1%Q.
    set (q := inject_Z (Z.of_nat n)).
    change ((a * (q + 1) - c) ^ 2)%Q
      with ((a * (q + 1) - c) * ((a * (q + 1) - c)))%Q.
    field.
Qed.

Lemma unanimous_w (m n : nat) :
  (1 <= m)%nat -> (2 <= n)%nat ->
  w_of_rank_sums m n
    (map (fun i => Z.of_nat m * (Z.of_nat i + 1)) (seq 0 n))
  == 1.
Proof.
  intros Hm Hn. unfold w_of_rank_sums.
  set (sums := map (fun i => Z.of_nat m * (Z.of_nat i + 1)) (seq 0 n)).
  set (a := inject_Z (Z.of_nat m)).
  set (q := inject_Z (Z.of_nat n)).
  assert (Hq : (2 <= q)%Q).
  { unfold q. change 2%Q with (inject_Z 2). rewrite <- Zle_Qle. lia. }
  assert (Ha : (1 <= a)%Q).
  { unfold a. change 1%Q with (inject_Z 1). rewrite <- Zle_Qle. lia. }
  assert (Hmean : (inject_Z (Zsum sums) / q == a * (q + 1) / 2)%Q).
  { assert (H2 : (2 * inject_Z (Zsum sums) == a * q * (q + 1))%Q).
    { change 2%Q with (inject_Z 2). rewrite <- inject_Z_mult.
      unfold sums.
      rewrite twice_rank_total, !inject_Z_mult, inject_Z_plus. reflexivity. }
    apply (Qmult_inj_l _ _ 2); [discriminate|].
    transitivity (a * q * (q + 1) / q)%Q.
    - rewrite <- H2. field. lra.
    - field. lra. }
  assert (Hmax :
    (inject_Z (Z.of_nat m ^ 2 * (Z.of_nat n ^ 3 - Z.of_nat n))%Z / 12
     == a * a * (q * q * q - q) / 12)%Q).
  { replace (Z.of_nat m ^ 2 * (Z.of_nat n ^ 3 - Z.of_nat n))
      with (Z.of_nat m * Z.of_nat m
            * (Z.of_nat n * Z.of_nat n * Z.of_nat n + - Z.of_nat n)) by ring.
    rewrite !inject_Z_mult, inject_Z_plus, !inject_Z_mult, inject_Z_opp.
    fold a q. field. }
  assert (Hpos : (0 < a * a * (q * q * q - q) / 12)%Q).
  { apply Qlt_shift_div_l; [reflexivity|].
    assert (0 < a * a)%Q by nra.
    assert (0 < q * q * q - q)%Q by nra.
    nra. }
  assert (HS :
    (Qsum (map (fun rs => (inject_Z rs - inject_Z (Zsum sums) / q) ^ 2) sums)
     == a * a * (q * q * q - q) / 12)%Q).
  { unfold sums at 2.
    rewrite (squared_deviations a _ (Z.of_nat m) n (Qeq_refl _)).
    fold q. rewrite Hmean. field. }
  destruct (Qlt_le_dec 0 _) as [Hlt|Hle].
  - rewrite (py_min_compat _ 1 1); [reflexivity|].
    rewrite (py_max_compat _ 1 0); [reflexivity|].
    rewrite HS, Hmax. apply Qmult_inv_r.
    intros E. rewrite E in Hpos. exact (Qlt_irrefl 0 Hpos).
  - exfalso. rewrite Hmax in Hle. exact (Qlt_not_le _ _ Hpos Hle).
Qed.

(** *** Judges who rank the same items, each once *)

Lemma Zsum_swap {A B} (f : A -> B -> Z) (xs : list A) (ys : list B) :
  Zsum (map (fun x => Zsum (map (fun y => f x y) ys)) xs)
  = Zsum (map (fun y => Zsum (map (fun x => f x y) xs)) ys).
Proof.
  induction xs as [|x xs IH].
  - cbn [map]. induction ys as [|y ys IHy]; [reflexivity|].
    cbn [map]. rewrite Zsum_cons, <- IHy. reflexivity.
  - cbn [map]. rewrite Zsum_cons, IH. clear IH.
    induction ys as [|y ys IHy]; [reflexivity|].
    cbn [map]. rewrite !Zsum_cons, <- IHy. lia.
Qed.

Lemma twice_own_ranks (ranking : list string) (dflt : Z) :
  List.NoDup ranking ->
  2 * Zsum (map (fun item => get_default (rank_dict ranking) item dflt)
                ranking)
  = Z.of_nat (length ranking) * (Z.of_nat (length ranking) + 1).
Proof.
  intros Hnd. unfold rank_dict, enumerate.
  rewrite (rank_dict_loop ranking 0 empty Hnd). cbn [app empty].
  rewrite (ranks_by_position ranking dflt 0 Hnd).
  rewrite (map_ext _ (fun i => 1 * (Z.of_nat i + 1)))
    by (intros i; lia).
  rewrite twice_rank_total. lia.
Qed.

(** When every judge ranks the items of the first judge, each once, the
    rank sums add up to [m * n * (n + 1) / 2]: their mean [m * (n + 1) / 2]
    is a half-integer. *)
Lemma complete_rankings_rank_total judge items rest :
  List.NoDup items ->
  List.Forall (fun e => List.NoDup (snd e) /\ Permutation (snd e) items)
              rest ->
  2 * Zsum (map (fun item =>
                   Zsum (map (fun j =>
                                cell ((judge, items) :: rest) (length items)
                                     j item)
                             (keys ((judge, items) :: rest))))
                items)
  = Z.of_nat (S (length rest)) * Z.of_nat (length items)
    * (Z.of_nat (length items) + 1).
Proof.
  intros Hnd Hall.
  rewrite (Zsum_swap
             (fun item j => cell ((judge, items) :: rest) (length items)
                                 j item)).
  rewrite (map_ext_in _
             (fun _ => Zsum (map (fun i => 1 * (Z.of_nat i + 1))
                                 (seq 0 (length items))))).
  - rewrite Zsum_const. unfold keys. rewrite length_map.
    pose proof (twice_rank_total 1 (length items)) as H. cbn [length]. nia.
  - intros j Hj. unfold cell, ranking_of, get_default at 2.
    destruct (AggregationFacts.key_get_Some _ _ Hj) as [l Hl]. rewrite Hl.
    assert (Hl' : List.NoDup l /\ Permutation l items).
    { apply get_In in Hl. destruct Hl as [[= _ <-]|Hl];
        [split; [exact Hnd|reflexivity]|].
      exact (proj1 (List.Forall_forall _ _) Hall _ Hl). }
    destruct Hl' as [Hndl Hperm].
    rewrite (Zsum_perm _ _
               (Permutation_map
                  (fun item => get_default (rank_dict l) item
                                           (Z.of_nat (length items)))
                  (Permutation_sym Hperm))).
    apply (Z.mul_reg_l _ _ 2); [lia|].
    rewrite (twice_own_ranks l _ Hndl), twice_rank_total.
    rewrite (Permutation_length Hperm). lia.
Qed.

(** X22. Unanimous judges: when at least two judges hold the same
    duplicate-free ranking of at least two items, Kendall's W is 1. *)
Theorem kendalls_w_unanimous judge items rest :
  (1 <= length rest)%nat -> (2 <= length items)%nat ->
  List.NoDup items ->
  List.Forall (fun e => snd e = items) rest ->
  compute_kendalls_w ((judge, items) :: rest) == 1.
Proof.
  intros Hj Hi Hnd Hall.
  rewrite (KendallFacts.compute_kendalls_w_unfold judge items rest Hj Hi).
  rewrite (unanimous_rank_sums judge items rest Hnd Hall).
  apply unanimous_w; lia.
Qed.

Lemma kendalls_w_unanimous_witness :
  compute_kendalls_w
    [("judge1", ["A"; "B"; "C"]); ("judge2", ["A"; "B"; "C"])] == 1.
Proof.
  apply (kendalls_w_unanimous "judge1" ["A"; "B"; "C"]
           [("judge2", ["A"; "B"; "C"])]).
  - simpl. lia.
  - simpl. lia.
  - repeat constructor; simpl; intuition discriminate.
  - repeat constructor.
Defined.

End KendallMoreFacts.

(** ** The two agreement scores of a council run *)

Module CouncilFacts.
Import PyDict Evaluation Aggregation Council.

Lemma set_not_nil {V} (d : dict V) (k : string) (v : V) : set d k v <> [].
Proof. destruct d as [|[k0 v0] d]; simpl; [|destruct (String.eqb k0 k)];
  discriminate. Qed.

Lemma rankings_loop_keeps (stage2_results : list stage2_result) :
  forall acc : dict (list string),
    acc <> [] ->
    fold_left
      (fun rankings_dict result =>
         match parsed_of result with
         | [] => rankings_dict
         | parsed => set rankings_dict (judge_model result) parsed
         end)
      stage2_results acc <> [].
Proof.
  induction stage2_results as [|r rs IH]; intros acc Hacc; cbn [fold_left].
  - exact Hacc.
  - apply IH. destruct (parsed_of r); [exact Hacc|apply set_not_nil].
Qed.

Lemma rankings_loop_none (stage2_results : list stage2_result) :
  forall acc : dict (list string),
    List.Forall (fun r => parsed_of r = []) stage2_results ->
    fold_left
      (fun rankings_dict result =>
         match parsed_of result with
         | [] => rankings_dict
         | parsed => set rankings_dict (judge_model result) parsed
         end)
      stage2_results acc = acc.
Proof.
  induction stage2_results as [|r rs IH]; intros acc Hall; cbn [fold_left].
  - reflexivity.
  - apply List.Forall_cons_iff in Hall as [Hr Hall]. rewrite Hr.
    now apply IH.
Qed.

Lemma rankings_loop_some (stage2_results : list stage2_result) :
  forall acc : dict (list string),
    List.Exists has_parsed stage2_results ->
    fold_left
      (fun rankings_dict result =>
         match parsed_of result with
         | [] => rankings_dict
         | parsed => set rankings_dict (judge_model result) parsed
         end)
      stage2_results acc <> [].
Proof.
  induction stage2_results as [|r rs IH]; intros acc Hex; cbn [fold_left].
  - inversion Hex.
  - apply List.Exists_cons in Hex as [Hr|Hex]; [|now apply IH].
    apply rankings_loop_keeps. unfold has_parsed in Hr.
    destruct (parsed_of r); [congruence|apply set_not_nil].
Qed.

Lemma detect_disagreement_score (rankings : dict (list string))
    (threshold : Q) :
  agreement_score (detect_disagreement rankings threshold)
  = compute_kendalls_w rankings
  /\ has_consensus (detect_disagreement rankings threshold)
     = Qle_bool threshold (compute_kendalls_w rankings).
Proof.
  unfold detect_disagreement.
  now destruct (Qle_bool threshold (compute_kendalls_w rankings)).
Qed.

(** X23. A council run reports agreement twice.  When no judge produced a
    parsed ranking the two figures contradict each other: the metadata
    score is the neutral 0.5, while the disagreement record claims
    consensus with score 1 and no factions.  As soon as one judge has a
    parsed ranking both figures are the same Kendall's W, between 0 and 1,
    and consensus is reported exactly when it is at least 0.5. *)
Theorem council_agreement_scores (stage2_results : list stage2_result) :
  (List.Forall (fun r => parsed_of r = []) stage2_results ->
   metadata_agreement_score (run_agreement stage2_results) = 0.5%Q
   /\ agreement_score (metadata_disagreement (run_agreement stage2_results))
      = 1%Q
   /\ has_consensus (metadata_disagreement (run_agreement stage2_results))
      = true
   /\ factions (metadata_disagreement (run_agreement stage2_results)) = [])
  /\ (List.Exists has_parsed stage2_results ->
      agreement_score (metadata_disagreement (run_agreement stage2_results))
      = metadata_agreement_score (run_agreement stage2_results)
      /\ (0 <= metadata_agreement_score (run_agreement stage2_results)
          <= 1)%Q
      /\ has_consensus (metadata_disagreement (run_agreement stage2_results))
         = Qle_bool 0.5
             (metadata_agreement_score (run_agreement stage2_results))).
Proof.
  unfold run_agreement.
  cbn [metadata_agreement_score metadata_disagreement]. split.
  - intros Hall. unfold rankings_dict_of.
    rewrite (rankings_loop_none stage2_results empty Hall).
    repeat split; reflexivity.
  - intros Hex.
    pose proof (rankings_loop_some stage2_results empty Hex) as Hne.
    fold (rankings_dict_of stage2_results) in Hne.
    destruct (detect_disagreement_score (rankings_dict_of stage2_results)
                                        0.5%Q) as [Hs Hc].
    rewrite Hs, Hc. unfold agreement_of.
    destruct (rankings_dict_of stage2_results) as [|e rd] eqn:E;
      [congruence|].
    repeat split; apply KendallFacts.kendalls_w_in_unit_interval.
Qed.

Lemma council_agreement_scores_witness :
  (metadata_agreement_score (run_agreement unparsed_judges) = 0.5%Q
   /\ agreement_score (metadata_disagreement (run_agreement unparsed_judges))
      = 1%Q
   /\ has_consensus (metadata_disagreement (run_agreement unparsed_judges))
      = true
   /\ factions (metadata_disagreement (run_agreement unparsed_judges)) = [])
  /\ (agreement_score (metadata_disagreement (run_agreement mixed_judges))
      = metadata_agreement_score (run_agreement mixed_judges)
      /\ (0 <= metadata_agreement_score (run_agreement mixed_judges) <= 1)%Q
      /\ has_consensus (metadata_disagreement (run_agreement mixed_judges))
         = Qle_bool 0.5
             (metadata_agreement_score (run_agreement mixed_judges))).
Proof.
  split.
  - apply (proj1 (council_agreement_scores unparsed_judges)).
    repeat constructor.
  - apply (proj2 (council_agreement_scores mixed_judges)).
    apply List.Exists_cons_tl, List.Exists_cons_hd.
    unfold has_parsed. simpl. discriminate.
Defined.

Section Tracking.
Variable sha256_hex16 : string -> string.
Variable first_200 : string -> string.
Variable utcnow : nat -> string.

Abbreviation rows_under := (Calibration.rows_of).
Abbreviation hash := (Calibration.query_hash_of sha256_hex16).

Lemma track_loop (user_query : string) (agreement_score : Q)
    (stage1_results : list stage1_result) :
  forall (k : nat) (db : Calibration.table),
    (forall m,
        In m (map stage1_model stage1_results) ->
        exists r,
          rows_under
            (fold_left
               (fun db '(k, result) =>
                  Calibration.record_prediction sha256_hex16 db
                    (stage1_model result) user_query agreement_score
                    (first_200 (stage1_response result)) (utcnow k))
               (combine (seq k (length stage1_results)) stage1_results) db)
            m (hash user_query) = [r]
          /\ tracked_row agreement_score r)
    /\ (forall m' h',
           h' <> hash user_query
           \/ ~ In m' (map stage1_model stage1_results) ->
           rows_under
             (fold_left
                (fun db '(k, result) =>
                   Calibration.record_prediction sha256_hex16 db
                     (stage1_model result) user_query agreement_score
                     (first_200 (stage1_response result)) (utcnow k))
                (combine (seq k (length stage1_results)) stage1_results) db)
             m' h'
           = rows_under db m' h').
Proof.
  induction stage1_results as [|x rest IH]; intros k db.
  - split; [intros m []|reflexivity].
  - cbn [length seq combine fold_left map].
    destruct (IH (S k)
                 (Calibration.record_prediction sha256_hex16 db
                    (stage1_model x) user_query agreement_score
                    (first_200 (stage1_response x)) (utcnow k)))
      as [IH1 IH2].
    split.
    + intros m Hm.
      destruct (in_dec string_dec m (map stage1_model rest)) as [Hin|Hout];
        [now apply IH1|].
      destruct Hm as [<-|Hm]; [|contradiction].
      rewrite (IH2 _ _ (or_intror Hout)).
      rewrite CalibrationFacts.record_prediction_rows_of.
      eexists. split; [reflexivity|]. now repeat split.
    + intros m' h' Hcase. rewrite IH2.
      * apply CalibrationFacts.record_prediction_other_key.
        intros [= -> ->]. destruct Hcase as [H|H]; [now apply H|].
        apply H. now left.
      * destruct Hcase as [H|H]; [now left|right].
        intros Hin. apply H. now right.
Qed.

(** X29. The tracking loop at the end of a council run leaves, for every
    stage-1 model, exactly one calibration row for the query; it states the
    council's agreement score as the model's confidence and carries no
    outcome, whatever was recorded for that model and query before.  Rows
    of other queries and of other models are as they were. *)
Theorem rerun_resets_outcomes (db : Calibration.table)
    (user_query : string) (agreement_score : Q)
    (stage1_results : list stage1_result) (m : string) :
  In m (map stage1_model stage1_results) ->
  (exists r,
      rows_under
        (track_predictions sha256_hex16 first_200 utcnow db user_query
                           agreement_score stage1_results)
        m (hash user_query) = [r]
      /\ tracked_row agreement_score r)
  /\ (forall m' h',
         h' <> hash user_query
         \/ ~ In m' (map stage1_model stage1_results) ->
         rows_under
           (track_predictions sha256_hex16 first_200 utcnow db user_query
                              agreement_score stage1_results)
           m' h'
         = rows_under db m' h').
Proof.
  intros Hm. unfold track_predictions, enumerate.
  destruct (track_loop user_query agreement_score stage1_results 0 db)
    as [H1 H2].
  split; [now apply H1|exact H2].
Qed.
End Tracking.

Lemma rerun_resets_outcomes_witness :
  map Calibration.correct
      (Calibration.rows_of CalibrationCurves.two_outcomes "gpt"
                           "capital of France?")
  = [Some 1]
  /\ exists r,
       Calibration.rows_of rerun "gpt" "capital of France?" = [r]
       /\ tracked_row (3 # 4) r.
Proof.
  split; [reflexivity|].
  apply (rerun_resets_outcomes Calibration.plain_hash (fun text => text)
           (fun _ => "2024-01-02T00:00:00") CalibrationCurves.two_outcomes
           "capital of France?" (3 # 4) rerun_results "gpt").
  simpl. now left.
Defined.

End CouncilFacts.

(** ** The shape of the Bradley-Terry scores *)

Module BradleyTerryMoreFacts.
Import PyDict Evaluation Tournament.

Lemma Qsum_nonneg (l : list Q) :
  List.Forall (fun v => (0 <= v)%Q) l -> (0 <= Qsum l)%Q.
Proof.
  induction 1 as [|x l Hx _ IH]; [apply Qle_refl|].
  rewrite Qsum_cons. lra.
Qed.

Lemma Qsum_member (l : list Q) :
  List.Forall (fun v => (0 <= v)%Q) l ->
  List.Forall (fun v => (v <= Qsum l)%Q) l.
Proof.
  induction 1 as [|x l Hx Hl IH]; constructor.
  - rewrite Qsum_cons. pose proof (Qsum_nonneg l Hl). lra.
  - apply (List.Forall_impl _ (P := fun v => (v <= Qsum l)%Q)); [|exact IH].
    intros v Hv. rewrite Qsum_cons. lra.
Qed.

Abbreviation new_score_step wins scores responses :=
  (fun acc r =>
     try! new_scores := acc in
     let numerator := Qsum (values (get_default wins r empty)) in
     try! denominator := bt_denominator wins scores responses r in
     try! x := div numerator (py_max denominator 0.001%Q) in
     Ok (set new_scores r x)).

Lemma new_scores_loop_error wins scores responses (items : list string) :
  fold_left (new_score_step wins scores responses) items ZeroDivisionError
  = ZeroDivisionError.
Proof. induction items as [|r items IH]; [reflexivity|exact IH]. Qed.

Lemma new_scores_loop wins scores responses (items : list string) :
  forall acc ns : dict Q,
    (forall r, In r items ->
               (0 <= Qsum (values (get_default wins r empty)))%Q) ->
    List.NoDup (keys acc ++ items) ->
    List.Forall (fun v => (0 <= v)%Q) (values acc) ->
    fold_left (new_score_step wins scores responses) items (Ok acc) = Ok ns ->
    keys ns = keys acc ++ items
    /\ List.Forall (fun v => (0 <= v)%Q) (values ns).
Proof.
  induction items as [|r items IH]; intros acc ns Hnum Hnd Hacc Hfold.
  - cbn [fold_left] in Hfold. injection Hfold as <-.
    now rewrite app_nil_r.
  - cbn [fold_left] in Hfold. cbn [bind] in Hfold.
    destruct (bt_denominator wins scores responses r) as [den|]; cbn [bind]
      in Hfold; [|now rewrite new_scores_loop_error in Hfold].
    destruct (div _ _) as [x|] eqn:Ex; cbn [bind] in Hfold;
      [|now rewrite new_scores_loop_error in Hfold].
    apply BradleyTerryFacts.div_Ok in Ex as [Hden ->].
    assert (Hr : ~ In r (keys acc)).
    { intros Hin. apply NoDup_remove_2 in Hnd. apply Hnd.
      apply in_app_iff. now left. }
    rewrite (RankingFacts.set_absent acc r _
               (RankingFacts.not_key_get_None acc r Hr)) in Hfold.
    set (x := (Qsum (values (get_default wins r empty))
               / py_max den 0.001)%Q) in *.
    assert (Hx : (0 <= x)%Q).
    { assert (Hm : (0.001 <= py_max den 0.001)%Q).
      { unfold py_max. destruct (Qlt_le_dec _ _);
          [apply Qle_refl|assumption]. }
      apply Qle_shift_div_l; [lra|].
      pose proof (Hnum r (or_introl eq_refl)). lra. }
    clearbody x.
    destruct (IH (acc ++ [(r, x)]) ns
                 (fun r' H => Hnum r' (or_intror H))) as [Hk Hv];
      [| |exact Hfold|].
    + unfold keys in *. rewrite map_app. simpl. now rewrite <- app_assoc.
    + unfold values in *. rewrite map_app. apply List.Forall_app.
      split; [exact Hacc|]. constructor; [exact Hx|constructor].
    + split; [|exact Hv].
      rewrite Hk. unfold keys. rewrite map_app. simpl.
      now rewrite <- app_assoc.
Qed.

Lemma bt_normalize_shape (new_scores scores : dict Q) (total : Q) :
  bt_normalize new_scores total = Ok scores ->
  keys scores = keys new_scores
  /\ values scores = map (fun s => (s / total)%Q) (values new_scores).
Proof.
  revert scores.
  induction new_scores as [|[r s] rest IH]; intros scores; simpl.
  - intros [= <-]. split; reflexivity.
  - destruct (div s total) as [x|] eqn:Ex; simpl; [|discriminate].
    destruct (bt_normalize rest total) as [rest'|] eqn:Er; simpl;
      [|discriminate].
    intros [= <-]. apply BradleyTerryFacts.div_Ok in Ex as [_ ->].
    destruct (IH rest' eq_refl) as [Hk Hv]. simpl.
    now rewrite Hk, Hv.
Qed.

Lemma bt_step_shape wins (responses : list string) (prev scores : dict Q) :
  List.NoDup responses ->
  (forall r, In r responses ->
             (0 <= Qsum (values (get_default wins r empty)))%Q) ->
  bt_step wins responses prev = Ok scores ->
  keys scores = responses
  /\ List.Forall (fun v => (0 <= v <= 1)%Q) (values scores).
Proof.
  intros Hnd Hnum. unfold bt_step.
  destruct (bt_new_scores wins prev responses) as [ns|] eqn:Ens;
    cbn [bind]; [|discriminate].
  intros Hn. unfold bt_new_scores in Ens.
  destruct (new_scores_loop wins prev responses responses empty ns Hnum)
    as [Hk Hv]; [exact Hnd|constructor|exact Ens|].
  cbn [keys empty map app] in Hk.
  destruct (bt_normalize_shape _ _ _ Hn) as [Hk' Hv'].
  split; [now rewrite Hk'|].
  destruct ns as [|e ns'] eqn:E.
  - simpl in Hv'. rewrite Hv'. constructor.
  - rewrite <- E in *.
    assert (Hne : ns <> []) by (rewrite E; discriminate).
    pose proof (BradleyTerryFacts.bt_normalize_total _ _ _ Hne Hn) as Ht.
    pose proof (Qsum_nonneg _ Hv) as Hge.
    assert (Hpos : (0 < Qsum (values ns))%Q).
    { destruct (Qlt_le_dec 0 (Qsum (values ns))) as [H|H]; [exact H|].
      exfalso. apply Ht. now apply Qle_antisym. }
    rewrite Hv'. apply List.Forall_forall. intros y Hy.
    apply in_map_iff in Hy as (s & <- & Hs).
    pose proof (proj1 (List.Forall_forall _ _) Hv s Hs) as H0.
    pose proof (proj1 (List.Forall_forall _ _) (Qsum_member _ Hv) s Hs)
      as H1.
    cbv beta in H0, H1. split.
    + apply Qle_shift_div_l; [exact Hpos|]. lra.
    + apply Qle_shift_div_r; [exact Hpos|]. lra.
Qed.

Lemma tally_nonneg (c : gathered) (r s : string) :
  confident c -> (0 <= tally no_wins c r s)%Q.
Proof.
  destruct c as [c|what]; simpl; [|intros _; apply Qle_refl].
  intros Hc. destruct (winner c); unfold bump, no_wins;
    repeat destruct (_ && _); lra.
Qed.

Lemma wins_row_nonneg (cs : list gathered) (rs : list string) (r : string) :
  List.Forall confident cs ->
  List.NoDup rs ->
  (forall c x, In c cs -> mentions c x -> In x rs) ->
  In r rs ->
  (0 <= Qsum (values (get_default (count_wins rs cs) r empty)))%Q.
Proof.
  intros Hc Hnd Hin Hr.
  rewrite (BradleyTerryFacts.count_wins_table rs cs Hnd Hin).
  rewrite (BradleyTerryFacts.wins_row_table rs _ r Hr).
  apply Qsum_nonneg, List.Forall_forall. intros y Hy.
  apply in_map_iff in Hy as (s & <- & _).
  rewrite BradleyTerryFacts.tally_fold. unfold no_wins at 1.
  rewrite Qplus_0_l. apply Qsum_nonneg, List.Forall_forall.
  intros z Hz. apply in_map_iff in Hz as (c & <- & Hcin).
  apply tally_nonneg. exact (proj1 (List.Forall_forall _ _) Hc c Hcin).
Qed.

(** X24. When the confidences are non-negative and scores are returned,
    there is one score per compared response, the responses in sorted
    order, and every score lies between 0 and 1. *)
Theorem bradley_terry_scores_shape (comparisons : list gathered)
    (scores : dict Q) :
  List.Forall confident comparisons ->
  bradley_terry_scores comparisons = Ok scores ->
  keys scores = sorted (collect_responses comparisons)
  /\ List.Forall (fun v => (0 <= v <= 1)%Q) (values scores).
Proof.
  intros Hc. unfold bradley_terry_scores.
  destruct (collect_responses comparisons) as [|r0 rs0] eqn:E.
  - intros [= <-]. split; [reflexivity|constructor].
  - intros H. apply BradleyTerryFacts.bt_iterate_last_step in H as [prev H].
    assert (Hperm : Permutation (sorted (r0 :: rs0)) (r0 :: rs0))
      by apply BradleyTerryFacts.sorted_is_perm.
    assert (Hnd : List.NoDup (sorted (r0 :: rs0))).
    { apply (Permutation.Permutation_NoDup (Permutation_sym Hperm)).
      rewrite <- E. unfold collect_responses.
      apply BradleyTerryFacts.collect_loop_NoDup. constructor. }
    apply (bt_step_shape (count_wins (sorted (r0 :: rs0)) comparisons)
             (sorted (r0 :: rs0)) prev scores Hnd); [|exact H].
    intros r Hr. apply wins_row_nonneg; try assumption.
    intros c x Hcin Hx. apply (Permutation_in _ (Permutation_sym Hperm)).
    rewrite <- E. apply BradleyTerryFacts.collect_responses_In.
    now exists c.
Qed.

(** *** A tournament on which the iteration returns *)

Lemma dict_equiv_trans (d1 d2 d3 : dict Q) :
  dict_equiv d1 d2 -> dict_equiv d2 d3 -> dict_equiv d1 d3.
Proof.
  unfold dict_equiv. intros H. revert d3.
  induction H as [|e1 e2 d1 d2 [Hk Hv] _ IH]; intros d3 H23;
    inversion H23 as [|? e3 ? d3' [Hk' Hv'] H']; subst; constructor.
  - split; [congruence|]. now rewrite Hv.
  - now apply IH.
Qed.

Abbreviation one_win_table :=
  (wins_table ["Response A"; "Response B"] (fold_left tally one_win no_wins)).

Lemma one_win_step (scores : dict Q) :
  dict_equiv scores settled ->
  exists scores',
    bt_step one_win_table ["Response A"; "Response B"] scores = Ok scores'
    /\ dict_equiv scores' settled.
Proof.
  intros Hs.
  pose proof (BradleyTerryFacts.bt_step_compat
                ["Response A"; "Response B"]
                (fold_left tally one_win no_wins)
                (fold_left tally one_win no_wins)
                (fun _ _ => Qeq_refl _) scores settled Hs) as Hstep.
  assert (Hfix : exists fixed,
             bt_step one_win_table ["Response A"; "Response B"] settled
             = Ok fixed /\ dict_equiv fixed settled).
  { eexists. split; [vm_compute; reflexivity|].
    repeat constructor. }
  destruct Hfix as (fixed & Efix & Hfixed). rewrite Efix in Hstep.
  destruct (bt_step one_win_table ["Response A"; "Response B"] scores)
    as [scores'|]; [|contradiction].
  exists scores'. split; [reflexivity|].
  exact (dict_equiv_trans _ _ _ Hstep Hfixed).
Qed.

Lemma one_win_iterate (n : nat) :
  forall scores : dict Q,
    dict_equiv scores settled ->
    exists scores',
      bt_iterate n one_win_table ["Response A"; "Response B"] scores
      = Ok scores'
      /\ dict_equiv scores' settled.
Proof.
  induction n as [|n IH]; intros scores Hs.
  - exists scores. split; [reflexivity|exact Hs].
  - destruct (one_win_step scores Hs) as (s1 & E1 & H1).
    destruct (IH s1 H1) as (s2 & E2 & H2).
    exists s2. split; [|exact H2].
    change (bt_iterate (S n) one_win_table ["Response A"; "Response B"]
                       scores)
      with (bind (bt_step one_win_table ["Response A"; "Response B"] scores)
                 (fun s => bt_iterate n one_win_table
                                      ["Response A"; "Response B"] s)).
    rewrite E1. exact E2.
Qed.

Lemma one_win_returns :
  exists scores,
    bradley_terry_scores one_win = Ok scores /\ dict_equiv scores settled.
Proof.
  assert (Hfirst : exists first,
             bt_step one_win_table ["Response A"; "Response B"]
                     [("Response A", 1%Q); ("Response B", 1%Q)]
             = Ok first /\ dict_equiv first settled).
  { eexists. split; [vm_compute; reflexivity|]. repeat constructor. }
  destruct Hfirst as (first & E1 & H1).
  destruct (one_win_iterate 19 first H1) as (scores & E2 & H2).
  exists scores. split; [|exact H2].
  unfold bradley_terry_scores.
  change (collect_responses one_win) with ["Response A"; "Response B"].
  cbv iota beta zeta.
  change (sorted ["Response A"; "Response B"])
    with ["Response A"; "Response B"].
  rewrite (BradleyTerryFacts.count_wins_table
             ["Response A"; "Response B"] one_win).
  - change (bt_iterate 20 one_win_table ["Response A"; "Response B"]
              (map (fun r => (r, 1%Q)) ["Response A"; "Response B"]))
      with (bind (bt_step one_win_table ["Response A"; "Response B"]
                          [("Response A", 1%Q); ("Response B", 1%Q)])
                 (fun s => bt_iterate 19 one_win_table
                                      ["Response A"; "Response B"] s)).
    rewrite E1. exact E2.
  - repeat constructor; simpl; intuition discriminate.
  - intros c x [<-|[]] [->| ->]; simpl; tauto.
Qed.

Lemma bradley_terry_scores_shape_witness :
  exists scores,
    bradley_terry_scores one_win = Ok scores
    /\ keys scores = sorted (collect_responses one_win)
    /\ List.Forall (fun v => (0 <= v <= 1)%Q) (values scores).
Proof.
  destruct one_win_returns as (scores & E & _).
  exists scores. split; [exact E|].
  apply (bradley_terry_scores_shape one_win scores); [|exact E].
  repeat constructor. simpl. discriminate.
Defined.

(** *** Tournaments on which the iteration raises *)

Lemma Qsum_all_zero (l : list Q) :
  List.Forall (fun v => v == 0) l -> Qsum l == 0.
Proof.
  induction 1 as [|x l Hx _ IH]; [reflexivity|].
  rewrite Qsum_cons, Hx, IH. reflexivity.
Qed.

Lemma tally_uncredited (c : gathered) (r x : string) :
  ~ credits c r -> tally no_wins c r x == 0.
Proof.
  destruct c as [c|what]; simpl; [|reflexivity].
  intros Hc.
  assert (Hcase : confidence c == 0
                  \/ ~ match winner c with
                       | WinA => response_a c = r
                       | WinB => response_b c = r
                       | WinTie => response_a c = r \/ response_b c = r
                       end).
  { destruct (Qeq_dec (confidence c) 0) as [H|H]; [now left|right].
    intros Hw. apply Hc. now split. }
  destruct (winner c); unfold bump, no_wins.
  - destruct (String.eqb_spec r (response_a c)) as [->|_]; cbn [andb];
      [|reflexivity].
    destruct (String.eqb x (response_b c)); [|reflexivity].
    destruct Hcase as [H|H]; [rewrite H; reflexivity|now destruct H].
  - destruct (String.eqb_spec r (response_b c)) as [->|_]; cbn [andb];
      [|reflexivity].
    destruct (String.eqb x (response_a c)); [|reflexivity].
    destruct Hcase as [H|H]; [rewrite H; reflexivity|now destruct H].
  - destruct Hcase as [H|H].
    + repeat destruct (_ && _); rewrite ?H; reflexivity.
    + destruct (String.eqb_spec r (response_a c)) as [->|_];
        [destruct H; now left|].
      destruct (String.eqb_spec r (response_b c)) as [->|_];
        [destruct H; now right|].
      reflexivity.
Qed.

(** A response no comparison credits has an all-zero win row. *)
Lemma uncredited_row (cs : list gathered) (rs : list string) (r : string) :
  List.NoDup rs ->
  (forall c x, In c cs -> mentions c x -> In x rs) ->
  In r rs ->
  (forall c, In c cs -> ~ credits c r) ->
  Qsum (values (get_default (count_wins rs cs) r empty)) == 0.
Proof.
  intros Hnd Hin Hr Hc.
  rewrite (BradleyTerryFacts.count_wins_table rs cs Hnd Hin).
  rewrite (BradleyTerryFacts.wins_row_table rs _ r Hr).
  apply Qsum_all_zero, List.Forall_forall. intros y Hy.
  apply in_map_iff in Hy as (x & <- & _).
  rewrite BradleyTerryFacts.tally_fold. unfold no_wins at 1.
  rewrite Qplus_0_l. apply Qsum_all_zero, List.Forall_forall.
  intros z Hz. apply in_map_iff in Hz as (c & <- & Hcin).
  apply tally_uncredited. now apply Hc.
Qed.

Abbreviation zero_at winless :=
  (fun e : string * Q => winless (fst e) -> snd e == 0).

Lemma set_Forall_entries {V} (P : string * V -> Prop) (d : dict V)
    (k : string) (v : V) :
  List.Forall P d -> P (k, v) -> List.Forall P (set d k v).
Proof.
  induction d as [|[k0 v0] d IH]; simpl; intros Hd Hv.
  - now constructor.
  - apply List.Forall_cons_iff in Hd as [H0 Hd].
    destruct (String.eqb_spec k0 k) as [->|_]; constructor; auto.
Qed.

Lemma get_default_zero (winless : string -> Prop) (scores : dict Q)
    (r : string) :
  List.Forall (zero_at winless) scores -> winless r ->
  (get_default scores r 0 == 0)%Q.
Proof.
  intros Hall Hr. unfold get_default.
  destruct (get scores r) as [v|] eqn:E; [|reflexivity].
  apply get_In in E.
  exact (proj1 (List.Forall_forall _ _) Hall (r, v) E Hr).
Qed.

(** After a pass that returns, every winless response scores zero. *)
Lemma new_scores_zero (winless : string -> Prop) wins scores responses
    (items : list string) :
  forall acc ns : dict Q,
    (forall r, winless r -> In r items ->
               Qsum (values (get_default wins r empty)) == 0) ->
    List.Forall (zero_at winless) acc ->
    fold_left (new_score_step wins scores responses) items (Ok acc) = Ok ns ->
    List.Forall (zero_at winless) ns.
Proof.
  induction items as [|r items IH]; intros acc ns Hnum Hacc Hfold.
  - cbn [fold_left] in Hfold. now injection Hfold as <-.
  - cbn [fold_left] in Hfold. cbn [bind] in Hfold.
    destruct (bt_denominator wins scores responses r) as [den|]; cbn [bind]
      in Hfold; [|now rewrite new_scores_loop_error in Hfold].
    destruct (div _ _) as [x|] eqn:Ex; cbn [bind] in Hfold;
      [|now rewrite new_scores_loop_error in Hfold].
    apply BradleyTerryFacts.div_Ok in Ex as [_ ->].
    apply (IH _ ns (fun r' Hw H => Hnum r' Hw (or_intror H))) in Hfold;
      [exact Hfold|].
    apply set_Forall_entries; [exact Hacc|].
    cbn [fst snd]. intros Hw.
    rewrite (Hnum r Hw (or_introl eq_refl)). unfold Qdiv. ring.
Qed.

Lemma bt_normalize_zero (winless : string -> Prop) (new_scores scores : dict Q)
    (total : Q) :
  List.Forall (zero_at winless) new_scores ->
  bt_normalize new_scores total = Ok scores ->
  List.Forall (zero_at winless) scores.
Proof.
  revert scores.
  induction new_scores as [|[r s] rest IH]; intros scores Hall; simpl.
  - intros [= <-]. constructor.
  - destruct (div s total) as [x|] eqn:Ex; simpl; [|discriminate].
    destruct (bt_normalize rest total) as [rest'|] eqn:Er; simpl;
      [|discriminate].
    intros [= <-]. apply BradleyTerryFacts.div_Ok in Ex as [_ ->].
    apply List.Forall_cons_iff in Hall as [Hr Hrest].
    constructor; [|now apply IH].
    cbn [fst snd] in *. intros Hw. rewrite (Hr Hw). unfold Qdiv. ring.
Qed.

Lemma bt_step_zero (winless : string -> Prop) wins responses
    (prev scores : dict Q) :
  (forall r, winless r -> In r responses ->
             Qsum (values (get_default wins r empty)) == 0) ->
  bt_step wins responses prev = Ok scores ->
  List.Forall (zero_at winless) scores.
Proof.
  intros Hnum. unfold bt_step.
  destruct (bt_new_scores wins prev responses) as [ns|] eqn:Ens;
    cbn [bind]; [|discriminate].
  apply bt_normalize_zero.
  exact (new_scores_zero winless wins prev responses responses empty ns
           Hnum (List.Forall_nil _) Ens).
Qed.

(** The next pass divides by the sum of two zero scores. *)
Section Denominator.
Variable wins : dict (dict Q).
Variable scores : dict Q.
Variable r : string.

Abbreviation denominator_step :=
  (fun acc s =>
     if String.eqb s r then acc
     else
       try! a := acc in
       try! t := div (wins_get wins r s + wins_get wins s r)%Q
                    (get_default scores r 0%Q + get_default scores s 0%Q)%Q in
       Ok (a + t)%Q).

Lemma denominator_loop_error (items : list string) :
  fold_left denominator_step items ZeroDivisionError = ZeroDivisionError.
Proof.
  induction items as [|s items IH]; [reflexivity|].
  cbn [fold_left]. destruct (String.eqb s r); exact IH.
Qed.

Lemma denominator_loop_raises (s : string) (items : list string) :
  s <> r -> In s items ->
  (get_default scores r 0 == 0)%Q -> (get_default scores s 0 == 0)%Q ->
  forall acc, fold_left denominator_step items acc = ZeroDivisionError.
Proof.
  intros Hne Hin Hr Hs.
  induction items as [|s' items IH]; intros acc; [destruct Hin|].
  cbn [fold_left].
  destruct (string_dec s' s) as [->|Hother].
  - destruct (String.eqb_spec s r) as [->|_]; [contradiction|].
    assert (Hdiv : forall a,
               div a (get_default scores r 0 + get_default scores s 0)%Q
               = ZeroDivisionError).
    { intros a. unfold div.
      assert (H0 : Qeq_bool
                     (get_default scores r 0 + get_default scores s 0)%Q
                     0%Q = true).
      { apply Qeq_bool_iff. rewrite Hr, Hs. reflexivity. }
      now rewrite H0. }
    destruct acc as [a|]; cbn [bind]; rewrite ?Hdiv; cbn [bind];
      apply denominator_loop_error.
  - apply IH. destruct Hin as [->|Hin]; [contradiction|exact Hin].
Qed.
End Denominator.

Lemma new_scores_loop_raises wins scores responses r (items : list string) :
  bt_denominator wins scores responses r = ZeroDivisionError ->
  In r items ->
  forall acc,
    fold_left (new_score_step wins scores responses) items acc
    = ZeroDivisionError.
Proof.
  intros Hden Hin.
  induction items as [|r' items IH]; intros acc; [destruct Hin|].
  cbn [fold_left].
  destruct (string_dec r' r) as [->|Hother].
  - destruct acc as [ns|]; cbn [bind]; rewrite ?Hden; cbn [bind];
      apply new_scores_loop_error.
  - apply IH. destruct Hin as [->|Hin]; [contradiction|exact Hin].
Qed.

Lemma bt_step_raises wins responses (scores : dict Q) (r s : string) :
  r <> s -> In r responses -> In s responses ->
  (get_default scores r 0 == 0)%Q -> (get_default scores s 0 == 0)%Q ->
  bt_step wins responses scores = ZeroDivisionError.
Proof.
  intros Hne Hr Hs Hzr Hzs. unfold bt_step, bt_new_scores.
  rewrite (new_scores_loop_raises wins scores responses r responses);
    [reflexivity| |exact Hr].
  unfold bt_denominator.
  apply (denominator_loop_raises wins scores r s responses);
    [congruence|exact Hs|exact Hzr|exact Hzs].
Qed.

Lemma sorted_responses (cs : list gathered) :
  List.NoDup (sorted (collect_responses cs))
  /\ (forall x, In x (sorted (collect_responses cs))
                <-> In x (collect_responses cs))
  /\ (forall c x, In c cs -> mentions c x ->
                  In x (sorted (collect_responses cs))).
Proof.
  pose proof (BradleyTerryFacts.sorted_is_perm (collect_responses cs))
    as Hperm.
  assert (Hin : forall x, In x (sorted (collect_responses cs))
                          <-> In x (collect_responses cs)).
  { intros x. split; apply Permutation_in;
      [exact Hperm|exact (Permutation_sym Hperm)]. }
  split; [|split; [exact Hin|]].
  - apply (Permutation.Permutation_NoDup (Permutation_sym Hperm)).
    unfold collect_responses.
    apply BradleyTerryFacts.collect_loop_NoDup. constructor.
  - intros c x Hc Hx. apply Hin.
    apply BradleyTerryFacts.collect_responses_In. now exists c.
Qed.

(** X25. Two responses that never win make the function raise: when two
    different compared responses are credited by no comparison (they win
    none, tie none, or only with confidence 0), [bradley_terry_scores]
    raises [ZeroDivisionError].  After the first pass both score 0, and
    the second pass divides by the sum of their scores. *)
Theorem bradley_terry_two_winless_raises (comparisons : list gathered)
    (r s : string) :
  r <> s ->
  In r (collect_responses comparisons) ->
  In s (collect_responses comparisons) ->
  (forall c, In c comparisons -> ~ credits c r /\ ~ credits c s) ->
  bradley_terry_scores comparisons = ZeroDivisionError.
Proof.
  intros Hne Hr Hs Hc. unfold bradley_terry_scores.
  destruct (sorted_responses comparisons) as (Hnd & Hin & Hment).
  destruct (collect_responses comparisons) as [|r0 rs0] eqn:E;
    [destruct Hr|].
  set (rs := sorted (r0 :: rs0)) in *.
  set (wins := count_wins rs comparisons).
  change (bt_iterate 20 wins rs (map (fun r => (r, 1%Q)) rs))
    with (bind (bt_step wins rs (map (fun r => (r, 1%Q)) rs))
               (fun s1 => bind (bt_step wins rs s1)
                               (fun s2 => bt_iterate 18 wins rs s2))).
  destruct (bt_step wins rs (map (fun r => (r, 1%Q)) rs)) as [s1|] eqn:E1;
    cbn [bind]; [|reflexivity].
  assert (Hzero : List.Forall (zero_at (fun x => x = r \/ x = s)) s1).
  { apply (bt_step_zero (fun x => x = r \/ x = s) wins rs
             (map (fun r => (r, 1%Q)) rs) s1); [|exact E1].
    intros x Hx Hxin. apply uncredited_row; try assumption.
    intros c Hcin. destruct Hx as [-> | ->]; now apply Hc. }
  rewrite (bt_step_raises wins rs s1 r s Hne);
    [reflexivity|now apply Hin|now apply Hin| |].
  - apply (get_default_zero (fun x => x = r \/ x = s) s1 r Hzero).
    now left.
  - apply (get_default_zero (fun x => x = r \/ x = s) s1 s Hzero).
    now right.
Qed.

Lemma bradley_terry_two_winless_raises_witness :
  bradley_terry_scores one_winner = ZeroDivisionError.
Proof.
  apply (bradley_terry_two_winless_raises one_winner
           "Response A" "Response C").
  - discriminate.
  - vm_compute. tauto.
  - vm_compute. tauto.
  - intros c Hin. simpl in Hin.
    destruct Hin as [<-|[<-|[<-|[<-|[]]]]]; simpl; split; intros H;
      try exact H; destruct H as [Hconf Hwin]; try discriminate Hwin;
      apply Hconf; reflexivity.
Defined.

(** X26. Comparisons without weight make the function raise: when at least
    one response is compared and every comparison has confidence 0,
    [bradley_terry_scores] raises [ZeroDivisionError].  Every new score of
    the first pass is 0, and so is the total the scores are divided by. *)
Theorem bradley_terry_no_weight_raises (comparisons : list gathered) :
  collect_responses comparisons <> [] ->
  List.Forall weightless comparisons ->
  bradley_terry_scores comparisons = ZeroDivisionError.
Proof.
  intros Hne Hw. unfold bradley_terry_scores.
  destruct (sorted_responses comparisons) as (Hnd & Hin & Hment).
  destruct (collect_responses comparisons) as [|r0 rs0] eqn:E;
    [congruence|].
  set (rs := sorted (r0 :: rs0)) in *.
  set (wins := count_wins rs comparisons).
  change (bt_iterate 20 wins rs (map (fun r => (r, 1%Q)) rs))
    with (bind (bt_step wins rs (map (fun r => (r, 1%Q)) rs))
               (fun s1 => bt_iterate 19 wins rs s1)).
  assert (Hstep : bt_step wins rs (map (fun r => (r, 1%Q)) rs)
                  = ZeroDivisionError); [|now rewrite Hstep].
  unfold bt_step.
  destruct (bt_new_scores wins (map (fun r => (r, 1%Q)) rs) rs) as [ns|]
    eqn:Ens; cbn [bind]; [|reflexivity].
  unfold bt_new_scores in Ens.
  assert (Hzero : List.Forall (zero_at (fun _ => True)) ns).
  { apply (new_scores_zero (fun _ => True) wins
             (map (fun r => (r, 1%Q)) rs) rs rs empty ns);
      [|constructor|exact Ens].
    intros x _ Hx. apply uncredited_row; try assumption.
    intros c Hcin Hcr.
    pose proof (proj1 (List.Forall_forall _ _) Hw c Hcin) as Hwc.
    destruct c as [c|what]; [|exact Hcr].
    destruct Hcr as [Hconf _]. exact (Hconf Hwc). }
  assert (Hns : ns <> []).
  { apply (BradleyTerryFacts.bt_new_scores_not_empty _ _ _ _ _ _ Ens).
    left. unfold rs. now apply BradleyTerryFacts.sorted_not_empty. }
  assert (Htotal : Qsum (values ns) == 0).
  { apply Qsum_all_zero, List.Forall_forall. intros v Hv.
    unfold values in Hv. apply in_map_iff in Hv as (e & <- & He).
    exact (proj1 (List.Forall_forall _ _) Hzero e He I). }
  destruct ns as [|[k v] ns']; [congruence|].
  cbn [bt_normalize]. unfold div at 1.
  assert (H0 : Qeq_bool (Qsum (values ((k, v) :: ns'))) 0%Q = true)
    by now apply Qeq_bool_iff.
  now rewrite H0.
Qed.

Lemma bradley_terry_no_weight_raises_witness :
  bradley_terry_scores unsure = ZeroDivisionError.
Proof.
  apply (bradley_terry_no_weight_raises unsure).
  - vm_compute. discriminate.
  - repeat constructor.
Defined.

End BradleyTerryMoreFacts.

(** ** Retries and circuits, continued *)

Module ResilienceEdgeFacts.
Import Resilience.

Lemma with_retry_negative_witness :
  with_retry flaky (-1) 1 true 0%nat = (RetryTypeError, 0%nat, []).
Proof.
  apply (RetryFacts.with_retry_negative flaky (-1) 1 true 0%nat).
  lia.
Defined.

Lemma is_open_answer (cb cb' : CircuitBreaker) (m : string) (now : Q) :
  open_until cb !! m = open_until cb' !! m ->
  fst (is_open cb m now) = fst (is_open cb' m now).
Proof.
  intros E. unfold is_open. rewrite E.
  destruct (open_until cb' !! m); [|reflexivity].
  now destruct (Qlt_le_dec _ _).
Qed.

(** X28. The breaker keeps one circuit per model: a failure, a success or
    an availability check of one model changes neither the failure count
    of another model nor the answer [is_open] gives for it. *)
Theorem circuits_are_per_model (cb : CircuitBreaker) (m m' : string)
    (t now : Q) :
  m <> m' ->
  (fst (is_open (record_failure cb m t) m' now) = fst (is_open cb m' now)
   /\ failures (record_failure cb m t) !! m' = failures cb !! m')
  /\ (fst (is_open (record_success cb m) m' now) = fst (is_open cb m' now)
      /\ failures (record_success cb m) !! m' = failures cb !! m')
  /\ (fst (is_open (snd (is_open cb m t)) m' now) = fst (is_open cb m' now)
      /\ failures (snd (is_open cb m t)) !! m' = failures cb !! m').
Proof.
  intros Hne.
  destruct (BreakerFacts.record_failure_other cb m m' t Hne) as [F1 O1].
  destruct (BreakerFacts.record_success_other cb m m' Hne) as [F2 O2].
  destruct (BreakerFacts.is_open_other cb m m' t Hne) as [F3 O3].
  repeat split; try assumption; now apply is_open_answer.
Qed.

Lemma circuits_are_per_model_witness :
  (fst (is_open (record_failure tripped_breaker "m" 3) "other" 4)
   = fst (is_open tripped_breaker "other" 4)
   /\ failures (record_failure tripped_breaker "m" 3) !! "other"
      = failures tripped_breaker !! "other")
  /\ (fst (is_open (record_success tripped_breaker "m") "other" 4)
      = fst (is_open tripped_breaker "other" 4)
      /\ failures (record_success tripped_breaker "m") !! "other"
         = failures tripped_breaker !! "other")
  /\ (fst (is_open (snd (is_open tripped_breaker "m" 3)) "other" 4)
      = fst (is_open tripped_breaker "other" 4)
      /\ failures (snd (is_open tripped_breaker "m" 3)) !! "other"
         = failures tripped_breaker !! "other").
Proof.
  apply (circuits_are_per_model tripped_breaker "m" "other" 3 4).
  discriminate.
Defined.

End ResilienceEdgeFacts.

(** ** The comparisons stage 2 collects *)

Module PairwiseStageFacts.
Import Evaluation PairwiseStage.

Lemma combinations2_length {A} (xs : list A) :
  (2 * length (combinations2 xs) = length xs * (length xs - 1))%nat.
Proof.
  induction xs as [|x rest IH]; [reflexivity|].
  cbn [combinations2 length]. rewrite length_app, length_map. nia.
Qed.

Lemma flat_map_constant_length {A B} (f : A -> list B) (n : nat)
    (l : list A) :
  (forall x, length (f x) = n) -> length (flat_map f l) = (length l * n)%nat.
Proof.
  intros Hf. induction l as [|x l IH]; [reflexivity|].
  cbn [flat_map length]. rewrite length_app, Hf, IH. lia.
Qed.

Lemma flat_map_map {A B C} (f : A -> B) (g : B -> list C) (l : list A) :
  flat_map g (map f l) = flat_map (fun x => g (f x)) l.
Proof.
  induction l as [|x l IH]; [reflexivity|]. cbn [map flat_map].
  now rewrite IH.
Qed.

Lemma flat_map_ext_in {A B} (f g : A -> list B) (l : list A) :
  (forall x, In x l -> f x = g x) -> flat_map f l = flat_map g l.
Proof.
  intros H. induction l as [|x l IH]; [reflexivity|]. cbn [flat_map].
  rewrite (H x (or_introl eq_refl)), IH; [reflexivity|].
  intros y Hy. apply H. now right.
Qed.

(** The enumeration of a list, position by position. *)
Lemma enumerate_from {A} (d : A) (l : list A) (k : nat) :
  combine (seq k (length l)) l
  = map (fun j => (j, nth (j - k) l d)) (seq k (length l)).
Proof.
  revert k. induction l as [|x l IH]; intros k; [reflexivity|].
  cbn [length seq combine map]. rewrite Nat.sub_diag. cbn [nth].
  f_equal. rewrite IH. apply map_ext_in. intros j Hj.
  apply in_seq in Hj. replace (j - k)%nat with (S (j - S k)) by lia.
  reflexivity.
Qed.

(** The pairs of the enumeration are the pairs of positions, each with the
    two elements at its positions. *)
Lemma combinations2_positions {A} (d : A) (l : list A) :
  forall k : nat,
    combinations2 (combine (seq k (length l)) l)
    = map (fun p => ((fst p, nth (fst p - k) l d),
                     (snd p, nth (snd p - k) l d)))
          (flat_map (fun i => map (pair i) (seq (S i) (k + length l - S i)))
                    (seq k (length l))).
Proof.
  induction l as [|x l IH]; intros k; [reflexivity|].
  cbn [length seq combine combinations2 flat_map].
  rewrite map_app. f_equal.
  - rewrite (enumerate_from d l (S k)), !map_map.
    replace (k + S (length l) - S k)%nat with (length l) by lia.
    apply map_ext_in. intros j Hj. apply in_seq in Hj. cbn [fst snd].
    rewrite Nat.sub_diag. cbn [nth].
    replace (j - k)%nat with (S (j - S k)) by lia. reflexivity.
  - rewrite IH.
    replace (flat_map (fun i => map (pair i)
                                    (seq (S i) (k + S (length l) - S i)))
                      (seq (S k) (length l)))
      with (flat_map (fun i => map (pair i)
                                   (seq (S i) (S k + length l - S i)))
                     (seq (S k) (length l)))
      by (apply flat_map_ext_in; intros i _; f_equal; f_equal; lia).
    apply map_ext_in. intros [i j] Hp. cbn [fst snd].
    apply in_flat_map in Hp as (i' & Hi & Hj).
    apply in_map_iff in Hj as (j' & [= <- <-] & Hj).
    apply in_seq in Hi. apply in_seq in Hj.
    replace (i' - k)%nat with (S (i' - S k)) by lia.
    replace (j' - k)%nat with (S (j' - S k)) by lia. reflexivity.
Qed.

Section Stage2.
Context {Response : Type}.
Variable label : nat -> string.
Variable pairwise_compare :
  nat -> nat -> nat -> string -> Response -> Response -> string -> gathered.

(** X30. Stage 2 asks every judge about every unordered pair of responses,
    pair by pair in the order of the positions and judge by judge within a
    pair: the entry for the responses at positions [i < j] and the [k]-th
    judge is what that judge's call on these two responses produced, a
    comparison of which then carries the positional labels of its own
    pair, [label i] as [response_a] and [label j] as [response_b],
    whatever labels the judge wrote.  There are as many entries as pairs
    times judges. *)
Theorem stage2_pairwise_evaluation_entries (question : string)
    (responses : list Response) (judge_models : list string)
    (unused : Response) :
  stage2_pairwise_evaluation label pairwise_compare question responses
                             judge_models
  = flat_map
      (fun p =>
         map (fun judge =>
                with_labels (label (fst p)) (label (snd p))
                  (pairwise_compare (fst p) (snd p) (fst judge) question
                     (nth (fst p) responses unused)
                     (nth (snd p) responses unused) (snd judge)))
             (enumerate judge_models))
      (index_pairs (length responses))
  /\ (2 * length (stage2_pairwise_evaluation label pairwise_compare question
                    responses judge_models)
      = length judge_models * (length responses * (length responses - 1)))%nat.
Proof.
  unfold stage2_pairwise_evaluation. split.
  - change (enumerate responses)
      with (combine (seq 0 (length responses)) responses).
    rewrite (combinations2_positions unused responses 0), flat_map_map.
    unfold index_pairs. cbn [Nat.add].
    apply flat_map_ext_in. intros [i j] _. cbn [fst snd].
    rewrite !Nat.sub_0_r. apply map_ext. intros [k judge].
    cbn [compare_pair fst snd]. unfold with_labels.
    now destruct (pairwise_compare i j k question _ _ judge).
  - rewrite (flat_map_constant_length _ (length judge_models)).
    + pose proof (combinations2_length (enumerate responses)) as H.
      unfold enumerate in H at 2 3.
      rewrite !length_combine, !length_seq, !Nat.min_id in H. nia.
    + intros pair. unfold enumerate.
      now rewrite length_map, length_combine, length_seq, Nat.min_id.
Qed.
End Stage2.

End PairwiseStageFacts.
